(** * Character-level text generation: vocabulary codec and decoders

    A shallow embedding of the generative-network notebook: the Keras
    character tokenizer as the notebook configures it
    ([char_level=True, lower=False], no [num_words], no [oov_token]), the
    notebook globals [eos_token], [vocab_size] and [reverse_map], the
    function [decode], and the two decoding loops [generate] and
    [generate_soft].

    Python values are modelled as follows.
    - [str] is [string], over the 256 characters of [ascii]; iterating a
      [str] yields its one-character strings.
    - [bytes] is [list Byte.byte]; decoding them as UTF-8 is a parameter.
    - [int] is [Z].
    - [dict] is an insertion-ordered association list with unique keys.
    - [list] objects live in a heap and are named by references, since
      [generate] binds two names to one list object.
    - float tensors are lists over an abstract carrier [F]; the model, the
      floating-point operations and the random source are parameters. *)

From Stdlib Require Import String Ascii Strings.Byte List ZArith QArith Lia Bool
  Permutation FinFun Sorted.
Import ListNotations.
Local Open Scope string_scope.
Local Open Scope Z_scope.
Local Open Scope list_scope.

Set Implicit Arguments.

(** ** Keys of a Python [dict] *)

Class PyKey (K : Type) := {
  key_eqb : K -> K -> bool;
  key_eqb_eq : forall a b, key_eqb a b = true <-> a = b
}.

#[export] Instance PyKey_str : PyKey string :=
  {| key_eqb := String.eqb; key_eqb_eq := String.eqb_eq |}.

#[export] Instance PyKey_int : PyKey Z :=
  {| key_eqb := Z.eqb; key_eqb_eq := Z.eqb_eq |}.

(** ** Python [dict]: insertion-ordered, one entry per key *)

Module PyDict.
Section Dict.
Context {K V : Type} `{PyKey K}.

Definition dict := list (K * V).

Definition empty : dict := [].

(** [d.get(k)] *)
Fixpoint get (d : dict) (k : K) : option V :=
  match d with
  | [] => None
  | (k', v) :: r => if key_eqb k' k then Some v else get r k
  end.

(** [d[k] = v]: an existing key keeps its position, a new one goes last. *)
Fixpoint set (d : dict) (k : K) (v : V) : dict :=
  match d with
  | [] => [(k, v)]
  | (k', v') :: r =>
      if key_eqb k' k then (k', v) :: r else (k', v') :: set r k v
  end.

(** [d.items()] *)
Definition items (d : dict) : list (K * V) := d.

Definition keys (d : dict) : list K := map fst d.

Definition values (d : dict) : list V := map snd d.

(** [len(d)] *)
Definition len (d : dict) : Z := Z.of_nat (length d).

(** [dict(pairs)] and dict comprehensions: entries are set in order. *)
Definition of_pairs (l : list (K * V)) : dict :=
  fold_left (fun d kv => set d (fst kv) (snd kv)) l empty.

End Dict.
Arguments dict : clear implicits.
End PyDict.

Abbreviation dict := PyDict.dict.

(** ** Strings and ranges *)

(** [for w in text]: the one-character strings of [text], in order. *)
Fixpoint iter_str (s : string) : list string :=
  match s with
  | EmptyString => []
  | String c r => String c EmptyString :: iter_str r
  end.

(** [''.join(parts)] *)
Definition join (parts : list string) : string := String.concat "" parts.

(** [list(range(lo, hi))] *)
Definition range (lo hi : Z) : list Z :=
  map (fun i => lo + Z.of_nat i) (seq 0 (Z.to_nat (hi - lo))).

(** ** The Keras tokenizer, [Tokenizer(char_level=True, lower=False)] *)

Record Tokenizer := {
  word_counts : dict string Z;
  word_index : dict string Z
}.

Definition Tokenizer_new : Tokenizer :=
  {| word_counts := PyDict.empty; word_index := PyDict.empty |}.

(** The counting loop of [fit_on_texts] over one text:
    [for w in seq: word_counts[w] += 1] (or [= 1] for a new [w]). *)
Fixpoint count_seq (seq : list string) (wc : dict string Z) : dict string Z :=
  match seq with
  | [] => wc
  | w :: r =>
      count_seq r
        (match PyDict.get wc w with
         | Some c => PyDict.set wc w (c + 1)
         | None => PyDict.set wc w 1
         end)
  end.

Fixpoint count_texts (texts : list string) (wc : dict string Z) : dict string Z :=
  match texts with
  | [] => wc
  | text :: r => count_texts r (count_seq (iter_str text) wc)
  end.

(** [wcounts.sort(key=lambda x: x[1], reverse=True)]: a stable sort by
    decreasing count; equal counts keep their original order. *)
Fixpoint insert_desc (x : string * Z) (l : list (string * Z)) : list (string * Z) :=
  match l with
  | [] => [x]
  | y :: r => if snd y <=? snd x then x :: y :: r else y :: insert_desc x r
  end.

Definition sort_desc (l : list (string * Z)) : list (string * Z) :=
  fold_right insert_desc [] l.

(** [Tokenizer.fit_on_texts]: count the characters, order them by
    decreasing count and number them from 1 ([oov_token] is [None], so
    [sorted_voc] starts empty). *)
Definition fit_on_texts (tok : Tokenizer) (texts : list string) : Tokenizer :=
  let wc := count_texts texts (word_counts tok) in
  let wcounts := sort_desc (PyDict.items wc) in
  let sorted_voc := map fst wcounts in
  {| word_counts := wc;
     word_index :=
       PyDict.of_pairs
         (combine sorted_voc (range 1 (Z.of_nat (length sorted_voc) + 1))) |}.

(** The inner loop of [texts_to_sequences] for one text: a character with an
    index contributes it ([num_words] is [None]); a character without one is
    skipped ([oov_token] is [None]). *)
Fixpoint text_to_vect (wi : dict string Z) (seq : list string) : list Z :=
  match seq with
  | [] => []
  | w :: r =>
      match PyDict.get wi w with
      | Some i => i :: text_to_vect wi r
      | None => text_to_vect wi r
      end
  end.

Definition texts_to_sequences (tok : Tokenizer) (texts : list string) : list (list Z) :=
  map (fun text => text_to_vect (word_index tok) (iter_str text)) texts.

(** ** The notebook globals *)

Record Globals := {
  tokenizer : Tokenizer;
  eos_token : Z;
  vocab_size : Z;
  reverse_map : dict Z string
}.

(** [tokenizer.word_index['<eos>'] = eos_token] *)
Definition add_eos (tok : Tokenizer) (eos : Z) : Tokenizer :=
  {| word_counts := word_counts tok;
     word_index := PyDict.set (word_index tok) "<eos>" eos |}.

(** [{val:key for key, val in tokenizer.word_index.items()}] *)
Definition build_reverse_map (wi : dict string Z) : dict Z string :=
  PyDict.of_pairs (map (fun kv => (snd kv, fst kv)) (PyDict.items wi)).

(** The globals after the vocabulary cells have run on the training
    titles: fit the tokenizer, reserve [eos_token], set [vocab_size], and
    build [reverse_map] from the word index that already holds ['<eos>']. *)
Definition notebook_globals (titles : list string) : Globals :=
  let tok0 := fit_on_texts Tokenizer_new titles in
  let eos := PyDict.len (word_index tok0) + 1 in
  let tok := add_eos tok0 eos in
  {| tokenizer := tok;
     eos_token := eos;
     vocab_size := eos + 1;
     reverse_map := build_reverse_map (word_index tok) |}.

Arguments notebook_globals : simpl never.

(** [decode(x)] *)
Definition decode (g : Globals) (x : list Z) : string :=
  join (map (fun t => match PyDict.get (reverse_map g) t with
                      | Some s => s
                      | None => ""
                      end) x).

(** [tokenizer.texts_to_sequences([text])[0]]; the list of one text always
    has an element 0. *)
Definition encode (g : Globals) (text : string) : list Z :=
  match texts_to_sequences (tokenizer g) [text] with
  | v :: _ => v
  | [] => []
  end.

(** ** Exceptions, heap and the interpreter monad *)

(** The exceptions the decoding loops can meet; none is raised by the
    notebook's own code. *)
Inductive exn :=
| ModelError (msg : string)   (* raised inside the model call *)
| InvalidArgumentError        (* TensorFlow: index out of bounds, empty reduction *)
| ValueError                  (* NumPy: empty argmax, rejected [pvals] *)
| UnicodeDecodeError.         (* [bytes.decode]: not valid UTF-8 *)

(** A reference to a list object. *)
Definition ref := nat.

Definition Heap := list (list Z).

(** The content behind a reference; references come from [new_list] only,
    so the default is never read. *)
Definition heap_load (h : Heap) (l : ref) : list Z := nth l h [].

Fixpoint heap_update (h : Heap) (l : ref) (f : list Z -> list Z) : Heap :=
  match h, l with
  | [], _ => []
  | v :: r, O => f v :: r
  | v :: r, S l' => v :: heap_update r l' f
  end.

(** Content of [inp] in [generate] once the tokens [gen] were selected after
    the seed: the first of them is there twice, appended once through
    [chars] and once by [inp + [nc]]. *)
Definition model_input (seed gen : list Z) : list Z :=
  seed ++ match gen with
          | [] => []
          | t :: r => t :: t :: r
          end.

Section Decoder.

(** Floating-point carrier and the tensor operations on it. *)
Variable F : Type.
Variables fzero fone : F.
Variable fltb : F -> F -> bool.

(** State of the opaque model object and of NumPy's global generator. *)
Variables St Rng : Type.

Record World := {
  globals : Globals;
  heap : Heap;
  mstate : St;
  rng : Rng
}.

Definition with_heap (w : World) (h : Heap) : World :=
  {| globals := globals w; heap := h; mstate := mstate w; rng := rng w |}.

Definition with_mstate (w : World) (s : St) : World :=
  {| globals := globals w; heap := heap w; mstate := s; rng := rng w |}.

Definition with_rng (w : World) (r : Rng) : World :=
  {| globals := globals w; heap := heap w; mstate := mstate w; rng := r |}.

(** A computation may change the world and may raise; what it changed
    before raising stays changed. *)
Definition M (A : Type) : Type := World -> (exn + A) * World.

Definition ret {A} (a : A) : M A := fun w => (inr a, w).

Definition raise {A} (e : exn) : M A := fun w => (inl e, w).

Definition bind {A B} (c : M A) (k : A -> M B) : M B :=
  fun w => match c w with
           | (inr a, w') => k a w'
           | (inl e, w') => (inl e, w')
           end.

Notation "x <- c ;; k" := (bind c (fun x => k))
  (at level 61, c at next level, right associativity).
Notation "c ;;; k" := (bind c (fun _ => k))
  (at level 61, right associativity).

Definition read_globals : M Globals := fun w => (inr (globals w), w).

(** A fresh list object holding [v]. *)
Definition new_list (v : list Z) : M ref :=
  fun w => (inr (length (heap w)), with_heap w (heap w ++ [v])).

(** The current content of the list object behind [l]. *)
Definition read_list (l : ref) : M (list Z) :=
  fun w => (inr (heap_load (heap w) l), w).

(** [l.append(x)]: the object is changed in place. *)
Definition list_append (l : ref) (x : Z) : M unit :=
  fun w => (inr tt, with_heap w (heap_update (heap w) l (fun v => v ++ [x]))).

(** ** Tensors *)

(** [tf.one_hot(indices, depth)]: an index outside [0, depth) gives a row
    of zeros. *)
Definition one_hot (indices : list Z) (depth : Z) : list (list F) :=
  map (fun t => map (fun j => if j =? t then fone else fzero) (range 0 depth))
      indices.

(** [tf.expand_dims(x, 0)] *)
Definition expand_dims0 {A} (x : A) : list A := [x].

(** [t[0]] *)
Definition subscript_first {A} (t : list A) : M A :=
  match t with
  | x :: _ => ret x
  | [] => raise InvalidArgumentError
  end.

(** [t[-1]] *)
Fixpoint last_opt {A} (t : list A) : option A :=
  match t with
  | [] => None
  | [x] => Some x
  | _ :: r => last_opt r
  end.

Definition subscript_last {A} (t : list A) : M A :=
  match last_opt t with
  | Some x => ret x
  | None => raise InvalidArgumentError
  end.

(** Index of the largest entry; a later entry replaces the running best
    only when strictly larger, so the first of equal maxima is kept, as
    [tf.argmax] and [np.argmax] document for ties. *)
Fixpoint argmax_from {A} (ltb : A -> A -> bool) (best : A) (ibest i : nat)
    (l : list A) : nat :=
  match l with
  | [] => ibest
  | x :: r =>
      if ltb best x then argmax_from ltb x i (S i) r
      else argmax_from ltb best ibest (S i) r
  end.

Definition argmax {A} (ltb : A -> A -> bool) (l : list A) : option nat :=
  match l with
  | [] => None
  | x :: r => Some (argmax_from ltb x 0%nat 1%nat r)
  end.

(** [tf.argmax(out)] on a vector *)
Definition tf_argmax (out : list F) : M Z :=
  match argmax fltb out with
  | Some i => ret (Z.of_nat i)
  | None => raise InvalidArgumentError
  end.

(** [np.argmax(a)]: the index into the flattened array. *)
Definition np_argmax (a : list (list Z)) : M Z :=
  match argmax Z.ltb (concat a) with
  | Some i => ret (Z.of_nat i)
  | None => raise ValueError
  end.

(** ** The model *)

(** The model is an opaque callable: from its state and a batch of one-hot
    sequences it gives a batch of per-position distributions, or raises;
    either way it may change its state. *)
Definition Model : Type :=
  St -> list (list (list F)) -> (exn + list (list (list F))) * St.

Definition call_model (model : Model) (x : list (list (list F)))
  : M (list (list (list F))) :=
  fun w => let (r, s) := model (mstate w) x in (r, with_mstate w s).

(** [model(tf.expand_dims(tf.one_hot(inp,vocab_size),0))[0][-1]] *)
Definition next_distribution (model : Model) (inp : ref) : M (list F) :=
  g <- read_globals ;;
  v <- read_list inp ;;
  batch <- call_model model (expand_dims0 (one_hot v (vocab_size g))) ;;
  seq <- subscript_first batch ;;
  subscript_last seq.

(** ** Greedy decoding *)

(** The [for i in range(size)] loop of [generate] with [n] iterations
    left; [inp] and [chars] are the references the two names hold. *)
Fixpoint generate_loop (model : Model) (n : nat) (inp chars : ref) : M unit :=
  match n with
  | O => ret tt
  | S n' =>
      out <- next_distribution model inp ;;
      nc <- tf_argmax out ;;
      g <- read_globals ;;
      if nc =? eos_token g then ret tt
      else
        list_append chars nc ;;;
        v <- read_list inp ;;
        inp' <- new_list (v ++ [nc]) ;;
        generate_loop model n' inp' chars
  end.

(** [generate] up to its [return]: the content of [chars] at that point. *)
Definition generate_tokens (model : Model) (size : Z) (start : string)
  : M (list Z) :=
  g <- read_globals ;;
  inp <- new_list (encode g start) ;;
  let chars := inp in
  generate_loop model (Z.to_nat size) inp chars ;;;
  read_list chars.

(** [generate(model, size, start)] *)
Definition generate (model : Model) (size : Z) (start : string) : M string :=
  toks <- generate_tokens model size start ;;
  g <- read_globals ;;
  ret (decode g toks).

(** ** Temperature sampling *)

Variables tf_log tf_exp : F -> F.
Variable tf_div : F -> F -> F.
Variable astype_float64 : F -> F.
Variable np_sum : list F -> F.
Variable np_div : F -> F -> F.

(** [np.random.multinomial(n, pvals, size)]: the drawn counts, one row per
    experiment, or an exception; the generator state advances. *)
Variable multinomial : Rng -> Z -> list F -> Z -> (exn + list (list Z)) * Rng.

Definition np_random_multinomial (n : Z) (pvals : list F) (size : Z)
  : M (list (list Z)) :=
  fun w => let (r, s) := multinomial (rng w) n pvals size in (r, with_rng w s).

(** [tf.exp(tf.math.log(out)/temperature).numpy().astype(np.float64)] *)
Definition rescale (out : list F) (temperature : F) : list F :=
  map (fun p => astype_float64 (tf_exp (tf_div (tf_log p) temperature))) out.

(** [probs/np.sum(probs)] *)
Definition renormalize (probs : list F) : list F :=
  map (fun p => np_div p (np_sum probs)) probs.

Fixpoint generate_soft_loop (model : Model) (temperature : F) (n : nat)
    (inp chars : ref) : M unit :=
  match n with
  | O => ret tt
  | S n' =>
      out <- next_distribution model inp ;;
      let probs := rescale out temperature in
      let probs := renormalize probs in
      draw <- np_random_multinomial 1 probs 1 ;;
      nc <- np_argmax draw ;;
      g <- read_globals ;;
      if nc =? eos_token g then ret tt
      else
        list_append chars nc ;;;
        v <- read_list inp ;;
        inp' <- new_list (v ++ [nc]) ;;
        generate_soft_loop model temperature n' inp' chars
  end.

Definition generate_soft_tokens (model : Model) (size : Z) (start : string)
    (temperature : F) : M (list Z) :=
  g <- read_globals ;;
  inp <- new_list (encode g start) ;;
  let chars := inp in
  generate_soft_loop model temperature (Z.to_nat size) inp chars ;;;
  read_list chars.

(** [generate_soft(model, size, start, temperature)] *)
Definition generate_soft (model : Model) (size : Z) (start : string)
    (temperature : F) : M string :=
  toks <- generate_soft_tokens model size start temperature ;;
  g <- read_globals ;;
  ret (decode g toks).

(** ** The control flow the two loops share *)

(** The loop of [generate] and of [generate_soft] with the choice of the
    next token left open. *)
Fixpoint decoding_loop (select : ref -> M Z) (n : nat) (inp chars : ref)
  : M unit :=
  match n with
  | O => ret tt
  | S n' =>
      nc <- select inp ;;
      g <- read_globals ;;
      if nc =? eos_token g then ret tt
      else
        list_append chars nc ;;;
        v <- read_list inp ;;
        inp' <- new_list (v ++ [nc]) ;;
        decoding_loop select n' inp' chars
  end.

(** The effect of [chars.append(nc); inp = inp+[nc]] on the world, and
    the reference [inp] holds afterwards. *)
Definition advance (w : World) (inp chars : ref) (nc : Z) : ref * World :=
  let h := heap_update (heap w) chars (fun v => v ++ [nc]) in
  (length h, with_heap w (h ++ [heap_load h inp ++ [nc]])).

(** [generate] and [generate_soft] up to their [return], likewise. *)
Definition decoding_tokens (select : ref -> M Z) (size : Z) (start : string)
  : M (list Z) :=
  g <- read_globals ;;
  inp <- new_list (encode g start) ;;
  let chars := inp in
  decoding_loop select (Z.to_nat size) inp chars ;;;
  read_list chars.

(** The choice [generate] makes. *)
Definition greedy_select (model : Model) (inp : ref) : M Z :=
  out <- next_distribution model inp ;;
  tf_argmax out.

(** The choice [generate_soft] makes. *)
Definition soft_select (model : Model) (temperature : F) (inp : ref) : M Z :=
  out <- next_distribution model inp ;;
  draw <- np_random_multinomial 1 (renormalize (rescale out temperature)) 1 ;;
  np_argmax draw.

(** A choice that leaves the globals and the heap alone. *)
Definition select_frame (select : ref -> M Z) : Prop :=
  forall inp w,
    globals (snd (select inp w)) = globals w /\
    heap (snd (select inp w)) = heap w.

(** ** Predictors that are functions of their input *)

Definition pure_model (model : Model)
    (f : list (list (list F)) -> exn + list (list (list F))) : Prop :=
  forall s x, model s x = (f x, s).

(** What the greedy choice computes, and the state it leaves the model in,
    from the model state [s] and the content [v] of [inp]. *)
Definition select_at (model : Model) (g : Globals) (s : St) (v : list Z)
  : (exn + Z) * St :=
  let (r, s') := model s (expand_dims0 (one_hot v (vocab_size g))) in
  (match r with
   | inl e => inl e
   | inr [] => inl InvalidArgumentError
   | inr (seq :: _) =>
       match last_opt seq with
       | None => inl InvalidArgumentError
       | Some out =>
           match argmax fltb out with
           | None => inl InvalidArgumentError
           | Some i => inr (Z.of_nat i)
           end
       end
   end, s').

(** The greedy loop on list contents, for references [inp] and [chars] to
    two different objects: the exception raised, if any, the final content
    of [chars], and the final model state. *)
Fixpoint greedy_run (model : Model) (g : Globals) (n : nat) (s : St)
    (iv cv : list Z) : option exn * list Z * St :=
  match n with
  | O => (None, cv, s)
  | S n' =>
      match select_at model g s iv with
      | (inl e, s') => (Some e, cv, s')
      | (inr nc, s') =>
          if nc =? eos_token g then (None, cv, s')
          else greedy_run model g n' s' (iv ++ [nc]) (cv ++ [nc])
      end
  end.

(** The same for [generate_tokens], whose first iteration runs with [inp]
    and [chars] naming one object: the token appended to [chars] is
    already in [inp] when [inp + [nc]] is computed. *)
Definition greedy_tokens (model : Model) (g : Globals) (size : Z)
    (start : string) (s : St) : (exn + list Z) * St :=
  let seed := encode g start in
  match Z.to_nat size with
  | O => (inr seed, s)
  | S n' =>
      match select_at model g s seed with
      | (inl e, s') => (inl e, s')
      | (inr nc, s') =>
          if nc =? eos_token g then (inr seed, s')
          else
            match greedy_run model g n' s' ((seed ++ [nc]) ++ [nc]) (seed ++ [nc]) with
            | (Some e, _, s'') => (inl e, s'')
            | (None, cv, s'') => (inr cv, s'')
            end
      end
  end.

(** From model state [s], with the tokens [pre] already selected after the
    seed: the model makes the tokens of [rest] most probable one after the
    other, none of them the end-of-sequence token, and then makes the
    end-of-sequence token most probable. *)
Fixpoint eos_after (model : Model) (g : Globals) (seed : list Z) (s : St)
    (pre rest : list Z) : Prop :=
  match rest with
  | [] => fst (select_at model g s (model_input seed pre)) = inr (eos_token g)
  | t :: rest' =>
      fst (select_at model g s (model_input seed pre)) = inr t /\
      t <> eos_token g /\
      eos_after model g seed (snd (select_at model g s (model_input seed pre)))
                (pre ++ [t]) rest'
  end.

End Decoder.

(** The result of a token-level run stays within [size] tokens of the
    encoded seed. *)
Definition appended_at_most (g : Globals) (start : string) (size : Z)
    (r : exn + list Z) : Prop :=
  match r with
  | inr toks =>
      exists gen, toks = encode g start ++ gen /\
                  Z.of_nat (length gen) <= Z.max 0 size
  | inl _ => True
  end.

(** The same for the text returned. *)
Definition text_within (g : Globals) (start : string) (size : Z)
    (r : exn + string) : Prop :=
  match r with
  | inr txt =>
      exists gen, txt = decode g (encode g start ++ gen) /\
                  Z.of_nat (length gen) <= Z.max 0 size
  | inl _ => True
  end.

(** The result of a loop that raised [e], or ended normally. *)
Definition outcome (o : option exn) : exn + unit :=
  match o with
  | Some e => inl e
  | None => inr tt
  end.

(** [i] is the lowest index of a largest entry of [out]. *)
Definition lowest_argmax {A} (ltb : A -> A -> bool) (out : list A) (i : nat) : Prop :=
  exists x,
    nth_error out i = Some x /\
    (forall y, In y out -> ltb x y = false) /\
    (forall j y, (j < i)%nat -> nth_error out j = Some y -> ltb y x = true).

(** An order test under which "largest" and "tie" make sense. *)
Record strict_weak_order {A} (ltb : A -> A -> bool) : Prop := {
  ltb_irrefl : forall a, ltb a a = false;
  ltb_trans : forall a b c, ltb a b = true -> ltb b c = true -> ltb a c = true;
  ltb_incomp : forall a b c, ltb a b = false -> ltb b c = false -> ltb a c = false
}.

(** [nc] is the greedy choice for the sequence [v] under the predictor [f]:
    the lowest index of a largest entry of the last distribution [f] answers
    with. *)
Definition lowest_choice {F} (fzero fone : F) (fltb : F -> F -> bool)
    (f : list (list (list F)) -> exn + list (list (list F)))
    (g : Globals) (v : list Z) (nc : Z) : Prop :=
  0 <= nc /\
  exists seq batch out,
    f (expand_dims0 (one_hot fzero fone v (vocab_size g))) = inr (seq :: batch) /\
    last_opt seq = Some out /\
    lowest_argmax fltb out (Z.to_nat nc).

(** [gen] is what greedy decoding with ties broken by the lowest index
    appends to [seed] within [size] steps: each token is the greedy choice
    for the sequence the predictor is given at its step and is not the
    end-of-sequence token, and when [gen] stops before [size] tokens the
    next greedy choice is the end-of-sequence token. *)
Definition greedy_schedule {F} (fzero fone : F) (fltb : F -> F -> bool)
    (f : list (list (list F)) -> exn + list (list (list F)))
    (g : Globals) (seed : list Z) (size : Z) (gen : list Z) : Prop :=
  (length gen <= Z.to_nat size)%nat /\
  (forall k t, nth_error gen k = Some t ->
     t <> eos_token g /\
     lowest_choice fzero fone fltb f g (model_input seed (firstn k gen)) t) /\
  ((length gen < Z.to_nat size)%nat ->
   lowest_choice fzero fone fltb f g (model_input seed gen) (eos_token g)).

(** ** Derived notions used in the statements *)

(** The characters of a corpus in the order [fit_on_texts] ranks them
    (its local [sorted_voc], for a tokenizer that was new). *)
Definition sorted_voc (titles : list string) : list string :=
  map fst (sort_desc (PyDict.items (count_texts titles PyDict.empty))).

(** The indices [word_index] gives to characters, that is to every key but
    ['<eos>']. *)
Definition char_indices (g : Globals) : list Z :=
  map snd (filter (fun kv => negb (fst kv =? "<eos>")%string)
                  (PyDict.items (word_index (tokenizer g)))).

(** The largest of them, 0 when there is none. *)
Definition max_char_index (g : Globals) : Z :=
  fold_right Z.max 0 (char_indices g).

(** A string made of vocabulary characters only. *)
Definition in_vocabulary (g : Globals) (s : string) : Prop :=
  forall c, In c (iter_str s) ->
            PyDict.get (word_index (tokenizer g)) c <> None.

Definition one_char (c : string) : Prop := String.length c = 1%nat.

(** What [fit_on_texts] maintains of [word_counts]: one entry per key, and
    every key a single character. *)
Definition counts_ok (wc : dict string Z) : Prop :=
  NoDup (PyDict.keys wc) /\ Forall one_char (PyDict.keys wc).

(** ** Test doubles *)

(** The vocabulary [{'a':1, 'b':2, 'c':3, '<eos>':4}], as the notebook
    builds it from a corpus in which 'a' is more frequent than 'b' and 'b'
    than 'c'. *)
Definition g_abc : Globals := notebook_globals ["aaabbc"].

(** Exact rational probabilities for the greedy decoder. *)
Definition Qltb (a b : Q) : bool := negb (Qle_bool b a).

(** Uninterpreted floating-point terms for the sampling decoder: runs on
    them assume nothing about rounding, infinities or NaN. *)
Inductive sym :=
| Lit (q : Q)
| Log (a : sym)
| Exp (a : sym)
| Div (a b : sym)
| Float64 (a : sym)
| Add (a b : sym).

Definition sym_sum (l : list sym) : sym := fold_right Add (Lit 0) l.

(** The distribution over the five indices of [g_abc] with all its mass on
    [idx]. *)
Definition point_mass {F} (fzero fone : F) (idx : Z) : list F :=
  map (fun j => if j =? idx then fone else fzero) (range 0 5).

(** A stub predictor that ignores its input and walks through the indices
    1, 2, 3, 4, one per call; its state is the number of calls so far. *)
Definition cycle_model {F} (fzero fone : F) : Model F nat :=
  fun calls _ =>
    (inr [[point_mass fzero fone (nth (Nat.modulo calls 4) [1; 2; 3; 4] 0)]],
     S calls).

(** A stub predictor that always puts all the mass on index 4, the
    end-of-sequence index of [g_abc]. *)
Definition eos_function {F} (fzero fone : F)
  : list (list (list F)) -> exn + list (list (list F)) :=
  fun _ => inr [[point_mass fzero fone 4]].

Definition eos_model {F St} (fzero fone : F) : Model F St :=
  fun s x => (eos_function fzero fone x, s).

(** A stub predictor that is a function of its input: for a sequence of
    [k] positions it puts all the mass on index [k + 1]. *)
Definition length_function {F} (fzero fone : F)
  : list (list (list F)) -> exn + list (list (list F)) :=
  fun x =>
    match x with
    | seq :: _ => inr [[point_mass fzero fone (Z.of_nat (length seq) + 1)]]
    | [] => inr []
    end.

Definition length_model {F St} (fzero fone : F) : Model F St :=
  fun s x => (length_function fzero fone x, s).

(** A stub predictor keyed to the last token it is given rather than to the
    number of calls: after index [i] it puts all the mass on the next of
    1, 2, 3, 4. *)
Definition successor_function : list (list (list Q)) -> exn + list (list (list Q)) :=
  fun x =>
    match x with
    | seq :: _ =>
        match last_opt seq with
        | Some row =>
            match argmax Qltb row with
            | Some i => inr [[point_mass 0%Q 1%Q (Z.of_nat i mod 4 + 1)]]
            | None => inr [[]]
            end
        | None => inr [[]]
        end
    | [] => inr []
    end.

Definition successor_model {St} : Model Q St :=
  fun s x => (successor_function x, s).

(** The same stub, except that it rejects a batch holding an empty
    sequence. *)
Definition checked_model {F} (fzero fone : F) : Model F nat :=
  fun calls x =>
    match x with
    | [[]] => (inl (ModelError "empty sequence"), S calls)
    | _ => cycle_model fzero fone calls x
    end.

(** A stub random source that ignores [pvals] and draws the indices
    1, 2, 3, 4 in turn; its state is the number of draws so far. *)
Definition cycle_sampler {F} : nat -> Z -> list F -> Z -> (exn + list (list Z)) * nat :=
  fun draws _ _ _ =>
    (inr [point_mass 0 1 (nth (Nat.modulo draws 4) [1; 2; 3; 4] 0)], S draws).

(** A stub random source whose single trial always comes out as the first
    outcome: one count per probability, the first of them 1. *)
Definition first_sampler {F} : nat -> Z -> list F -> Z -> (exn + list (list Z)) * nat :=
  fun draws _ pvals _ =>
    (inr [match pvals with
          | [] => []
          | _ :: r => 1 :: repeat 0 (length r)
          end], S draws).

(** A stub for [bytes.decode('utf-8')] on ASCII data, where decoding keeps
    every byte as it is; it gives no text for a byte string with a byte
    above 127. *)
Definition decode_ascii (t : list byte) : option string :=
  if forallb (fun b => (Byte.to_N b <? 128)%N) t
  then Some (string_of_list_byte t)
  else None.

(** A stub random source that rejects every [pvals], as NumPy's does when
    [pvals] holds a NaN. *)
Definition rejecting_sampler {F} : nat -> Z -> list F -> Z -> (exn + list (list Z)) * nat :=
  fun draws _ _ _ => (inl ValueError, S draws).



(** A world with the globals of [g_abc], an empty heap and fresh stubs. *)
Definition world_abc : World nat nat :=
  {| globals := g_abc; heap := []; mstate := 0%nat; rng := 0%nat |}.

(** [generate] and [generate_soft] on the stubs. *)
Definition generate_Q := generate (St := nat) (Rng := nat) 0%Q 1%Q Qltb.


Definition generate_soft_sym :=
  generate_soft (St := nat) (Rng := nat) (Lit 0) (Lit 1)
    Log Exp Div Float64 sym_sum Div cycle_sampler.

(** ** Training batches *)

(** [np.max(a)] on a list of integers; an empty one has no maximum. *)
Definition np_max (a : list Z) : exn + Z :=
  match a with
  | [] => inl ValueError
  | x :: r => inr (fold_left Z.max r x)
  end.

(** [s[-k:]]: the last [k] elements, all of [s] when [k] is 0 or exceeds
    its length. *)
Definition slice_last (k : nat) (s : list Z) : list Z :=
  if (k =? 0)%nat then s else skipn (length s - k) s.

(** [x[idx, -len(trunc):] = trunc] on the row [x[idx]]: the slice and
    [trunc] must have the same length. *)
Definition assign_last (row trunc : list Z) : exn + list Z :=
  let k := length trunc in
  let m := length row in
  if (k =? 0)%nat then (if (m =? 0)%nat then inr row else inl ValueError)
  else if (k <=? m)%nat then inr (firstn (m - k) row ++ trunc)
  else inl ValueError.

(** [[f(x) for x in l]] for an [f] that may raise. *)
Fixpoint map_exn {A B} (f : A -> exn + B) (l : list A) : exn + list B :=
  match l with
  | [] => inr []
  | x :: r =>
      match f x with
      | inl e => inl e
      | inr y =>
          match map_exn f r with
          | inl e => inl e
          | inr ys => inr (y :: ys)
          end
      end
  end.

(** Keras [pad_sequences(sequences)] with its defaults ([maxlen=None],
    [padding='pre'], [truncating='pre'], [value=0]): the rows of
    [np.full((num_samples, maxlen), 0)] with each non-empty sequence written
    at the end of its row. *)
Definition pad_sequences (sequences : list (list Z)) : exn + list (list Z) :=
  let lengths := map (fun x => Z.of_nat (length x)) sequences in
  match np_max lengths with
  | inl e => inl e
  | inr maxlen =>
      map_exn (fun s =>
                 let row := repeat 0 (Z.to_nat maxlen) in
                 match s with
                 | [] => inr row
                 | _ => assign_last row (slice_last (Z.to_nat maxlen) s)
                 end)
              sequences
  end.

(** [tf.concat([z[:,1:], tf.constant(eos, shape=(len(z),1))], axis=1)] *)
Definition shift_targets (z : list (list Z)) (eos : Z) : list (list Z) :=
  map (fun p => fst p ++ snd p)
      (combine (map (@tl Z) z) (repeat [eos] (length z))).

(** [t.numpy().decode('utf-8')]: [utf8] gives the text of a byte string,
    and none when the bytes are not valid UTF-8. *)
Definition bytes_decode (utf8 : list byte -> option string) (t : list byte)
  : exn + string :=
  match utf8 t with
  | Some s => inr s
  | None => inl UnicodeDecodeError
  end.

(** [title_batch(x)], for a batch [x] of titles as byte strings: all titles
    are decoded before the first is tokenized. *)
Definition title_batch {F} (fzero fone : F) (utf8 : list byte -> option string)
    (g : Globals) (x : list (list byte))
  : exn + list (list (list F)) * list (list (list F)) :=
  match map_exn (bytes_decode utf8) x with
  | inl e => inl e
  | inr x =>
      let z := texts_to_sequences (tokenizer g) x in
      match pad_sequences z with
      | inl e => inl e
      | inr z =>
          inr (map (fun row => one_hot fzero fone row (vocab_size g)) z,
               map (fun row => one_hot fzero fone row (vocab_size g))
                   (shift_targets z (eos_token g)))
      end
  end.

(** ** More derived notions *)

(** The characters of a corpus, title after title. *)
Definition corpus_chars (titles : list string) : list string :=
  concat (map iter_str titles).

(** How often [c] occurs in the corpus. *)
Definition occurrences (titles : list string) (c : string) : Z :=
  Z.of_nat (count_occ string_dec (corpus_chars titles) c).

(** [s] without the characters that have no index. *)
Fixpoint keep_known (g : Globals) (s : string) : string :=
  match s with
  | EmptyString => EmptyString
  | String c r =>
      match PyDict.get (word_index (tokenizer g)) (String c EmptyString) with
      | Some _ => String c (keep_known g r)
      | None => keep_known g r
      end
  end.

(** A token that is the index of a character. *)
Definition char_token (g : Globals) (t : Z) : bool :=
  (1 <=? t) && (t <? eos_token g).

(** The length of the longest encoded title. *)
Definition longest (g : Globals) (x : list string) : nat :=
  fold_right Nat.max 0%nat (map (fun t => length (encode g t)) x).

(** The one-hot vector of index 0, which [title_batch] pads with. *)
Definition pad_vector {F} (fzero fone : F) (g : Globals) : list F :=
  fone :: repeat fzero (Z.to_nat (vocab_size g) - 1).

(** From model state [s], with the tokens [pre] already selected after the
    seed: the model makes the tokens of [rest] most probable one after the
    other, none of them the end-of-sequence token. *)
Fixpoint chosen_along {F St} (fzero fone : F) (fltb : F -> F -> bool)
    (model : Model F St) (g : Globals) (seed : list Z) (s : St)
    (pre rest : list Z) : Prop :=
  match rest with
  | [] => True
  | t :: rest' =>
      fst (select_at fzero fone fltb model g s (model_input seed pre)) = inr t /\
      t <> eos_token g /\
      chosen_along fzero fone fltb model g seed
        (snd (select_at fzero fone fltb model g s (model_input seed pre)))
        (pre ++ [t]) rest'
  end.

(** A model whose every distribution has [vocab_size] entries. *)
Definition model_shaped {F St} (model : Model F St) (g : Globals) : Prop :=
  forall s x batch s',
    model s x = (inr batch, s') ->
    Forall (Forall (fun out => length out = Z.to_nat (vocab_size g))) batch.

(** A sampler whose single-trial draws have one count per probability. *)
Definition sampler_shaped {F Rng}
    (multinomial : Rng -> Z -> list F -> Z -> (exn + list (list Z)) * Rng)
  : Prop :=
  forall r pvals draw r',
    multinomial r 1 pvals 1 = (inr draw, r') ->
    length (concat draw) = length pvals.

(** The counts of one trial that came out as [i], among [n] outcomes. *)
Definition one_trial (n i : nat) : list Z :=
  repeat 0 i ++ 1 :: repeat 0 (n - S i).

(** The count [word_counts] holds for [c], 0 when it holds none. *)
Definition count_of (wc : dict string Z) (c : string) : Z :=
  match PyDict.get wc c with
  | Some k => k
  | None => 0
  end.

(** * Properties *)

Unset Implicit Arguments.

(** ** Dictionaries *)

Module PyDictFacts.
Import PyDict.
Section Facts.
Context {K V : Type} `{PyKey K}.
Implicit Types (d : dict K V) (k : K) (v : V).

Lemma key_eqb_refl k : key_eqb k k = true.
Proof. now apply key_eqb_eq. Qed.

Lemma key_eqb_neq a b : a <> b -> key_eqb a b = false.
Proof.
  intros Hne. destruct (key_eqb a b) eqn:E; [|reflexivity].
  apply key_eqb_eq in E. contradiction.
Qed.

Lemma get_In d k v : get d k = Some v -> In (k, v) d.
Proof.
  induction d as [|[k' v'] r IH]; simpl; [discriminate|].
  destruct (key_eqb k' k) eqn:E.
  - apply key_eqb_eq in E. intros [= ->]. subst. now left.
  - intros Hg. right. now apply IH.
Qed.

Lemma get_None d k : get d k = None <-> ~ In k (keys d).
Proof.
  induction d as [|[k' v'] r IH]; simpl.
  - tauto.
  - destruct (key_eqb k' k) eqn:E.
    + apply key_eqb_eq in E. split; [discriminate|]. intros Hn. exfalso. auto.
    + rewrite IH. split.
      * intros Hn [Heq|Hin]; [|auto].
        subst. rewrite key_eqb_refl in E. discriminate.
      * intros Hn Hin. apply Hn. now right.
Qed.

Lemma In_get d k v : NoDup (keys d) -> In (k, v) d -> get d k = Some v.
Proof.
  induction d as [|[k' v'] r IH]; simpl; [tauto|].
  intros Hnd [Heq|Hin].
  - injection Heq as -> ->. now rewrite key_eqb_refl.
  - inversion Hnd as [|? ? Hnotin Hnd']; subst.
    rewrite key_eqb_neq.
    + now apply IH.
    + intros ->. apply Hnotin. unfold keys.
      change k with (fst (k, v)). now apply in_map.
Qed.

Lemma set_new d k v : ~ In k (keys d) -> set d k v = d ++ [(k, v)].
Proof.
  induction d as [|[k' v'] r IH]; simpl; [reflexivity|].
  intros Hn. rewrite key_eqb_neq by (intros ->; apply Hn; now left).
  rewrite IH; [reflexivity|]. intros Hin. apply Hn. now right.
Qed.

Lemma set_keys_old d k v : In k (keys d) -> keys (set d k v) = keys d.
Proof.
  induction d as [|[k' v'] r IH]; simpl; [tauto|].
  intros Hin. destruct (key_eqb k' k) eqn:E; simpl; [reflexivity|].
  f_equal. apply IH. destruct Hin as [->|Hin]; [|assumption].
  rewrite key_eqb_refl in E. discriminate.
Qed.

Lemma set_keys d k v :
  keys (set d k v) = keys d \/ (~ In k (keys d) /\ keys (set d k v) = keys d ++ [k]).
Proof.
  destruct (get d k) eqn:E.
  - left. apply set_keys_old. apply get_In in E.
    unfold keys. change k with (fst (k, v0)). now apply in_map.
  - right. apply get_None in E. split; [assumption|].
    rewrite set_new by assumption. unfold keys. now rewrite map_app.
Qed.

Lemma NoDup_snoc {A} (l : list A) (a : A) : NoDup l -> ~ In a l -> NoDup (l ++ [a]).
Proof.
  intros Hnd Hn. apply NoDup_rev in Hnd.
  rewrite <- (rev_involutive (l ++ [a])). apply NoDup_rev.
  rewrite rev_app_distr. simpl. constructor; [|assumption].
  now rewrite <- in_rev.
Qed.

Lemma set_NoDup d k v : NoDup (keys d) -> NoDup (keys (set d k v)).
Proof.
  intros Hnd. destruct (set_keys d k v) as [->|[Hn ->]]; [assumption|].
  now apply NoDup_snoc.
Qed.

Lemma set_keys_Forall (P : K -> Prop) d k v :
  Forall P (keys d) -> P k -> Forall P (keys (set d k v)).
Proof.
  intros Hd Hk. destruct (set_keys d k v) as [->|[_ ->]]; [assumption|].
  apply Forall_app. split; [assumption|]. now constructor.
Qed.

Lemma fold_set_NoDup (l : list (K * V)) d :
  NoDup (keys d ++ map fst l) ->
  fold_left (fun d kv => set d (fst kv) (snd kv)) l d = d ++ l.
Proof.
  revert d. induction l as [|[k v] l IH]; intros d Hnd; simpl.
  - now rewrite app_nil_r.
  - assert (Hn : ~ In k (keys d)).
    { apply NoDup_remove_2 in Hnd. intros Hin. apply Hnd.
      apply in_or_app. now left. }
    rewrite set_new by assumption. rewrite IH.
    + now rewrite <- app_assoc.
    + unfold keys in *. rewrite map_app. simpl.
      rewrite <- app_assoc. exact Hnd.
Qed.

(** Building a dictionary from pairs with distinct keys keeps the pairs. *)
Lemma of_pairs_NoDup (l : list (K * V)) : NoDup (map fst l) -> of_pairs l = l.
Proof. intros Hnd. unfold of_pairs, empty. now rewrite fold_set_NoDup. Qed.

End Facts.
End PyDictFacts.

(** ** Strings and ranges *)

Lemma iter_str_one_char s : Forall (fun c => String.length c = 1%nat) (iter_str s).
Proof. induction s; simpl; constructor; auto. Qed.

Lemma join_cons x l : join (x :: l) = (x ++ join l)%string.
Proof.
  unfold join. destruct l as [|y l]; simpl.
  - induction x; simpl; [reflexivity | now f_equal].
  - reflexivity.
Qed.

Lemma join_app l1 l2 : join (l1 ++ l2) = (join l1 ++ join l2)%string.
Proof.
  induction l1 as [|x l1 IH]; [reflexivity|].
  rewrite <- app_comm_cons, !join_cons, IH.
  induction x; simpl; [reflexivity | now f_equal].
Qed.

Lemma range_length lo hi : length (range lo hi) = Z.to_nat (hi - lo).
Proof. unfold range. now rewrite length_map, length_seq. Qed.

Lemma range_In lo hi i : In i (range lo hi) <-> lo <= i < hi.
Proof.
  unfold range. rewrite in_map_iff. split.
  - intros (n & <- & Hin). apply in_seq in Hin. lia.
  - intros Hi. exists (Z.to_nat (i - lo)). split; [lia|]. apply in_seq. lia.
Qed.

Lemma range_NoDup lo hi : NoDup (range lo hi).
Proof.
  unfold range. apply Injective_map_NoDup; [|apply seq_NoDup].
  intros a b. lia.
Qed.

Lemma range_snoc lo hi : lo <= hi -> range lo (hi + 1) = range lo hi ++ [hi].
Proof.
  intros Hle. unfold range.
  replace (Z.to_nat (hi + 1 - lo)) with (Z.to_nat (hi - lo) + 1)%nat by lia.
  rewrite seq_app, map_app. simpl. do 2 f_equal. lia.
Qed.

Lemma fold_max_is (l : list Z) (m : Z) :
  (forall x, In x l -> x <= m) -> In m l \/ m = 0 -> 0 <= m ->
  fold_right Z.max 0 l = m.
Proof.
  intros Hub Hin Hm. apply Z.le_antisymm.
  - clear Hin. induction l as [|x l IH]; simpl; [assumption|].
    apply Z.max_lub; [apply Hub; now left|]. apply IH. intros y Hy. apply Hub. now right.
  - destruct Hin as [Hin| ->].
    + clear Hub Hm. induction l as [|x l IH]; simpl; [contradiction|].
      destruct Hin as [->|Hin]; [lia|]. specialize (IH Hin). lia.
    + clear. induction l as [|x l IH]; simpl; lia.
Qed.

(** ** The tokenizer *)

Section TokenizerFacts.
Import PyDict PyDictFacts.

Lemma count_seq_ok seq wc :
  Forall one_char seq -> counts_ok wc -> counts_ok (count_seq seq wc).
Proof.
  revert wc. induction seq as [|w r IH]; intros wc Hseq Hwc; simpl; [assumption|].
  inversion Hseq; subst. apply IH; [assumption|].
  destruct Hwc as [Hnd Hone].
  destruct (get wc w); split;
    solve [now apply set_NoDup | now apply set_keys_Forall].
Qed.

Lemma count_texts_ok texts wc : counts_ok wc -> counts_ok (count_texts texts wc).
Proof.
  revert wc. induction texts as [|t r IH]; intros wc Hwc; simpl; [assumption|].
  apply IH. apply count_seq_ok; [apply iter_str_one_char | assumption].
Qed.

Lemma insert_desc_perm x l : Permutation (insert_desc x l) (x :: l).
Proof.
  induction l as [|y r IH]; simpl; [reflexivity|].
  destruct (snd y <=? snd x); [reflexivity|].
  rewrite IH. apply perm_swap.
Qed.

Lemma sort_desc_perm l : Permutation (sort_desc l) l.
Proof.
  induction l as [|x l IH]; simpl; [reflexivity|].
  rewrite insert_desc_perm. now constructor.
Qed.

Lemma sorted_voc_NoDup titles : NoDup (sorted_voc titles).
Proof.
  unfold sorted_voc.
  eapply Permutation_NoDup.
  - symmetry. apply Permutation_map. apply sort_desc_perm.
  - apply (count_texts_ok titles empty). split; constructor.
Qed.

Lemma sorted_voc_one_char titles : Forall one_char (sorted_voc titles).
Proof.
  unfold sorted_voc.
  eapply Permutation_Forall.
  - symmetry. apply Permutation_map. apply sort_desc_perm.
  - apply (count_texts_ok titles empty). split; constructor.
Qed.

Lemma eos_not_in_voc titles : ~ In "<eos>" (sorted_voc titles).
Proof.
  intros Hin. pose proof (sorted_voc_one_char titles) as Hone.
  rewrite Forall_forall in Hone. apply Hone in Hin. discriminate.
Qed.

End TokenizerFacts.

(** ** Shape of the notebook globals *)

Lemma map_fst_combine {A B} (a : list A) (b : list B) :
  length a = length b -> map fst (combine a b) = a.
Proof.
  revert b. induction a as [|x a IH]; intros [|y b] Hlen; simpl in *;
    try discriminate; [reflexivity|]. f_equal. apply IH. lia.
Qed.

Lemma map_snd_combine {A B} (a : list A) (b : list B) :
  length a = length b -> map snd (combine a b) = b.
Proof.
  revert b. induction a as [|x a IH]; intros [|y b] Hlen; simpl in *;
    try discriminate; [reflexivity|]. f_equal. apply IH. lia.
Qed.

Section GlobalsShape.
Import PyDict PyDictFacts.

Variable titles : list string.

Local Abbreviation voc := (sorted_voc titles).
Local Abbreviation n := (Z.of_nat (length voc)).
Local Abbreviation g := (notebook_globals titles).

Lemma voc_range_length : length voc = length (range 1 (n + 1)).
Proof. rewrite range_length. lia. Qed.

Lemma word_index_fit :
  word_index (fit_on_texts Tokenizer_new titles) = combine voc (range 1 (n + 1)).
Proof.
  unfold fit_on_texts. simpl. fold (sorted_voc titles).
  apply of_pairs_NoDup. rewrite map_fst_combine by apply voc_range_length.
  apply sorted_voc_NoDup.
Qed.

Lemma globals_eos : eos_token g = n + 1.
Proof.
  unfold notebook_globals. cbn [eos_token].
  rewrite word_index_fit. unfold len. rewrite length_combine.
  rewrite <- voc_range_length. lia.
Qed.

Lemma globals_vocab_size : vocab_size g = eos_token g + 1.
Proof. reflexivity. Qed.

Lemma globals_word_index :
  word_index (tokenizer g) = combine voc (range 1 (n + 1)) ++ [("<eos>", n + 1)].
Proof.
  pose proof globals_eos as Heos. unfold notebook_globals in *.
  cbn [tokenizer eos_token add_eos word_index] in *. rewrite Heos.
  rewrite word_index_fit. apply set_new.
  unfold keys. rewrite map_fst_combine by apply voc_range_length.
  apply eos_not_in_voc.
Qed.

Lemma globals_word_index_keys : keys (word_index (tokenizer g)) = voc ++ ["<eos>"].
Proof.
  rewrite globals_word_index. unfold keys. rewrite map_app.
  now rewrite map_fst_combine by apply voc_range_length.
Qed.

Lemma globals_word_index_values :
  values (word_index (tokenizer g)) = range 1 (n + 2).
Proof.
  rewrite globals_word_index. unfold values. rewrite map_app.
  rewrite map_snd_combine by apply voc_range_length. simpl.
  replace (n + 2) with (n + 1 + 1) by lia. rewrite (range_snoc 1 (n + 1)); [reflexivity|].
  lia.
Qed.

Lemma globals_reverse_map :
  reverse_map g = map (fun kv => (snd kv, fst kv)) (word_index (tokenizer g)).
Proof.
  change (reverse_map g) with (build_reverse_map (word_index (tokenizer g))).
  unfold build_reverse_map, items. apply of_pairs_NoDup.
  rewrite map_map. change (NoDup (values (word_index (tokenizer g)))).
  rewrite globals_word_index_values. apply range_NoDup.
Qed.

Lemma word_index_NoDup : NoDup (keys (word_index (tokenizer g))).
Proof.
  rewrite globals_word_index_keys. apply NoDup_snoc.
  - apply sorted_voc_NoDup.
  - apply eos_not_in_voc.
Qed.

Lemma reverse_map_NoDup : NoDup (keys (reverse_map g)).
Proof.
  rewrite globals_reverse_map. unfold keys. rewrite map_map.
  change (NoDup (values (word_index (tokenizer g)))).
  rewrite globals_word_index_values. apply range_NoDup.
Qed.

(** [reverse_map] inverts [word_index]. *)
Lemma reverse_map_get c i :
  get (word_index (tokenizer g)) c = Some i -> get (reverse_map g) i = Some c.
Proof.
  intros Hg. apply get_In in Hg. apply In_get; [apply reverse_map_NoDup|].
  rewrite globals_reverse_map.
  change (i, c) with ((fun kv : string * Z => (snd kv, fst kv)) (c, i)).
  now apply in_map.
Qed.

Lemma word_index_get_inv i c :
  get (reverse_map g) i = Some c -> get (word_index (tokenizer g)) c = Some i.
Proof.
  intros Hg. apply get_In in Hg. rewrite globals_reverse_map in Hg.
  apply in_map_iff in Hg. destruct Hg as ([k v] & [= <- <-] & Hin).
  apply In_get; [apply word_index_NoDup | assumption].
Qed.

(** The index of ['<eos>'] is [eos_token]; a character has a smaller one. *)
Lemma word_index_eos : get (word_index (tokenizer g)) "<eos>" = Some (eos_token g).
Proof.
  apply In_get; [apply word_index_NoDup|].
  rewrite globals_word_index, globals_eos. apply in_or_app. right. now left.
Qed.

Lemma word_index_range c i :
  get (word_index (tokenizer g)) c = Some i ->
  (c = "<eos>" /\ i = eos_token g) \/
  (one_char c /\ In c voc /\ 1 <= i < eos_token g).
Proof.
  intros Hg. apply get_In in Hg. rewrite globals_word_index in Hg.
  rewrite globals_eos. apply in_app_or in Hg. destruct Hg as [Hin|[[= <- <-]|[]]].
  - right. pose proof (in_combine_l _ _ _ _ Hin) as Hc.
    apply in_combine_r in Hin. apply range_In in Hin.
    pose proof (sorted_voc_one_char titles) as Hone. rewrite Forall_forall in Hone.
    repeat split; auto; lia.
  - now left.
Qed.

Lemma word_index_char c i :
  one_char c -> get (word_index (tokenizer g)) c = Some i -> 1 <= i < eos_token g.
Proof.
  intros Hone Hg. apply word_index_range in Hg.
  destruct Hg as [[-> _]|(_ & _ & Hr)]; [discriminate | assumption].
Qed.

Lemma reverse_map_None i :
  get (reverse_map g) i = None <-> ~ (1 <= i <= eos_token g).
Proof.
  rewrite get_None, globals_reverse_map. unfold keys. rewrite map_map.
  change (~ In i (values (word_index (tokenizer g))) <-> ~ 1 <= i <= eos_token g).
  rewrite globals_word_index_values, range_In, globals_eos. lia.
Qed.

Lemma char_indices_are : char_indices g = range 1 (n + 1).
Proof.
  unfold char_indices, items. rewrite globals_word_index, filter_app. simpl.
  rewrite app_nil_r.
  rewrite forallb_filter_id.
  - apply map_snd_combine, voc_range_length.
  - apply forallb_forall. intros [c i] Hin. simpl.
    apply in_combine_l in Hin. apply negb_true_iff. apply String.eqb_neq.
    intros ->. now apply (eos_not_in_voc titles).
Qed.

Lemma max_char_index_is : max_char_index g = n.
Proof.
  unfold max_char_index. rewrite char_indices_are. apply fold_max_is.
  - intros x Hx. apply range_In in Hx. lia.
  - destruct (Z.eq_dec n 0) as [->|Hn]; [now right|]. left. apply range_In. lia.
  - lia.
Qed.

End GlobalsShape.

(** ** The codec *)

Lemma decode_nil g : decode g [] = "".
Proof. reflexivity. Qed.

Lemma decode_cons g t x :
  decode g (t :: x) =
  ((match PyDict.get (reverse_map g) t with Some s => s | None => "" end)
     ++ decode g x)%string.
Proof. unfold decode. simpl map. apply join_cons. Qed.

Lemma decode_app g x y : decode g (x ++ y) = (decode g x ++ decode g y)%string.
Proof. unfold decode. rewrite map_app. apply join_app. Qed.

Lemma string_app_nil (s : string) : (s ++ "")%string = s.
Proof. induction s; simpl; [reflexivity | now f_equal]. Qed.

Lemma decode_one g t :
  decode g [t] = match PyDict.get (reverse_map g) t with Some s => s | None => "" end.
Proof. rewrite decode_cons, decode_nil. apply string_app_nil. Qed.

Lemma encode_unfold g s :
  encode g s = text_to_vect (word_index (tokenizer g)) (iter_str s).
Proof. reflexivity. Qed.

(** Tokens of an encoded text are character indices. *)
Lemma encode_range titles s t :
  In t (encode (notebook_globals titles) s) ->
  1 <= t < eos_token (notebook_globals titles).
Proof.
  rewrite encode_unfold. pose proof (iter_str_one_char s) as Hone.
  induction (iter_str s) as [|c r IH]; simpl; [contradiction|].
  inversion Hone; subst.
  destruct (PyDict.get _ c) eqn:E; [|now apply IH].
  intros [<-|Hin]; [|now apply IH]. eapply word_index_char; eassumption.
Qed.

(** Only the end-of-sequence token decodes to the text ['<eos>']. *)
Lemma decode_marker_only_eos titles t :
  decode (notebook_globals titles) [t] = "<eos>" ->
  t = eos_token (notebook_globals titles).
Proof.
  rewrite decode_one.
  destruct (PyDict.get (reverse_map (notebook_globals titles)) t) as [c|] eqn:E;
    [|discriminate].
  intros ->. apply word_index_get_inv in E.
  rewrite word_index_eos in E. congruence.
Qed.

(** C1. For every string made only of characters of the vocabulary,
    decoding its encoding gives the string back:
    [decode(encode(s)) == s]. *)
Theorem decode_encode_roundtrip (titles : list string) (s : string) :
  in_vocabulary (notebook_globals titles) s ->
  decode (notebook_globals titles) (encode (notebook_globals titles) s) = s.
Proof.
  intros Hvoc. rewrite encode_unfold. unfold in_vocabulary in Hvoc.
  induction s as [|a r IH]; [reflexivity|].
  simpl iter_str in *. simpl text_to_vect.
  destruct (PyDict.get _ (String a "")) as [i|] eqn:E.
  - rewrite decode_cons. rewrite (reverse_map_get _ _ _ E). simpl. f_equal.
    apply IH. intros c Hc. apply Hvoc. now right.
  - exfalso. apply (Hvoc (String a "")); [now left | assumption].
Qed.

Lemma decode_encode_roundtrip_witness :
  in_vocabulary (notebook_globals ["aaabbc"]) "cabba" /\
  decode (notebook_globals ["aaabbc"]) (encode (notebook_globals ["aaabbc"]) "cabba")
  = "cabba".
Proof.
  assert (H : in_vocabulary (notebook_globals ["aaabbc"]) "cabba").
  { intros c Hc. simpl in Hc.
    repeat (destruct Hc as [<-|Hc]; [vm_compute; discriminate|]). contradiction. }
  split; [exact H | exact (decode_encode_roundtrip ["aaabbc"] "cabba" H)].
Defined.

(** C2, as the code has it. [decode] is a total function on token
    sequences, computed token by token: an index with a character mapping
    decodes to that character, the end-of-sequence index decodes to the
    five characters of the key ['<eos>'] that [reverse_map] holds for it (not
    to the empty string), and an index without a mapping, that is one outside
    1 .. [eos_token], decodes to the empty string. *)
Theorem decode_cases (titles : list string) :
  let g := notebook_globals titles in
  (forall x y, decode g (x ++ y) = (decode g x ++ decode g y)%string) /\
  (forall c i, one_char c ->
               PyDict.get (word_index (tokenizer g)) c = Some i ->
               decode g [i] = c) /\
  decode g [eos_token g] = "<eos>" /\
  (forall t, (forall c, PyDict.get (word_index (tokenizer g)) c <> Some t) ->
             decode g [t] = "") /\
  (forall t, ~ (1 <= t <= eos_token g) -> decode g [t] = "").
Proof.
  intros g. repeat split.
  - apply decode_app.
  - intros c i _ Hg. rewrite decode_one. unfold g.
    now rewrite (reverse_map_get _ _ _ Hg).
  - rewrite decode_one. unfold g.
    now rewrite (reverse_map_get _ _ _ (word_index_eos titles)).
  - intros t Hun. rewrite decode_one.
    destruct (PyDict.get (reverse_map g) t) as [c|] eqn:E; [|reflexivity].
    exfalso. apply (Hun c). now apply word_index_get_inv.
  - intros t Hout. rewrite decode_one. unfold g.
    now rewrite (proj2 (reverse_map_None titles t) Hout).
Qed.

(** The end-of-sequence index of the vocabulary
    [{'a':1, 'b':2, 'c':3, '<eos>':4}] does not decode to the empty string. *)
Lemma decode_eos_not_empty : decode g_abc [eos_token g_abc] <> "".
Proof. vm_compute. discriminate. Qed.

(** ** The heap *)

Lemma heap_load_app_old h v l :
  (l < length h)%nat -> heap_load (h ++ [v]) l = heap_load h l.
Proof. intros Hl. unfold heap_load. now apply app_nth1. Qed.

Lemma heap_load_app_new h v : heap_load (h ++ [v]) (length h) = v.
Proof. unfold heap_load. apply nth_middle. Qed.

Lemma heap_update_length h l f : length (heap_update h l f) = length h.
Proof.
  revert l. induction h as [|v r IH]; intros [|l]; simpl; auto.
Qed.

Lemma heap_load_update_same h l f :
  (l < length h)%nat -> heap_load (heap_update h l f) l = f (heap_load h l).
Proof.
  revert l. induction h as [|v r IH]; intros [|l] Hl; simpl in *; try lia.
  - reflexivity.
  - apply IH. lia.
Qed.

Lemma heap_load_update_other h l l' f :
  l <> l' -> heap_load (heap_update h l f) l' = heap_load h l'.
Proof.
  revert l l'. induction h as [|v r IH]; intros [|l] [|l'] Hne; simpl;
    try reflexivity; try congruence.
  apply IH. congruence.
Qed.

(** ** The decoding loops *)

Section DecoderFacts.

Local Set Default Proof Using "Type".

Variable F : Type.
Variables fzero fone : F.
Variable fltb : F -> F -> bool.
Variables St Rng : Type.
Variables tf_log tf_exp : F -> F.
Variable tf_div : F -> F -> F.
Variable astype_float64 : F -> F.
Variable np_sum : list F -> F.
Variable np_div : F -> F -> F.
Variable multinomial : Rng -> Z -> list F -> Z -> (exn + list (list Z)) * Rng.

Implicit Types (w : World St Rng) (model : Model F St).

Local Abbreviation greedy model := (greedy_select (Rng := Rng) fzero fone fltb model).
Local Abbreviation soft model t :=
  (soft_select fzero fone tf_log tf_exp tf_div astype_float64 np_sum np_div
               multinomial model t).
Local Abbreviation gen_soft_loop :=
  (generate_soft_loop fzero fone tf_log tf_exp tf_div astype_float64 np_sum
                      np_div multinomial).
Local Abbreviation gen_soft_tokens :=
  (generate_soft_tokens fzero fone tf_log tf_exp tf_div astype_float64 np_sum
                        np_div multinomial).
Local Abbreviation gen_soft :=
  (generate_soft fzero fone tf_log tf_exp tf_div astype_float64 np_sum
                 np_div multinomial).
Local Abbreviation gen_loop := (generate_loop (Rng := Rng) fzero fone fltb).
Local Abbreviation gen_tokens := (generate_tokens (Rng := Rng) fzero fone fltb).
Local Abbreviation gen := (generate (Rng := Rng) fzero fone fltb).

Lemma bind_assoc {A B C} (c : M St Rng A) (f : A -> M St Rng B)
    (k : B -> M St Rng C) w :
  bind (bind c f) k w = bind c (fun x => bind (f x) k) w.
Proof. unfold bind. destruct (c w) as [[e|a] w1]; reflexivity. Qed.

Lemma bind_ext {A B} (c : M St Rng A) (k1 k2 : A -> M St Rng B) w :
  (forall a w1, k1 a w1 = k2 a w1) -> bind c k1 w = bind c k2 w.
Proof. intros Hk. unfold bind. destruct (c w) as [[e|a] w1]; auto. Qed.

(** Both loops are the shared loop with their own choice. *)
Lemma generate_loop_shared model n inp chars w :
  gen_loop model n inp chars w = decoding_loop (greedy model) n inp chars w.
Proof.
  revert inp w. induction n as [|n IH]; intros inp w; [reflexivity|].
  simpl. unfold greedy_select. rewrite !bind_assoc.
  apply bind_ext. intros out w1. rewrite ?bind_assoc.
  apply bind_ext. intros nc w2. apply bind_ext. intros g w3.
  destruct (nc =? eos_token g); [reflexivity|].
  repeat (apply bind_ext; intros). apply IH.
Qed.

Lemma generate_soft_loop_shared model t n inp chars w :
  gen_soft_loop model t n inp chars w = decoding_loop (soft model t) n inp chars w.
Proof.
  revert inp w. induction n as [|n IH]; intros inp w; [reflexivity|].
  simpl. unfold soft_select. rewrite !bind_assoc.
  apply bind_ext. intros out w1. rewrite ?bind_assoc.
  apply bind_ext. intros draw w2. rewrite ?bind_assoc.
  apply bind_ext. intros nc w3. apply bind_ext. intros g w4.
  destruct (nc =? eos_token g); [reflexivity|].
  repeat (apply bind_ext; intros). apply IH.
Qed.

(** Calling the model changes the model state only. *)
Lemma next_distribution_frame model inp w :
  let w' := snd (next_distribution fzero fone model inp w) in
  globals w' = globals w /\ heap w' = heap w /\ rng w' = rng w.
Proof.
  unfold next_distribution, bind, read_globals, read_list, call_model. simpl.
  destruct (model _ _) as [[e|batch] s]; simpl; [auto|].
  destruct batch as [|seq batch]; simpl; [auto|].
  unfold subscript_last. destruct (last_opt seq); simpl; auto.
Qed.

Lemma greedy_select_frame model : select_frame (greedy model).
Proof.
  intros inp w. unfold greedy_select, bind.
  destruct (next_distribution_frame model inp w) as (Hg & Hh & _).
  destruct (next_distribution _ _ _ _ _) as [[e|out] w1];
    simpl in Hg, Hh |- *; [now split|].
  unfold tf_argmax. destruct (argmax fltb out); simpl; now split.
Qed.

Lemma soft_select_frame model t : select_frame (soft model t).
Proof.
  intros inp w. unfold soft_select, bind.
  destruct (next_distribution_frame model inp w) as (Hg & Hh & _).
  destruct (next_distribution _ _ _ _ _) as [[e|out] w1];
    simpl in Hg, Hh |- *; [now split|].
  unfold np_random_multinomial.
  destruct (multinomial _ _ _ _) as [[e|draw] r]; simpl; [now split|].
  unfold np_argmax. destruct (argmax Z.ltb (concat draw)); simpl; now split.
Qed.

(** One iteration of the shared loop. *)
Lemma decoding_loop_step select n inp chars w :
  decoding_loop select (S n) inp chars w =
  match select inp w with
  | (inl e, w1) => (inl e, w1)
  | (inr nc, w1) =>
      if nc =? eos_token (globals w1) then (inr tt, w1)
      else decoding_loop select n (fst (advance w1 inp chars nc)) chars
                         (snd (advance w1 inp chars nc))
  end.
Proof.
  simpl. unfold bind at 1. destruct (select inp w) as [[e|nc] w1]; [reflexivity|].
  unfold bind at 1, read_globals at 1.
  destruct (nc =? eos_token (globals w1)); reflexivity.
Qed.

Lemma advance_world w inp chars nc :
  (chars < length (heap w))%nat ->
  let w' := snd (advance w inp chars nc) in
  globals w' = globals w /\ mstate w' = mstate w /\ rng w' = rng w /\
  length (heap w') = S (length (heap w)) /\
  heap_load (heap w') chars = heap_load (heap w) chars ++ [nc] /\
  (forall l, l <> chars -> (l < length (heap w))%nat ->
             heap_load (heap w') l = heap_load (heap w) l) /\
  heap_load (heap w') (fst (advance w inp chars nc)) =
    heap_load (heap_update (heap w) chars (fun v => v ++ [nc])) inp ++ [nc].
Proof.
  intros Hc. unfold advance. simpl. repeat split.
  - rewrite length_app, heap_update_length. simpl. lia.
  - rewrite heap_load_app_old by now rewrite heap_update_length.
    now apply heap_load_update_same.
  - intros l Hne Hl. rewrite heap_load_app_old by now rewrite heap_update_length.
    apply heap_load_update_other. congruence.
  - apply heap_load_app_new.
Qed.

(** One run of the shared loop: the globals stay, the heap only grows, and
    the object behind [chars] gains at most [n] tokens, none of them the
    end-of-sequence token. *)
Lemma decoding_loop_grows select n : select_frame select ->
  forall inp chars w r w', (chars < length (heap w))%nat ->
  decoding_loop select n inp chars w = (r, w') ->
  globals w' = globals w /\
  (length (heap w) <= length (heap w'))%nat /\
  exists gen,
    heap_load (heap w') chars = heap_load (heap w) chars ++ gen /\
    (length gen <= n)%nat /\
    ~ In (eos_token (globals w)) gen.
Proof.
  intros Hsel.
  induction n as [|n IH]; intros inp chars w r w' Hc Hrun.
  - simpl in Hrun. injection Hrun as <- <-. repeat split; [lia|].
    exists []. rewrite app_nil_r. simpl. auto.
  - rewrite decoding_loop_step in Hrun. destruct (Hsel inp w) as [Hg Hh].
    destruct (select inp w) as [[e|nc] w1]; simpl in Hg, Hh.
    + injection Hrun as <- <-. rewrite Hg, Hh. repeat split; [lia|].
      exists []. rewrite app_nil_r. simpl. auto with arith.
    + destruct (nc =? eos_token (globals w1)) eqn:Eeos.
      * injection Hrun as <- <-. rewrite Hg, Hh. repeat split; [lia|].
        exists []. rewrite app_nil_r. simpl. auto with arith.
      * assert (Hc1 : (chars < length (heap w1))%nat) by now rewrite Hh.
        destruct (advance_world w1 inp chars nc Hc1)
          as (Ag & _ & _ & Alen & Achars & _ & _).
        apply IH in Hrun; [|lia].
        destruct Hrun as (Hg' & Hh' & gen' & Hload & Hlen' & Hnin).
        rewrite Hg', Ag, Hg. repeat split; [rewrite <- Hh; lia|].
        exists (nc :: gen'). rewrite Hload, Achars, Hh, <- app_assoc. simpl.
        repeat split; [lia|]. rewrite Ag, Hg in Hnin. intros [Heq|Hin]; [|auto].
        rewrite Hg in Eeos. apply Z.eqb_neq in Eeos. congruence.
Qed.

Lemma generate_tokens_shared model size start w :
  gen_tokens model size start w = decoding_tokens (greedy model) size start w.
Proof.
  unfold generate_tokens, decoding_tokens.
  apply bind_ext. intros g w1. apply bind_ext. intros inp w2.
  unfold bind. now rewrite generate_loop_shared.
Qed.

Lemma generate_soft_tokens_shared model size start t w :
  gen_soft_tokens model size start t w = decoding_tokens (soft model t) size start w.
Proof.
  unfold generate_soft_tokens, decoding_tokens.
  apply bind_ext. intros g w1. apply bind_ext. intros inp w2.
  unfold bind. now rewrite generate_soft_loop_shared.
Qed.

(** What a token-level run leaves: the globals, and a result within [size]
    tokens of the encoded seed, none of the added ones the end-of-sequence
    token. *)
Lemma decoding_tokens_run select size start w r w' :
  select_frame select ->
  decoding_tokens select size start w = (r, w') ->
  globals w' = globals w /\
  match r with
  | inr toks =>
      exists gen, toks = encode (globals w) start ++ gen /\
                  (length gen <= Z.to_nat size)%nat /\
                  ~ In (eos_token (globals w)) gen
  | inl _ => True
  end.
Proof.
  intros Hsel. unfold decoding_tokens.
  unfold bind at 1, read_globals at 1. unfold bind at 1, new_list at 1.
  unfold bind at 1.
  set (w1 := with_heap w (heap w ++ [encode (globals w) start])).
  destruct (decoding_loop select (Z.to_nat size) (length (heap w))
              (length (heap w)) w1) as [r1 w2] eqn:Erun.
  apply decoding_loop_grows in Erun; [|assumption|].
  2:{ unfold w1. simpl. rewrite length_app. simpl. lia. }
  destruct Erun as (Hg & _ & gen & Hload & Hlen & Hnin).
  replace (heap_load (heap w1) (length (heap w))) with (encode (globals w) start)
    in Hload by (unfold w1; simpl; now rewrite heap_load_app_new).
  replace (globals w1) with (globals w) in Hnin by reflexivity.
  replace (globals w1) with (globals w) in Hg by reflexivity.
  destruct r1 as [e|[]]; unfold read_list; intros [= <- <-];
    (split; [exact Hg|]); [exact I|].
  exists gen. auto.
Qed.

Lemma tokens_within g start size toks :
  (exists gen, toks = encode g start ++ gen /\
               (length gen <= Z.to_nat size)%nat /\
               ~ In (eos_token g) gen) ->
  appended_at_most g start size (inr toks).
Proof. intros (gen & -> & Hlen & _). exists gen. split; [reflexivity | lia]. Qed.

Lemma generate_run model size start w r w' :
  gen_tokens model size start w = (r, w') ->
  globals w' = globals w /\ appended_at_most (globals w) start size r /\
  gen model size start w =
    (match r with inr toks => inr (decode (globals w) toks) | inl e => inl e end, w').
Proof.
  intros Hrun. unfold generate, bind at 1. rewrite Hrun.
  rewrite generate_tokens_shared in Hrun.
  apply decoding_tokens_run in Hrun; [|apply greedy_select_frame].
  destruct Hrun as [Hg Hr]. split; [exact Hg|].
  destruct r as [e|toks]; simpl; [auto|].
  split; [now apply tokens_within|]. unfold bind, read_globals, ret. now rewrite Hg.
Qed.

Lemma generate_soft_run model size start t w r w' :
  gen_soft_tokens model size start t w = (r, w') ->
  globals w' = globals w /\ appended_at_most (globals w) start size r /\
  gen_soft model size start t w =
    (match r with inr toks => inr (decode (globals w) toks) | inl e => inl e end, w').
Proof.
  intros Hrun. unfold generate_soft, bind at 1. rewrite Hrun.
  rewrite generate_soft_tokens_shared in Hrun.
  apply decoding_tokens_run in Hrun; [|apply soft_select_frame].
  destruct Hrun as [Hg Hr]. split; [exact Hg|].
  destruct r as [e|toks]; simpl; [auto|].
  split; [now apply tokens_within|]. unfold bind, read_globals, ret. now rewrite Hg.
Qed.

Lemma text_within_of_tokens g start size r :
  appended_at_most g start size r ->
  text_within g start size
    (match r with inr toks => inr (decode g toks) | inl e => inl e end).
Proof.
  destruct r as [e|toks]; simpl; [auto|].
  intros (gen & -> & Hlen). now exists gen.
Qed.

End DecoderFacts.

(** ** Bounded length *)

(** C3. Whatever the predictor, the seed and [max_length], neither
    [generate] nor [generate_soft] appends more than [max_length] tokens to
    the encoded seed: the token sequence they decode is the encoded seed
    followed by at most [max_length] tokens, and the text they return is its
    decoding. *)
Theorem generation_bounded (F St Rng : Type) (fzero fone : F)
    (fltb : F -> F -> bool) (tf_log tf_exp : F -> F) (tf_div : F -> F -> F)
    (astype_float64 : F -> F) (np_sum : list F -> F) (np_div : F -> F -> F)
    (multinomial : Rng -> Z -> list F -> Z -> (exn + list (list Z)) * Rng)
    (model : Model F St) (size : Z) (start : string) (temperature : F)
    (w : World St Rng) :
  let soft_tokens :=
    generate_soft_tokens fzero fone tf_log tf_exp tf_div astype_float64
                         np_sum np_div multinomial in
  let soft :=
    generate_soft fzero fone tf_log tf_exp tf_div astype_float64
                  np_sum np_div multinomial in
  appended_at_most (globals w) start size
    (fst (generate_tokens fzero fone fltb model size start w)) /\
  text_within (globals w) start size
    (fst (generate fzero fone fltb model size start w)) /\
  appended_at_most (globals w) start size
    (fst (soft_tokens model size start temperature w)) /\
  text_within (globals w) start size
    (fst (soft model size start temperature w)).
Proof.
  intros soft_tokens soft.
  destruct (generate_tokens fzero fone fltb model size start w) as [r w'] eqn:Eg.
  destruct (soft_tokens model size start temperature w) as [rs ws] eqn:Es.
  apply generate_run in Eg. destruct Eg as (_ & Hr & ->).
  apply generate_soft_run in Es. destruct Es as (_ & Hrs & Hs).
  unfold soft. rewrite Hs. simpl.
  split; [exact Hr|]. split; [now apply text_within_of_tokens|].
  split; [exact Hrs|]. now apply text_within_of_tokens.
Qed.

(** ** The greedy choice *)

Section ArgmaxFacts.

Variable A : Type.
Variable ltb : A -> A -> bool.
Hypothesis order : strict_weak_order ltb.

Lemma ltb_below_best best x y :
  ltb best x = true -> ltb best y = false -> ltb y x = true.
Proof.
  intros Hbx Hby. destruct (ltb y x) eqn:E; [reflexivity|].
  rewrite (ltb_incomp order _ _ _ Hby E) in Hbx. discriminate.
Qed.

Lemma ltb_new_best best x y :
  ltb best x = true -> ltb best y = false -> ltb x y = false.
Proof.
  intros Hbx Hby. destruct (ltb x y) eqn:E; [|reflexivity].
  rewrite (ltb_trans order _ _ _ Hbx E) in Hby. discriminate.
Qed.

(** The scan keeps the lowest index of a largest entry seen so far. *)
Lemma argmax_from_lowest l : forall pre best ibest,
  nth_error pre ibest = Some best ->
  (forall y, In y pre -> ltb best y = false) ->
  (forall j y, (j < ibest)%nat -> nth_error pre j = Some y -> ltb y best = true) ->
  lowest_argmax ltb (pre ++ l) (argmax_from ltb best ibest (length pre) l).
Proof.
  induction l as [|x r IH]; intros pre best ibest Hbest Hmax Hlow; simpl.
  - rewrite app_nil_r. exists best. auto.
  - assert (Hib : (ibest < length pre)%nat)
      by (apply nth_error_Some; congruence).
    replace (pre ++ x :: r) with ((pre ++ [x]) ++ r) by now rewrite <- app_assoc.
    replace (S (length pre)) with (length (pre ++ [x]))
      by (rewrite length_app; simpl; lia).
    destruct (ltb best x) eqn:E; apply IH.
    + rewrite nth_error_app2, Nat.sub_diag by lia. reflexivity.
    + intros y Hy. apply in_app_or in Hy. destruct Hy as [Hy|[<-|[]]].
      * eapply ltb_new_best; eauto.
      * apply (ltb_irrefl order).
    + intros j y Hj Hy. rewrite nth_error_app1 in Hy by exact Hj.
      apply nth_error_In in Hy. eapply ltb_below_best; eauto.
    + rewrite nth_error_app1 by exact Hib. exact Hbest.
    + intros y Hy. apply in_app_or in Hy. destruct Hy as [Hy|[<-|[]]]; auto.
    + intros j y Hj Hy. rewrite nth_error_app1 in Hy by lia. eauto.
Qed.

(** [argmax] finds the lowest index of a largest entry. *)
Lemma argmax_lowest out i : argmax ltb out = Some i -> lowest_argmax ltb out i.
Proof.
  destruct out as [|x r]; simpl; [discriminate|]. intros [= <-].
  apply (argmax_from_lowest r [x] x 0%nat).
  - reflexivity.
  - intros y [<-|[]]. apply (ltb_irrefl order).
  - intros j y Hj. lia.
Qed.

Lemma argmax_defined out : out <> [] -> exists i, argmax ltb out = Some i.
Proof. destruct out; [congruence|]. intros _. simpl. eauto. Qed.

(** There is one such index. *)
Lemma lowest_argmax_unique out i j :
  lowest_argmax ltb out i -> lowest_argmax ltb out j -> i = j.
Proof.
  intros (x & Hx & Hxmax & Hxlow) (y & Hy & Hymax & Hylow).
  destruct (Nat.lt_trichotomy i j) as [Hlt|[Heq|Hlt]]; [|assumption|].
  - specialize (Hylow _ _ Hlt Hx). apply nth_error_In in Hy.
    rewrite (Hxmax _ Hy) in Hylow. discriminate.
  - specialize (Hxlow _ _ Hlt Hy). apply nth_error_In in Hx.
    rewrite (Hymax _ Hx) in Hxlow. discriminate.
Qed.

End ArgmaxFacts.

Lemma Qltb_order : strict_weak_order Qltb.
Proof.
  assert (Hlt : forall a b, Qltb a b = true <-> (a < b)%Q).
  { intros a b. unfold Qltb. rewrite negb_true_iff, <- not_true_iff_false, Qle_bool_iff.
    split; [apply Qnot_le_lt | apply Qlt_not_le]. }
  assert (Hge : forall a b, Qltb a b = false <-> (b <= a)%Q).
  { intros a b. unfold Qltb. rewrite negb_false_iff. apply Qle_bool_iff. }
  constructor.
  - intros a. apply Hge. apply Qle_refl.
  - intros a b c Hab Hbc. apply Hlt. apply Hlt in Hab, Hbc. eapply Qlt_trans; eauto.
  - intros a b c Hab Hbc. apply Hge. apply Hge in Hab, Hbc. eapply Qle_trans; eauto.
Qed.

(** ** Greedy decoding as a function of list contents *)

Section GreedyFacts.

Local Set Default Proof Using "Type".

Variable F : Type.
Variables fzero fone : F.
Variable fltb : F -> F -> bool.
Variables St Rng : Type.
Variable model : Model F St.

Implicit Types (w : World St Rng).

Local Abbreviation greedy := (greedy_select (Rng := Rng) fzero fone fltb model).
Local Abbreviation pick := (select_at fzero fone fltb model).
Local Abbreviation run := (greedy_run fzero fone fltb model).

Lemma greedy_select_at inp w :
  greedy inp w =
    (fst (pick (globals w) (mstate w) (heap_load (heap w) inp)),
     with_mstate w (snd (pick (globals w) (mstate w) (heap_load (heap w) inp)))).
Proof.
  unfold greedy_select, next_distribution, select_at, bind, read_globals,
    read_list, call_model.
  destruct (model _ _) as [[e|[|seq batch]] s']; simpl; try reflexivity.
  unfold subscript_last. destruct (last_opt seq) as [out|]; simpl; [|reflexivity].
  unfold tf_argmax. destruct (argmax fltb out); reflexivity.
Qed.

(** Once [inp] and [chars] name different objects the loop computes
    [greedy_run] on their contents. *)
Lemma decoding_loop_greedy n : forall inp chars w o cv s',
  inp <> chars -> (inp < length (heap w))%nat -> (chars < length (heap w))%nat ->
  run (globals w) n (mstate w) (heap_load (heap w) inp) (heap_load (heap w) chars)
    = (o, cv, s') ->
  exists w',
    decoding_loop greedy n inp chars w = (outcome o, w') /\
    heap_load (heap w') chars = cv /\
    globals w' = globals w /\ mstate w' = s' /\ rng w' = rng w.
Proof.
  induction n as [|n IH]; intros inp chars w o cv s' Hne Hi Hc Hrun.
  - injection Hrun as <- <- <-. exists w. simpl. auto.
  - rewrite decoding_loop_step, greedy_select_at. simpl in Hrun.
    destruct (pick (globals w) (mstate w) (heap_load (heap w) inp)) as [[e|nc] s1].
    + injection Hrun as <- <- <-. eexists. simpl. auto.
    + simpl. destruct (nc =? eos_token (globals w)).
      * injection Hrun as <- <- <-. eexists. simpl. auto.
      * set (w1 := with_mstate w s1) in *.
        assert (Hc1 : (chars < length (heap w1))%nat) by exact Hc.
        destruct (advance_world _ _ w1 inp chars nc Hc1)
          as (Ag & Am & Ar & Alen & Achars & _ & Ainp).
        rewrite heap_load_update_other in Ainp by congruence.
        destruct (IH (fst (advance w1 inp chars nc)) chars
                     (snd (advance w1 inp chars nc)) o cv s')
          as (w' & Hloop & Hload & Hg & Hm & Hr).
        { unfold advance. simpl. rewrite heap_update_length. lia. }
        { rewrite Alen. unfold advance. simpl. rewrite heap_update_length. lia. }
        { rewrite Alen. unfold w1. simpl. lia. }
        { rewrite Ag, Am, Ainp, Achars. exact Hrun. }
        exists w'. repeat split; try assumption; congruence.
Qed.

(** [generate_tokens] computes [greedy_tokens]. *)
Lemma generate_tokens_greedy size start w r s' :
  greedy_tokens fzero fone fltb model (globals w) size start (mstate w) = (r, s') ->
  exists w',
    generate_tokens fzero fone fltb model size start w = (r, w') /\
    globals w' = globals w /\ mstate w' = s' /\ rng w' = rng w.
Proof.
  rewrite generate_tokens_shared. unfold decoding_tokens, greedy_tokens.
  unfold bind at 1, read_globals at 1. unfold bind at 1, new_list at 1.
  set (seed := encode (globals w) start).
  set (w1 := with_heap w (heap w ++ [seed])).
  set (l := length (heap w)).
  assert (Hl : (l < length (heap w1))%nat)
    by (unfold w1, l; simpl; rewrite length_app; simpl; lia).
  assert (Hseed : heap_load (heap w1) l = seed)
    by (unfold w1, l; simpl; apply heap_load_app_new).
  assert (Hw1 : globals w1 = globals w /\ mstate w1 = mstate w /\ rng w1 = rng w)
    by (unfold w1; simpl; auto).
  destruct Hw1 as (Hg1 & Hm1 & Hr1).
  clearbody w1 l. rewrite <- Hg1, <- Hm1, <- Hr1.
  destruct (Z.to_nat size) as [|n].
  - intros [= <- <-]. exists w1. unfold bind, read_list. simpl. rewrite Hseed. auto.
  - unfold bind at 1. rewrite decoding_loop_step, greedy_select_at, Hseed.
    destruct (pick (globals w1) (mstate w1) seed) as [[e|nc] s1].
    + intros [= <- <-]. eexists. simpl. auto.
    + cbn [fst snd globals with_mstate]. destruct (nc =? eos_token (globals w1)).
      * intros [= <- <-]. eexists. unfold read_list. simpl. rewrite Hseed. auto.
      * set (w2 := with_mstate w1 s1) in *.
        assert (Hl2 : (l < length (heap w2))%nat) by exact Hl.
        assert (Hseed2 : heap_load (heap w2) l = seed) by exact Hseed.
        assert (Hw2 : globals w2 = globals w1 /\ mstate w2 = s1 /\ rng w2 = rng w1)
          by (unfold w2; simpl; auto).
        destruct Hw2 as (Hg2 & Hm2 & Hr2).
        destruct (advance_world _ _ w2 l l nc Hl2)
          as (Ag & Am & Ar & Alen & Achars & _ & Ainp).
        rewrite heap_load_update_same, Hseed2 in Ainp by exact Hl2.
        rewrite Hseed2 in Achars.
        destruct (greedy_run fzero fone fltb model (globals w1) n s1
                    ((seed ++ [nc]) ++ [nc]) (seed ++ [nc]))
          as [[o cv] s2] eqn:Erun.
        destruct (decoding_loop_greedy n (fst (advance w2 l l nc)) l
                    (snd (advance w2 l l nc)) o cv s2)
          as (w' & Hloop & Hload & Hg & Hm & Hr).
        { unfold advance. simpl. rewrite heap_update_length. lia. }
        { rewrite Alen. unfold advance. simpl. rewrite heap_update_length. lia. }
        { lia. }
        { rewrite Ag, Am, Ainp, Achars, Hg2, Hm2. exact Erun. }
        rewrite Hloop. intros Hres. exists w'.
        destruct o as [e|]; simpl; injection Hres as <- <-.
        -- repeat split; congruence.
        -- unfold read_list. rewrite Hload. repeat split; congruence.
Qed.

Lemma generate_greedy size start w r s' :
  greedy_tokens fzero fone fltb model (globals w) size start (mstate w) = (r, s') ->
  exists w',
    generate fzero fone fltb model size start w =
      (match r with
       | inr toks => inr (decode (globals w) toks)
       | inl e => inl e
       end, w') /\
    globals w' = globals w /\ mstate w' = s' /\ rng w' = rng w.
Proof.
  intros Hrun. destruct (generate_tokens_greedy size start w r s' Hrun)
    as (w' & Htok & Hg & Hm & Hr).
  exists w'. unfold generate, bind at 1. rewrite Htok.
  destruct r as [e|toks]; [auto|].
  unfold bind, read_globals, ret. rewrite Hg. auto.
Qed.

(** A model that is a function gives runs that do not depend on its
    state. *)
Section PureModel.

Variable f : list (list (list F)) -> exn + list (list (list F)).
Hypothesis pure : pure_model model f.

Lemma select_at_pure g s s0 v : pick g s v = (fst (pick g s0 v), s).
Proof using pure. unfold select_at. rewrite !pure. reflexivity. Qed.

Lemma greedy_run_pure g n : forall s1 s2 iv cv,
  fst (run g n s1 iv cv) = fst (run g n s2 iv cv).
Proof using pure.
  induction n as [|n IH]; intros s1 s2 iv cv; [reflexivity|].
  simpl. rewrite (select_at_pure g s1 s1 iv), (select_at_pure g s2 s1 iv).
  destruct (fst (pick g s1 iv)) as [e|nc]; [reflexivity|].
  destruct (nc =? eos_token g); [reflexivity | apply IH].
Qed.

Lemma greedy_tokens_pure g size start s1 s2 :
  fst (greedy_tokens fzero fone fltb model g size start s1) =
  fst (greedy_tokens fzero fone fltb model g size start s2).
Proof using pure.
  unfold greedy_tokens. destruct (Z.to_nat size) as [|n]; [reflexivity|].
  rewrite (select_at_pure g s1 s1), (select_at_pure g s2 s1).
  destruct (fst (pick g s1 (encode g start))) as [e|nc]; [reflexivity|].
  destruct (nc =? eos_token g); [reflexivity|].
  match goal with
  | |- fst (match run g n s1 ?iv ?cv with _ => _ end) = _ =>
      pose proof (greedy_run_pure g n s1 s2 iv cv) as Hrun;
      destruct (run g n s1 iv cv) as [[o1 cv1] t1];
      destruct (run g n s2 iv cv) as [[o2 cv2] t2]
  end.
  simpl in Hrun. injection Hrun as <- <-. now destruct o1.
Qed.

Lemma generate_pure size start w1 w2 :
  globals w1 = globals w2 ->
  fst (generate fzero fone fltb model size start w1) =
  fst (generate fzero fone fltb model size start w2).
Proof using pure.
  intros Hg.
  destruct (greedy_tokens fzero fone fltb model (globals w1) size start (mstate w1))
    as [r1 s1] eqn:E1.
  destruct (greedy_tokens fzero fone fltb model (globals w2) size start (mstate w2))
    as [r2 s2] eqn:E2.
  pose proof (greedy_tokens_pure (globals w1) size start (mstate w1) (mstate w2))
    as Hsame.
  rewrite E1, <- Hg in *. rewrite E2 in Hsame. simpl in Hsame. subst r2.
  destruct (generate_greedy size start w1 r1 s1 E1) as (w1' & -> & _).
  rewrite Hg in E2.
  destruct (generate_greedy size start w2 r1 s2 E2) as (w2' & -> & _).
  simpl. now rewrite Hg.
Qed.

End PureModel.

(** The run follows a schedule of choices that ends with the
    end-of-sequence token. *)
Lemma greedy_run_follows g seed rest : forall pre n s,
  pre <> [] -> (length rest < n)%nat ->
  eos_after fzero fone fltb model g seed s pre rest ->
  exists s', run g n s (model_input seed pre) (seed ++ pre)
             = (None, seed ++ pre ++ rest, s').
Proof.
  assert (Hsnoc : forall pre t, pre <> [] ->
            model_input seed pre ++ [t] = model_input seed (pre ++ [t])).
  { intros [|a pre] t Hne; [congruence|]. unfold model_input. simpl.
    now rewrite <- app_assoc. }
  induction rest as [|t rest IH]; intros pre [|n] s Hne Hlen Hsched;
    simpl in Hlen; try lia; simpl in Hsched |- *.
  - destruct (pick g s (model_input seed pre)) as [r s1]. simpl in Hsched.
    subst r. rewrite Z.eqb_refl, app_nil_r. eauto.
  - destruct (pick g s (model_input seed pre)) as [r s1].
    destruct Hsched as (Hr & Hneos & Hrest). simpl in Hr, Hrest. subst r.
    apply Z.eqb_neq in Hneos. rewrite Hneos.
    rewrite Hsnoc by assumption. rewrite <- (app_assoc seed pre [t]).
    destruct (IH (pre ++ [t]) n s1) as (s' & ->).
    + now destruct pre.
    + lia.
    + exact Hrest.
    + rewrite <- app_assoc. simpl. eauto.
Qed.

Lemma greedy_tokens_follows g start size s gen :
  Z.of_nat (length gen) < size ->
  eos_after fzero fone fltb model g (encode g start) s [] gen ->
  exists s', greedy_tokens fzero fone fltb model g size start s
             = (inr (encode g start ++ gen), s').
Proof.
  intros Hsize Hsched. unfold greedy_tokens.
  destruct (Z.to_nat size) as [|n] eqn:En; [lia|].
  destruct gen as [|t rest]; simpl in Hsched;
    unfold model_input in Hsched at 1; rewrite app_nil_r in Hsched.
  - destruct (pick g s (encode g start)) as [r s1]. simpl in Hsched. subst r.
    rewrite Z.eqb_refl, app_nil_r. eauto.
  - unfold model_input in Hsched at 1. rewrite app_nil_r in Hsched.
    destruct (pick g s (encode g start)) as [r s1].
    destruct Hsched as (Hr & Hneos & Hrest). simpl in Hr, Hrest. subst r.
    apply Z.eqb_neq in Hneos. rewrite Hneos.
    replace ((encode g start ++ [t]) ++ [t])
      with (model_input (encode g start) [t])
      by (unfold model_input; now rewrite <- app_assoc).
    destruct (greedy_run_follows g (encode g start) rest [t] n s1)
      as (s' & ->).
    + discriminate.
    + simpl in Hsize. lia.
    + exact Hrest.
    + eauto.
Qed.

Lemma eos_after_no_eos g seed rest : forall s pre,
  eos_after fzero fone fltb model g seed s pre rest -> ~ In (eos_token g) rest.
Proof.
  induction rest as [|t rest IH]; intros s pre Hsched; simpl in Hsched |- *.
  - tauto.
  - destruct Hsched as (_ & Hneos & Hrest). intros [Heq|Hin]; [congruence|].
    eapply IH; eassumption.
Qed.

End GreedyFacts.

(** ** Greedy runs and the lowest-index schedule *)

Section BudgetFacts.

Local Set Default Proof Using "Type".

Variable F : Type.
Variables fzero fone : F.
Variable fltb : F -> F -> bool.
Variable St : Type.
Variable model : Model F St.

Local Abbreviation choice := (select_at fzero fone fltb model).

(** The run follows a schedule of choices as long as the schedule. *)
Lemma greedy_run_along g seed rest : forall pre s,
  pre <> [] ->
  chosen_along fzero fone fltb model g seed s pre rest ->
  exists s', greedy_run fzero fone fltb model g (length rest) s
               (model_input seed pre) (seed ++ pre)
             = (None, seed ++ pre ++ rest, s').
Proof.
  assert (Hsnoc : forall pre t, pre <> [] ->
            model_input seed pre ++ [t] = model_input seed (pre ++ [t])).
  { intros [|a pre] t Hne; [congruence|]. unfold model_input. simpl.
    now rewrite <- app_assoc. }
  induction rest as [|t rest IH]; intros pre s Hne Hsched;
    simpl in Hsched |- *.
  - rewrite app_nil_r. eauto.
  - destruct (choice g s (model_input seed pre)) as [r s1].
    destruct Hsched as (Hr & Hneos & Hrest). simpl in Hr, Hrest. subst r.
    apply Z.eqb_neq in Hneos. rewrite Hneos.
    rewrite Hsnoc by assumption. rewrite <- (app_assoc seed pre [t]).
    destruct (IH (pre ++ [t]) s1) as (s' & ->).
    + now destruct pre.
    + exact Hrest.
    + rewrite <- app_assoc. simpl. eauto.
Qed.

Lemma greedy_tokens_along g start size s gen :
  length gen = Z.to_nat size ->
  chosen_along fzero fone fltb model g (encode g start) s [] gen ->
  exists s', greedy_tokens fzero fone fltb model g size start s
             = (inr (encode g start ++ gen), s').
Proof.
  intros Hsize Hsched. unfold greedy_tokens.
  rewrite <- Hsize.
  destruct gen as [|t rest]; simpl in Hsched |- *.
  - rewrite app_nil_r. eauto.
  - unfold model_input in Hsched at 1 2. rewrite app_nil_r in Hsched.
    destruct (choice g s (encode g start)) as [r s1].
    destruct Hsched as (Hr & Hneos & Hrest). simpl in Hr, Hrest. subst r.
    apply Z.eqb_neq in Hneos. rewrite Hneos.
    replace ((encode g start ++ [t]) ++ [t])
      with (model_input (encode g start) [t])
      by (unfold model_input; now rewrite <- app_assoc).
    destruct (greedy_run_along g (encode g start) rest [t] s1) as (s' & ->).
    + discriminate.
    + exact Hrest.
    + eauto.
Qed.

End BudgetFacts.

Section ScheduleFacts.

Local Set Default Proof Using "Type".

Variable F : Type.
Variables fzero fone : F.
Variable fltb : F -> F -> bool.
Variable St : Type.
Variable model : Model F St.

Local Abbreviation chosen := (select_at fzero fone fltb model).

(** A run that ended normally followed a schedule of choices, for as long
    as it was allowed to or up to an end-of-sequence choice. *)
Lemma greedy_run_inv g seed n : forall s pre cv s',
  pre <> [] ->
  greedy_run fzero fone fltb model g n s (model_input seed pre) (seed ++ pre)
    = (None, cv, s') ->
  exists rest,
    cv = seed ++ pre ++ rest /\ (length rest <= n)%nat /\
    chosen_along fzero fone fltb model g seed s pre rest /\
    ((length rest < n)%nat ->
     exists s0, fst (chosen g s0 (model_input seed (pre ++ rest)))
                = inr (eos_token g)).
Proof.
  assert (Hsnoc : forall pre t, pre <> [] ->
            model_input seed pre ++ [t] = model_input seed (pre ++ [t])).
  { intros [|a pre] t Hne; [congruence|]. unfold model_input. simpl.
    now rewrite <- app_assoc. }
  induction n as [|n IH]; intros s pre cv s' Hne Hrun; simpl in Hrun.
  - injection Hrun as <- <-. exists []. rewrite app_nil_r.
    split; [reflexivity|]. split; [simpl; lia|]. split; [exact I|].
    simpl. lia.
  - destruct (chosen g s (model_input seed pre)) as [[e|nc] s1] eqn:Esel;
      [discriminate|].
    destruct (nc =? eos_token g) eqn:Eeos.
    + injection Hrun as <- <-. exists []. rewrite !app_nil_r.
      split; [reflexivity|]. split; [simpl; lia|]. split; [exact I|].
      intros _. exists s. rewrite Esel. apply Z.eqb_eq in Eeos. now subst nc.
    + rewrite Hsnoc in Hrun by assumption.
      rewrite <- (app_assoc seed pre [nc]) in Hrun.
      apply IH in Hrun; [|now destruct pre].
      destruct Hrun as (rest & -> & Hlen & Hsched & Hstop).
      exists (nc :: rest). rewrite <- !app_assoc. simpl.
      split; [reflexivity|]. split; [lia|]. split.
      * rewrite Esel. simpl. split; [reflexivity|].
        split; [now apply Z.eqb_neq | exact Hsched].
      * intros Hlt. destruct Hstop as (s0 & Hs0); [lia|].
        exists s0. now rewrite <- app_assoc in Hs0.
Qed.

Lemma greedy_tokens_inv g start size s toks s' :
  greedy_tokens fzero fone fltb model g size start s = (inr toks, s') ->
  exists gen,
    toks = encode g start ++ gen /\ (length gen <= Z.to_nat size)%nat /\
    chosen_along fzero fone fltb model g (encode g start) s [] gen /\
    ((length gen < Z.to_nat size)%nat ->
     exists s0, fst (chosen g s0 (model_input (encode g start) gen))
                = inr (eos_token g)).
Proof.
  unfold greedy_tokens. destruct (Z.to_nat size) as [|n].
  - intros [= <- <-]. exists []. rewrite app_nil_r.
    split; [reflexivity|]. split; [simpl; lia|]. split; [exact I|].
    simpl. lia.
  - destruct (chosen g s (encode g start)) as [[e|nc] s1] eqn:Esel;
      [discriminate|].
    destruct (nc =? eos_token g) eqn:Eeos.
    + intros [= <- <-]. exists []. rewrite app_nil_r.
      split; [reflexivity|]. split; [simpl; lia|]. split; [exact I|].
      intros _. exists s. unfold model_input. rewrite app_nil_r, Esel.
      apply Z.eqb_eq in Eeos. now subst nc.
    + replace ((encode g start ++ [nc]) ++ [nc])
        with (model_input (encode g start) [nc])
        by (unfold model_input; now rewrite <- app_assoc).
      destruct (greedy_run fzero fone fltb model g n s1
                  (model_input (encode g start) [nc]) (encode g start ++ [nc]))
        as [[[e|] cv] s2] eqn:Erun; [discriminate|].
      intros [= <- <-]. apply greedy_run_inv in Erun; [|discriminate].
      destruct Erun as (rest & -> & Hlen & Hsched & Hstop).
      exists (nc :: rest). split; [reflexivity|]. split; [simpl; lia|]. split.
      * simpl. unfold model_input at 1 2. rewrite app_nil_r, Esel. simpl.
        split; [reflexivity|]. split; [now apply Z.eqb_neq | exact Hsched].
      * intros Hlt. apply Hstop. simpl in Hlt. lia.
Qed.

(** A schedule, choice by choice. *)
Lemma chosen_along_nth g seed rest : forall s pre,
  chosen_along fzero fone fltb model g seed s pre rest ->
  forall k t, nth_error rest k = Some t ->
    t <> eos_token g /\
    exists s0, fst (chosen g s0 (model_input seed (pre ++ firstn k rest))) = inr t.
Proof.
  induction rest as [|t0 rest IH]; intros s pre Hsched k t Hk.
  - destruct k; discriminate.
  - simpl in Hsched. destruct Hsched as (Hsel & Hne & Hrest).
    destruct k as [|k]; simpl in Hk.
    + injection Hk as <-. split; [exact Hne|]. exists s.
      simpl. now rewrite app_nil_r.
    + destruct (IH _ _ Hrest k t Hk) as (Hnet & s0 & Hs0).
      split; [exact Hnet|]. exists s0.
      simpl. now rewrite <- app_assoc in Hs0.
Qed.

Section Pure.

Variable f : list (list (list F)) -> exn + list (list (list F)).
Hypothesis pure : pure_model model f.
Hypothesis order : strict_weak_order fltb.

(** For a predictor that is a function, the choice [generate] makes is the
    lowest index of a largest entry, and only that. *)
Lemma select_at_lowest g s v nc :
  fst (chosen g s v) = inr nc <-> lowest_choice fzero fone fltb f g v nc.
Proof using pure order.
  unfold select_at, lowest_choice. rewrite pure. cbn [fst]. split.
  - destruct (f _) as [e|[|seq batch]]; try discriminate.
    destruct (last_opt seq) as [out|] eqn:Elast; try discriminate.
    destruct (argmax fltb out) as [i|] eqn:Ei; try discriminate.
    intros [= <-]. split; [lia|]. exists seq, batch, out. rewrite Nat2Z.id.
    split; [reflexivity|]. split; [exact Elast|].
    now apply argmax_lowest.
  - intros (Hnc & seq & batch & out & -> & -> & Hlow).
    assert (Hout : out <> []).
    { destruct Hlow as (x & Hx & _). intros ->.
      now destruct (Z.to_nat nc). }
    destruct (argmax_defined F fltb out Hout) as (i & Hi). rewrite Hi.
    pose proof (argmax_lowest _ fltb order out i Hi) as Hlow'.
    rewrite (lowest_argmax_unique _ fltb out i (Z.to_nat nc) Hlow' Hlow).
    now rewrite Z2Nat.id.
Qed.

Lemma chosen_along_of_nth g seed rest : forall s pre,
  (forall k t, nth_error rest k = Some t ->
     t <> eos_token g /\
     lowest_choice fzero fone fltb f g
                   (model_input seed (pre ++ firstn k rest)) t) ->
  chosen_along fzero fone fltb model g seed s pre rest.
Proof using pure order.
  induction rest as [|t0 rest IH]; intros s pre Hall; simpl; [exact I|].
  destruct (Hall 0%nat t0 eq_refl) as (Hne & Hlow).
  simpl in Hlow. rewrite app_nil_r in Hlow.
  split; [now apply select_at_lowest|]. split; [exact Hne|].
  apply IH. intros k t Hk. specialize (Hall (S k) t Hk).
  simpl in Hall. now rewrite <- app_assoc.
Qed.

Lemma eos_after_of_chosen g seed rest : forall s pre,
  chosen_along fzero fone fltb model g seed s pre rest ->
  lowest_choice fzero fone fltb f g (model_input seed (pre ++ rest))
                (eos_token g) ->
  eos_after fzero fone fltb model g seed s pre rest.
Proof using pure order.
  induction rest as [|t0 rest IH]; intros s pre Hsched Hstop; simpl.
  - rewrite app_nil_r in Hstop. now apply select_at_lowest.
  - simpl in Hsched. destruct Hsched as (Hsel & Hne & Hrest).
    split; [exact Hsel|]. split; [exact Hne|].
    apply IH; [exact Hrest|]. now rewrite <- app_assoc.
Qed.

(** The tokens of a run that returns are a lowest-index schedule. *)
Lemma greedy_tokens_scheduled g start size s toks s' :
  greedy_tokens fzero fone fltb model g size start s = (inr toks, s') ->
  exists gen,
    toks = encode g start ++ gen /\
    greedy_schedule fzero fone fltb f g (encode g start) size gen.
Proof using pure order.
  intros Hrun. apply greedy_tokens_inv in Hrun.
  destruct Hrun as (gen & -> & Hlen & Hsched & Hstop).
  exists gen. split; [reflexivity|]. split; [exact Hlen|]. split.
  - intros k t Hk.
    destruct (chosen_along_nth _ _ _ _ _ Hsched k t Hk) as (Hne & s0 & Hs0).
    split; [exact Hne|]. apply select_at_lowest in Hs0. exact Hs0.
  - intros Hlt. destruct (Hstop Hlt) as (s0 & Hs0).
    now apply select_at_lowest in Hs0.
Qed.

(** A lowest-index schedule is what the run returns. *)
Lemma greedy_tokens_of_schedule g start size s gen :
  greedy_schedule fzero fone fltb f g (encode g start) size gen ->
  exists s', greedy_tokens fzero fone fltb model g size start s
             = (inr (encode g start ++ gen), s').
Proof using pure order.
  intros (Hlen & Hall & Hstop).
  assert (Hsched : chosen_along fzero fone fltb model g (encode g start) s [] gen)
    by (apply chosen_along_of_nth; exact Hall).
  destruct (Nat.eq_dec (length gen) (Z.to_nat size)) as [Heq|Hneq].
  - apply greedy_tokens_along; [exact Heq | exact Hsched].
  - apply greedy_tokens_follows; [lia|].
    apply eos_after_of_chosen; [exact Hsched|]. apply Hstop. lia.
Qed.

End Pure.

End ScheduleFacts.

(** ** Determinism of greedy decoding *)

(** C4. Greedy decoding is deterministic, with ties broken by the lowest
    index. For a predictor that is a function of the sequence it is given,
    [generate] returns the same result from any two worlds with the same
    vocabulary, in particular when it is called a second time after a first
    call. And the texts [generate] returns are exactly the decodings of the
    seed extended by the tokens of the lowest-index schedule: at every step
    the token appended is the lowest index of a largest entry of the
    distribution, and the run ends before [max_length] tokens exactly when
    that index is the end-of-sequence token. *)
Theorem greedy_deterministic (F St Rng : Type) (fzero fone : F)
    (fltb : F -> F -> bool) (model : Model F St)
    (f : list (list (list F)) -> exn + list (list (list F)))
    (size : Z) (start : string) :
  pure_model model f ->
  (forall w1 w2 : World St Rng,
     globals w1 = globals w2 ->
     fst (generate fzero fone fltb model size start w1) =
     fst (generate fzero fone fltb model size start w2)) /\
  (forall w : World St Rng,
     fst (generate fzero fone fltb model size start
            (snd (generate fzero fone fltb model size start w))) =
     fst (generate fzero fone fltb model size start w)) /\
  (strict_weak_order fltb ->
   forall (w : World St Rng) (txt : string),
     fst (generate fzero fone fltb model size start w) = inr txt <->
     exists gen,
       greedy_schedule fzero fone fltb f (globals w)
                       (encode (globals w) start) size gen /\
       txt = decode (globals w) (encode (globals w) start ++ gen)).
Proof.
  intros Hpure.
  pose proof (generate_pure F fzero fone fltb St Rng model f Hpure size start)
    as Hsame.
  split; [exact Hsame|]. split.
  - intros w. apply Hsame.
    destruct (generate_tokens fzero fone fltb model size start w) as [r w'] eqn:E.
    apply generate_run in E. destruct E as (Hg & _ & ->). exact Hg.
  - intros Horder w txt.
    destruct (greedy_tokens fzero fone fltb model (globals w) size start (mstate w))
      as [r s'] eqn:Etok.
    destruct (generate_greedy F fzero fone fltb St Rng model size start w
                r s' Etok) as (w' & -> & _).
    cbn [fst]. split.
    + destruct r as [e|toks]; [discriminate|]. intros [= <-].
      destruct (greedy_tokens_scheduled F fzero fone fltb St model f Hpure
                  Horder (globals w) start size (mstate w) toks s' Etok)
        as (gen & -> & Hsched).
      now exists gen.
    + intros (gen & Hsched & ->).
      destruct (greedy_tokens_of_schedule F fzero fone fltb St model f Hpure
                  Horder (globals w) start size (mstate w) gen Hsched)
        as (s'' & Etok').
      rewrite Etok' in Etok. now injection Etok as <- _.
Qed.

Lemma greedy_deterministic_witness :
  pure_model (St := nat) (length_model 0%Q 1%Q) (length_function 0%Q 1%Q) /\
  strict_weak_order Qltb /\
  fst (generate_Q (length_model 0%Q 1%Q) 5 "a" world_abc) = inr "ab" /\
  exists gen,
    greedy_schedule 0%Q 1%Q Qltb (length_function 0%Q 1%Q) (globals world_abc)
                    (encode (globals world_abc) "a") 5 gen /\
    "ab" = decode (globals world_abc) (encode (globals world_abc) "a" ++ gen).
Proof.
  assert (Hpure : pure_model (St := nat) (length_model 0%Q 1%Q)
                             (length_function 0%Q 1%Q))
    by (intros s x; reflexivity).
  split; [exact Hpure|]. split; [exact Qltb_order|]. split; [reflexivity|].
  exact (proj1 (proj2 (proj2 (greedy_deterministic Q nat nat 0%Q 1%Q Qltb
                                (length_model 0%Q 1%Q) (length_function 0%Q 1%Q)
                                5 "a" Hpure))
                  Qltb_order world_abc "ab") eq_refl).
Defined.

(** ** Termination on the end-of-sequence token *)

(** With the stub that always makes the end-of-sequence index most
    probable, [generate] returns the seed. *)
Example generate_eos_stub :
  fst (generate_Q (eos_model 0%Q 1%Q) 10 "a" world_abc) = inr "a".
Proof. vm_compute. reflexivity. Qed.

(** C5. Let [gen] be the tokens the predictor makes most probable at steps
    1 to k-1, none of them the end-of-sequence token, and let it make the
    end-of-sequence token most probable at step k, within [max_length]. Then
    greedy decoding stops having appended exactly the k-1 tokens of [gen];
    the end-of-sequence token is not among the tokens it decodes, and none of
    them contributes the text ['<eos>'] to the output. *)
Theorem greedy_stops_at_eos (F St Rng : Type) (fzero fone : F)
    (fltb : F -> F -> bool) (titles : list string) (model : Model F St)
    (size : Z) (start : string) (gen : list Z) (w : World St Rng) :
  let g := notebook_globals titles in
  globals w = g ->
  Z.of_nat (length gen) < size ->
  eos_after fzero fone fltb model g (encode g start) (mstate w) [] gen ->
  fst (generate_tokens fzero fone fltb model size start w)
    = inr (encode g start ++ gen) /\
  fst (generate fzero fone fltb model size start w)
    = inr (decode g (encode g start ++ gen)) /\
  ~ In (eos_token g) (encode g start ++ gen) /\
  (forall t, In t (encode g start ++ gen) -> decode g [t] <> "<eos>").
Proof.
  intros g Hg Hsize Hsched.
  assert (Hnin : ~ In (eos_token g) (encode g start ++ gen)).
  { intros Hin. apply in_app_or in Hin. destruct Hin as [Hin|Hin].
    - pose proof (encode_range titles start (eos_token g) Hin) as Hr.
      change (notebook_globals titles) with g in Hr. lia.
    - eapply eos_after_no_eos; eassumption. }
  destruct (greedy_tokens_follows F fzero fone fltb St model g start size
              (mstate w) gen Hsize Hsched) as (s' & Htok).
  rewrite <- Hg in Htok.
  destruct (generate_tokens_greedy F fzero fone fltb St Rng model size start w
              _ _ Htok) as (w1 & -> & _).
  destruct (generate_greedy F fzero fone fltb St Rng model size start w
              _ _ Htok) as (w2 & -> & _).
  rewrite Hg. split; [reflexivity|]. split; [reflexivity|].
  split; [exact Hnin|].
  intros t Hin Hdec. apply decode_marker_only_eos in Hdec. subst t.
  exact (Hnin Hin).
Qed.

Lemma greedy_stops_at_eos_witness :
  globals world_abc = notebook_globals ["aaabbc"] /\
  Z.of_nat (length [1; 2; 3]) < 5 /\
  eos_after 0%Q 1%Q Qltb (cycle_model 0%Q 1%Q) (notebook_globals ["aaabbc"])
            (encode (notebook_globals ["aaabbc"]) "c") (mstate world_abc)
            [] [1; 2; 3] /\
  fst (generate_Q (cycle_model 0%Q 1%Q) 5 "c" world_abc) = inr "cabc".
Proof.
  assert (Hsched : eos_after 0%Q 1%Q Qltb (cycle_model 0%Q 1%Q)
                     (notebook_globals ["aaabbc"])
                     (encode (notebook_globals ["aaabbc"]) "c")
                     (mstate world_abc) [] [1; 2; 3]).
  { vm_compute. repeat split; discriminate. }
  split; [reflexivity|]. split; [reflexivity|]. split; [exact Hsched|].
  exact (proj1 (proj2 (greedy_stops_at_eos Q nat nat 0%Q 1%Q Qltb ["aaabbc"]
                         (cycle_model 0%Q 1%Q) 5 "c" [1; 2; 3] world_abc
                         eq_refl eq_refl Hsched))).
Defined.

(** ** The cycling stub *)

(** C9, as the code has it. With the vocabulary
    [{'a':1, 'b':2, 'c':3, '<eos>':4}] and the stub predictor that returns
    the indices 1, 2, 3, 4 in turn, one per call,
    [generate(predictor, start="a", size=5)] returns ["aabc"]: the seed
    followed by [decode([1,2,3])], cut at the fourth call, which returns the
    end-of-sequence index. *)
Theorem generate_cycle_stub :
  PyDict.items (word_index (tokenizer g_abc))
    = [("a", 1); ("b", 2); ("c", 3); ("<eos>", 4)] /\
  fst (generate_Q (cycle_model 0%Q 1%Q) 5 "a" world_abc) = inr "aabc" /\
  "aabc" = ("a" ++ decode g_abc [1; 2; 3])%string /\
  mstate (snd (generate_Q (cycle_model 0%Q 1%Q) 5 "a" world_abc)) = 4%nat.
Proof. vm_compute. repeat split. Qed.

(** A stub keyed to the last token instead of the call count does give
    ["abc"]. *)
Remark generate_successor_stub :
  fst (generate_Q successor_model 5 "a" world_abc) = inr "abc".
Proof. vm_compute. reflexivity. Qed.

(** On that input [generate] does not return ["abc"]. *)
Lemma generate_cycle_stub_not_abc :
  fst (generate_Q (cycle_model 0%Q 1%Q) 5 "a" world_abc) <> inr "abc".
Proof. vm_compute. discriminate. Qed.

(** ** Inputs the decoders do not check *)

Section UncheckedInputs.

Local Set Default Proof Using "Type".

Variable F : Type.
Variables fzero fone : F.
Variable fltb : F -> F -> bool.
Variables St Rng : Type.
Variables tf_log tf_exp : F -> F.
Variable tf_div : F -> F -> F.
Variable astype_float64 : F -> F.
Variable np_sum : list F -> F.
Variable np_div : F -> F -> F.
Variable multinomial : Rng -> Z -> list F -> Z -> (exn + list (list Z)) * Rng.

Implicit Types (w : World St Rng) (model : Model F St).

Local Abbreviation soft_sel model t :=
  (soft_select fzero fone tf_log tf_exp tf_div astype_float64 np_sum np_div
               multinomial model t).
Local Abbreviation soft_tokens :=
  (generate_soft_tokens fzero fone tf_log tf_exp tf_div astype_float64 np_sum
                        np_div multinomial).
Local Abbreviation soft :=
  (generate_soft fzero fone tf_log tf_exp tf_div astype_float64 np_sum
                 np_div multinomial).

(** With no iteration to run, both decoders return the decoded seed. *)
Lemma generate_soft_no_iteration model size start t w :
  size <= 0 ->
  soft model size start t w =
    (inr (decode (globals w) (encode (globals w) start)),
     with_heap w (heap w ++ [encode (globals w) start])).
Proof.
  intros Hsize. unfold generate_soft, generate_soft_tokens, bind, read_globals,
    new_list, read_list, ret.
  replace (Z.to_nat size) with 0%nat by lia. simpl.
  now rewrite heap_load_app_new.
Qed.

Lemma generate_no_iteration model size start w :
  size <= 0 ->
  generate fzero fone fltb model size start w =
    (inr (decode (globals w) (encode (globals w) start)),
     with_heap w (heap w ++ [encode (globals w) start])).
Proof.
  intros Hsize. unfold generate, generate_tokens, bind, read_globals,
    new_list, read_list, ret.
  replace (Z.to_nat size) with 0%nat by lia. simpl.
  now rewrite heap_load_app_new.
Qed.

(** With an iteration to run, [generate] starts by calling the model on
    the one-hot encoding of the seed; if the call raises, so does
    [generate]. *)
Lemma generate_first_query_raises model size start w e s' :
  0 < size ->
  model (mstate w)
        (expand_dims0 (one_hot fzero fone (encode (globals w) start)
                               (vocab_size (globals w)))) = (inl e, s') ->
  generate fzero fone fltb model size start w =
    (inl e, with_mstate (with_heap w (heap w ++ [encode (globals w) start])) s').
Proof.
  intros Hsize Hmodel. unfold generate, generate_tokens.
  destruct (Z.to_nat size) as [|n] eqn:En; [lia|].
  unfold bind, read_globals, new_list. simpl.
  unfold next_distribution, bind, read_globals, read_list, call_model. simpl.
  rewrite heap_load_app_new, Hmodel. reflexivity.
Qed.

(** If the model answers with no position at all (what a sequence model
    gives for no input position), [generate] raises on [[-1]]. *)
Lemma generate_first_query_empty model size start w batch s' :
  0 < size ->
  model (mstate w)
        (expand_dims0 (one_hot fzero fone (encode (globals w) start)
                               (vocab_size (globals w)))) = (inr ([] :: batch), s') ->
  generate fzero fone fltb model size start w =
    (inl InvalidArgumentError,
     with_mstate (with_heap w (heap w ++ [encode (globals w) start])) s').
Proof.
  intros Hsize Hmodel. unfold generate, generate_tokens.
  destruct (Z.to_nat size) as [|n] eqn:En; [lia|].
  unfold bind, read_globals, new_list. simpl.
  unfold next_distribution, bind, read_globals, read_list, call_model. simpl.
  rewrite heap_load_app_new, Hmodel. reflexivity.
Qed.

End UncheckedInputs.

(** With temperature zero and [size=0], [generate_soft] returns the seed
    text; it does not fail. *)
Lemma generate_soft_zero_temperature_returns :
  fst (generate_soft_sym (cycle_model (Lit 0) (Lit 1)) 0 "a" (Lit 0) world_abc)
    = inr "a" /\
  forall e,
    fst (generate_soft_sym (cycle_model (Lit 0) (Lit 1)) 0 "a" (Lit 0) world_abc)
      <> inl e.
Proof. split; [reflexivity | discriminate]. Qed.

(** C7, as the code has it. [generate] does not check the seed and has no
    error of its own for it. For a seed that encodes to zero tokens, with
    [max_length <= 0] it returns the empty text; with [max_length > 0] it
    first calls the predictor on the empty sequence, and it raises what that
    call raises, or [InvalidArgumentError] when the answer has no position to
    take the distribution from. *)
Theorem generate_empty_seed (F St Rng : Type) (fzero fone : F)
    (fltb : F -> F -> bool) (model : Model F St) (size : Z) (start : string)
    (w : World St Rng) :
  encode (globals w) start = [] ->
  (size <= 0 ->
   generate fzero fone fltb model size start w =
     (inr "", with_heap w (heap w ++ [[]]))) /\
  (0 < size -> forall e s',
   model (mstate w) [[]] = (inl e, s') ->
   generate fzero fone fltb model size start w =
     (inl e, with_mstate (with_heap w (heap w ++ [[]])) s')) /\
  (0 < size -> forall batch s',
   model (mstate w) [[]] = (inr ([] :: batch), s') ->
   generate fzero fone fltb model size start w =
     (inl InvalidArgumentError, with_mstate (with_heap w (heap w ++ [[]])) s')).
Proof.
  intros Hseed. repeat split.
  - intros Hsize. rewrite generate_no_iteration by assumption.
    now rewrite Hseed.
  - intros Hsize e s' Hmodel.
    rewrite (generate_first_query_raises F fzero fone fltb St Rng model size
               start w e s' Hsize); rewrite Hseed; [reflexivity | exact Hmodel].
  - intros Hsize batch s' Hmodel.
    rewrite (generate_first_query_empty F fzero fone fltb St Rng model size
               start w batch s' Hsize); rewrite Hseed; [reflexivity | exact Hmodel].
Qed.

Lemma generate_empty_seed_witness :
  encode (globals world_abc) "z?" = [] /\
  generate_Q (checked_model 0%Q 1%Q) 3 "z?" world_abc =
    (inl (ModelError "empty sequence"),
     with_mstate (with_heap world_abc (heap world_abc ++ [[]])) 1%nat).
Proof.
  assert (Hseed : encode (globals world_abc) "z?" = []) by reflexivity.
  split; [exact Hseed|].
  exact (proj1 (proj2 (generate_empty_seed Q nat nat 0%Q 1%Q Qltb
                         (checked_model 0%Q 1%Q) 3 "z?" world_abc Hseed))
               eq_refl (ModelError "empty sequence") 1%nat eq_refl).
Defined.

(** With the empty seed and [size=0], [generate] returns the empty text; with
    [size=3] the predictor has been called once when [generate] raises. *)
Lemma generate_empty_seed_accepted :
  fst (generate_Q (cycle_model 0%Q 1%Q) 0 "" world_abc) = inr "" /\
  mstate (snd (generate_Q (checked_model 0%Q 1%Q) 3 "" world_abc)) = 1%nat.
Proof. split; reflexivity. Qed.

(** ** The vocabulary invariant *)

(** C10. [eos_token] is one more than the largest character index of
    [word_index], so no character has it; [vocab_size] is [eos_token + 1], so
    every index of [word_index], that of ['<eos>'] included, is below
    [vocab_size]; and [generate] and [generate_soft] leave the globals as they
    found them ([encode] and [decode] only read them). *)
Theorem vocabulary_invariant (titles : list string) :
  let g := notebook_globals titles in
  eos_token g = max_char_index g + 1 /\
  (forall c i, c <> "<eos>" ->
               PyDict.get (word_index (tokenizer g)) c = Some i ->
               1 <= i < eos_token g) /\
  PyDict.get (word_index (tokenizer g)) "<eos>" = Some (eos_token g) /\
  vocab_size g = eos_token g + 1 /\
  (forall c i, PyDict.get (word_index (tokenizer g)) c = Some i ->
               0 < i < vocab_size g) /\
  (forall (F St Rng : Type) (fzero fone : F) (fltb : F -> F -> bool)
          (model : Model F St) (size : Z) (start : string) (w : World St Rng),
     globals (snd (generate fzero fone fltb model size start w)) = globals w) /\
  (forall (F St Rng : Type) (fzero fone : F) (tf_log tf_exp : F -> F)
          (tf_div : F -> F -> F) (astype_float64 : F -> F)
          (np_sum : list F -> F) (np_div : F -> F -> F)
          (multinomial : Rng -> Z -> list F -> Z -> (exn + list (list Z)) * Rng)
          (model : Model F St) (size : Z) (start : string) (temperature : F)
          (w : World St Rng),
     globals (snd (generate_soft fzero fone tf_log tf_exp tf_div astype_float64
                     np_sum np_div multinomial model size start temperature w))
     = globals w).
Proof.
  intros g. subst g.
  assert (Hchar : forall c i, c <> "<eos>" ->
            PyDict.get (word_index (tokenizer (notebook_globals titles))) c = Some i ->
            1 <= i < eos_token (notebook_globals titles)).
  { intros c i Hne Hget. apply word_index_range in Hget.
    destruct Hget as [[-> _]|(_ & _ & Hr)]; [congruence | exact Hr]. }
  split; [|split; [exact Hchar|split; [|split; [|split; [|split]]]]].
  - rewrite max_char_index_is. apply globals_eos.
  - apply word_index_eos.
  - reflexivity.
  - intros c i Hget. rewrite globals_vocab_size.
    pose proof Hget as Hget'. apply word_index_range in Hget'.
    destruct Hget' as [[_ ->]|(_ & _ & Hr)]; [|lia].
    rewrite globals_eos. lia.
  - intros F St Rng fzero fone fltb model size start w.
    destruct (generate_tokens fzero fone fltb model size start w) as [r w'] eqn:E.
    apply generate_run in E. destruct E as (Hg & _ & ->). exact Hg.
  - intros F St Rng fzero fone tf_log tf_exp tf_div astype_float64 np_sum np_div
      multinomial model size start temperature w.
    destruct (generate_soft_tokens fzero fone tf_log tf_exp tf_div astype_float64
                np_sum np_div multinomial model size start temperature w)
      as [r w'] eqn:E.
    apply generate_soft_run in E. destruct E as (Hg & _ & ->). exact Hg.
Qed.

(** * Further properties *)

(** ** What [fit_on_texts] counts *)

Section CountFacts.
Import PyDict PyDictFacts.

Lemma get_set {K V} `{PyKey K} (d : dict K V) k v k' :
  get (set d k v) k' = if key_eqb k k' then Some v else get d k'.
Proof.
  induction d as [|[k0 v0] r IH]; simpl.
  - destruct (key_eqb k k'); reflexivity.
  - destruct (key_eqb k0 k) eqn:E0; simpl.
    + apply key_eqb_eq in E0. subst k0. destruct (key_eqb k k'); reflexivity.
    + rewrite IH. destruct (key_eqb k0 k') eqn:E1; [|reflexivity].
      apply key_eqb_eq in E1. subst k0. now rewrite key_eqb_neq
        by (intros ->; rewrite key_eqb_refl in E0; discriminate).
Qed.

Lemma count_of_step wc w c :
  count_of (match get wc w with
            | Some k => set wc w (k + 1)
            | None => set wc w 1
            end) c =
  count_of wc c + (if string_dec w c then 1 else 0).
Proof.
  unfold count_of.
  destruct (get wc w) as [k|] eqn:Ew; rewrite get_set; simpl;
    destruct (string_dec w c) as [->|Hne].
  - rewrite String.eqb_refl, Ew. reflexivity.
  - apply String.eqb_neq in Hne. rewrite Hne. lia.
  - rewrite String.eqb_refl, Ew. reflexivity.
  - apply String.eqb_neq in Hne. rewrite Hne. lia.
Qed.

Lemma count_seq_count seq : forall wc c,
  count_of (count_seq seq wc) c =
  count_of wc c + Z.of_nat (count_occ string_dec seq c).
Proof.
  induction seq as [|w r IH]; intros wc c; simpl; [lia|].
  rewrite IH, count_of_step. destruct (string_dec w c); lia.
Qed.

Lemma count_texts_count texts : forall wc c,
  count_of (count_texts texts wc) c = count_of wc c + occurrences texts c.
Proof.
  unfold occurrences, corpus_chars.
  induction texts as [|t r IH]; intros wc c; simpl; [lia|].
  rewrite IH, count_seq_count, count_occ_app. lia.
Qed.

Lemma count_seq_positive seq : forall wc,
  (forall c k, get wc c = Some k -> 0 < k) ->
  forall c k, get (count_seq seq wc) c = Some k -> 0 < k.
Proof.
  induction seq as [|w r IH]; intros wc Hpos; simpl; [exact Hpos|].
  apply IH. intros c k.
  destruct (get wc w) as [k0|] eqn:Ew; rewrite get_set; simpl;
    destruct (String.eqb w c); try apply Hpos.
  - intros [= <-]. apply Hpos in Ew. lia.
  - intros [= <-]. lia.
Qed.

Lemma count_texts_positive texts : forall wc,
  (forall c k, get wc c = Some k -> 0 < k) ->
  forall c k, get (count_texts texts wc) c = Some k -> 0 < k.
Proof.
  induction texts as [|t r IH]; intros wc Hpos; simpl; [exact Hpos|].
  apply IH. now apply count_seq_positive.
Qed.

Lemma fitted_word_counts titles :
  word_counts (fit_on_texts Tokenizer_new titles) = count_texts titles empty.
Proof. reflexivity. Qed.

Lemma fitted_counts_get titles c :
  get (count_texts titles (@empty string Z)) c =
  if occurrences titles c =? 0 then None else Some (occurrences titles c).
Proof.
  pose proof (count_texts_count titles empty c) as Hc.
  pose proof (count_texts_positive titles (@empty string Z)) as Hpos.
  unfold count_of in Hc. simpl in Hc.
  destruct (get (count_texts titles empty) c) as [k|] eqn:E.
  - assert (0 < k) by (eapply Hpos; [discriminate | exact E]).
    subst k. destruct (Z.eqb_spec (occurrences titles c) 0); [lia | reflexivity].
  - rewrite <- Hc. reflexivity.
Qed.

Lemma occurrences_In titles c :
  occurrences titles c <> 0 <-> In c (corpus_chars titles).
Proof.
  unfold occurrences. rewrite (count_occ_In string_dec). lia.
Qed.

Lemma sorted_voc_In titles c :
  In c (sorted_voc titles) <-> In c (corpus_chars titles).
Proof.
  rewrite <- occurrences_In. unfold sorted_voc.
  assert (Hperm : Permutation (map fst (sort_desc (items (count_texts titles empty))))
                              (keys (count_texts titles (@empty string Z))))
    by (apply Permutation_map, sort_desc_perm).
  split.
  - intros Hin. apply (Permutation_in _ Hperm) in Hin.
    intros Hz. apply (proj1 (get_None _ _)) in Hin; [exact Hin|].
    rewrite fitted_counts_get, Hz. reflexivity.
  - intros Hnz. apply (Permutation_in _ (Permutation_sym Hperm)).
    destruct (in_dec string_dec c (keys (count_texts titles (@empty string Z))))
      as [Hin|Hnin]; [exact Hin|].
    apply get_None in Hnin. rewrite fitted_counts_get in Hnin.
    destruct (Z.eqb_spec (occurrences titles c) 0); [contradiction | discriminate].
Qed.

End CountFacts.

(** X1. After [fit_on_texts], [word_counts] holds for every character of
    the corpus the number of times it occurs there, and holds nothing for a
    character that does not occur. *)
Theorem word_counts_are_occurrences (titles : list string) (c : string) :
  PyDict.get (word_counts (fit_on_texts Tokenizer_new titles)) c =
  if occurrences titles c =? 0 then None else Some (occurrences titles c).
Proof. rewrite fitted_word_counts. apply fitted_counts_get. Qed.

(** X2. The keys of [word_index] are the characters that occur in the
    corpus, and ['<eos>']: no other string has an index, so [encode] keeps
    exactly the characters seen in training. *)
Theorem word_index_keys_are_corpus (titles : list string) (c : string) :
  PyDict.get (word_index (tokenizer (notebook_globals titles))) c <> None <->
  c = "<eos>" \/ In c (corpus_chars titles).
Proof.
  rewrite <- sorted_voc_In.
  split.
  - intros Hget. destruct (PyDict.get _ c) as [i|] eqn:E; [|congruence].
    apply word_index_range in E. destruct E as [[-> _]|(_ & Hin & _)]; auto.
  - intros Hc Hnone. apply PyDictFacts.get_None in Hnone. apply Hnone.
    rewrite globals_word_index_keys. apply in_or_app.
    destruct Hc as [->|Hin]; [right; now left | now left].
Qed.

(** ** How [fit_on_texts] ranks the characters *)

Section RankFacts.
Import PyDict PyDictFacts.

Lemma insert_desc_sorted x l :
  StronglySorted (fun a b : string * Z => snd b <= snd a) l ->
  StronglySorted (fun a b : string * Z => snd b <= snd a) (insert_desc x l).
Proof.
  induction l as [|y r IH]; intros Hs; simpl.
  - repeat constructor.
  - inversion Hs as [|? ? Hr Hy]; subst.
    destruct (Z.leb_spec (snd y) (snd x)).
    + constructor; [exact Hs|]. constructor; [assumption|].
      rewrite Forall_forall in *. intros z Hz. specialize (Hy z Hz). lia.
    + constructor; [now apply IH|].
      apply (Permutation_Forall (Permutation_sym (insert_desc_perm x r))).
      constructor; [lia | assumption].
Qed.

Lemma sort_desc_sorted l :
  StronglySorted (fun a b : string * Z => snd b <= snd a) (sort_desc l).
Proof.
  induction l as [|x l IH]; simpl; [constructor | now apply insert_desc_sorted].
Qed.

Lemma sorted_positions {A} (R : A -> A -> Prop) (l : list A) :
  StronglySorted R l ->
  forall p q a b, (p < q)%nat ->
    nth_error l p = Some a -> nth_error l q = Some b -> R a b.
Proof.
  induction 1 as [|x l Hs IH Hx]; intros p q a b Hpq Hp Hq.
  - destruct p; discriminate.
  - destruct q as [|q]; [lia|]. simpl in Hq. destruct p as [|p]; simpl in Hp.
    + injection Hp as <-. rewrite Forall_forall in Hx. apply Hx.
      eapply nth_error_In; eassumption.
    + eapply IH; [|eassumption|eassumption]. lia.
Qed.

Lemma range_cons lo hi : lo < hi -> range lo hi = lo :: range (lo + 1) hi.
Proof.
  intros Hlt. unfold range.
  replace (Z.to_nat (hi - lo)) with (S (Z.to_nat (hi - (lo + 1)))) by lia.
  simpl. f_equal; [lia|]. rewrite <- seq_shift, map_map.
  apply map_ext. intros i. lia.
Qed.

Lemma combine_range_position (l : list string) : forall lo c i,
  In (c, i) (combine l (range lo (lo + Z.of_nat (length l)))) ->
  exists p, nth_error l p = Some c /\ i = lo + Z.of_nat p.
Proof.
  induction l as [|x l IH]; intros lo c i Hin; [contradiction|].
  replace (lo + Z.of_nat (length (x :: l)))
    with (lo + 1 + Z.of_nat (length l)) in Hin by (simpl length; lia).
  rewrite range_cons in Hin by lia.
  cbn [combine In] in Hin. destruct Hin as [[= <- <-]|Hin].
  - exists 0%nat. split; [reflexivity | lia].
  - apply IH in Hin. destruct Hin as (p & Hp & ->).
    exists (S p). split; [exact Hp | lia].
Qed.

(** The index of a character is its rank among the counts, from 1. *)
Lemma word_index_position titles c i :
  get (word_index (tokenizer (notebook_globals titles))) c = Some i ->
  c <> "<eos>" ->
  exists p,
    nth_error (sort_desc (items (count_texts titles empty))) p
      = Some (c, occurrences titles c) /\
    i = 1 + Z.of_nat p.
Proof.
  intros Hget Hne. apply get_In in Hget. rewrite globals_word_index in Hget.
  apply in_app_or in Hget. destruct Hget as [Hin|[[= <- _]|[]]]; [|congruence].
  replace (Z.of_nat (length (sorted_voc titles)) + 1)
    with (1 + Z.of_nat (length (sorted_voc titles))) in Hin by lia.
  apply combine_range_position in Hin. destruct Hin as (p & Hp & ->).
  exists p. split; [|reflexivity].
  unfold sorted_voc in Hp. rewrite nth_error_map in Hp.
  destruct (nth_error (sort_desc (items (count_texts titles empty))) p)
    as [[c' k]|] eqn:E; [|discriminate].
  simpl in Hp. injection Hp as ->. do 2 f_equal.
  pose proof (nth_error_In _ _ E) as Hin.
  apply (Permutation_in _ (sort_desc_perm _)) in Hin.
  unfold items in Hin. apply In_get in Hin.
  - rewrite fitted_counts_get in Hin.
    destruct (occurrences titles c =? 0); congruence.
  - apply (count_texts_ok titles empty). split; constructor.
Qed.

End RankFacts.

(** X3. [fit_on_texts] numbers the characters by decreasing frequency: of
    two strings with an index, the one that occurs more often in the corpus
    has the smaller index (['<eos>'], which never occurs, has the largest). *)
Theorem more_frequent_smaller_index (titles : list string) (c1 c2 : string)
    (i1 i2 : Z) :
  PyDict.get (word_index (tokenizer (notebook_globals titles))) c1 = Some i1 ->
  PyDict.get (word_index (tokenizer (notebook_globals titles))) c2 = Some i2 ->
  occurrences titles c2 < occurrences titles c1 ->
  i1 < i2.
Proof.
  intros H1 H2 Hocc.
  assert (Hocc_eos : occurrences titles "<eos>" = 0).
  { destruct (Z.eq_dec (occurrences titles "<eos>") 0) as [Hz|Hnz]; [exact Hz|].
    apply occurrences_In, sorted_voc_In in Hnz.
    now apply eos_not_in_voc in Hnz. }
  assert (Hnonneg : forall c, 0 <= occurrences titles c)
    by (intros c; unfold occurrences; lia).
  assert (Hc1 : c1 <> "<eos>").
  { intros ->. specialize (Hnonneg c2). lia. }
  destruct (string_dec c2 "<eos>") as [->|Hc2].
  - rewrite word_index_eos in H2.
    assert (Hi2 : i2 = eos_token (notebook_globals titles)) by congruence.
    subst i2.
    apply word_index_range in H1. destruct H1 as [[-> _]|(_ & _ & Hr)];
      [congruence | lia].
  - destruct (word_index_position titles c1 i1 H1 Hc1) as (p1 & Hp1 & ->).
    destruct (word_index_position titles c2 i2 H2 Hc2) as (p2 & Hp2 & ->).
    destruct (Nat.lt_trichotomy p1 p2) as [Hlt|[Heq|Hgt]]; [lia| |].
    + subst p2. rewrite Hp1 in Hp2. injection Hp2 as -> Heq. lia.
    + pose proof (sorted_positions _ _ (sort_desc_sorted _) p2 p1 _ _ Hgt Hp2 Hp1)
        as Hle.
      simpl in Hle. lia.
Qed.

Lemma more_frequent_smaller_index_witness :
  PyDict.get (word_index (tokenizer (notebook_globals ["abcab"; "a"]))) "a" = Some 1 /\
  PyDict.get (word_index (tokenizer (notebook_globals ["abcab"; "a"]))) "c" = Some 3 /\
  occurrences ["abcab"; "a"] "c" < occurrences ["abcab"; "a"] "a" /\
  1 < 3.
Proof.
  assert (H1 : PyDict.get (word_index (tokenizer (notebook_globals ["abcab"; "a"]))) "a"
               = Some 1) by reflexivity.
  assert (H2 : PyDict.get (word_index (tokenizer (notebook_globals ["abcab"; "a"]))) "c"
               = Some 3) by reflexivity.
  assert (H3 : occurrences ["abcab"; "a"] "c" < occurrences ["abcab"; "a"] "a")
    by reflexivity.
  split; [exact H1|]. split; [exact H2|]. split; [exact H3|].
  exact (more_frequent_smaller_index ["abcab"; "a"] "a" "c" 1 3 H1 H2 H3).
Defined.

(** ** The codec on arbitrary strings and token lists *)

Lemma iter_str_app s1 s2 : iter_str (s1 ++ s2) = iter_str s1 ++ iter_str s2.
Proof. induction s1 as [|a r IH]; simpl; [reflexivity | now f_equal]. Qed.

Lemma text_to_vect_app wi l1 l2 :
  text_to_vect wi (l1 ++ l2) = text_to_vect wi l1 ++ text_to_vect wi l2.
Proof.
  induction l1 as [|c r IH]; simpl; [reflexivity|].
  destruct (PyDict.get wi c); simpl; now rewrite IH.
Qed.

Lemma encode_app g s1 s2 : encode g (s1 ++ s2) = encode g s1 ++ encode g s2.
Proof. rewrite !encode_unfold, iter_str_app. apply text_to_vect_app. Qed.

Lemma encode_cons g a r :
  encode g (String a r) =
  match PyDict.get (word_index (tokenizer g)) (String a "") with
  | Some i => i :: encode g r
  | None => encode g r
  end.
Proof. rewrite !encode_unfold. reflexivity. Qed.

Lemma encode_length g s : (length (encode g s) <= String.length s)%nat.
Proof.
  induction s as [|a r IH]; [apply Nat.le_refl|].
  rewrite encode_cons. destruct (PyDict.get _ _); simpl; lia.
Qed.

Lemma keep_known_in_vocabulary g s : in_vocabulary g s -> keep_known g s = s.
Proof.
  unfold in_vocabulary. induction s as [|a r IH]; intros Hvoc; [reflexivity|].
  simpl in *. destruct (PyDict.get _ (String a "")) eqn:E.
  - f_equal. apply IH. intros c Hc. apply Hvoc. now right.
  - exfalso. apply (Hvoc (String a "")); [now left | exact E].
Qed.

(** X4. [encode] works character by character: the encoding of a
    concatenation is the concatenation of the encodings; it gives at most
    one token per character, and exactly one per character precisely for the
    strings made of vocabulary characters only. *)
Theorem encode_by_character (g : Globals) (s1 s2 : string) :
  encode g (s1 ++ s2) = encode g s1 ++ encode g s2 /\
  (length (encode g s1) <= String.length s1)%nat /\
  (length (encode g s1) = String.length s1 <-> in_vocabulary g s1).
Proof.
  split; [apply encode_app|]. split; [apply encode_length|].
  unfold in_vocabulary. induction s1 as [|a r IH]; simpl.
  - split; [intros _ c [] | reflexivity].
  - rewrite encode_cons. destruct (PyDict.get _ (String a "")) eqn:E; simpl.
    + split.
      * intros Hlen c [<-|Hc]; [congruence|]. apply IH; [lia | exact Hc].
      * intros Hvoc. f_equal. apply IH. intros c Hc. apply Hvoc. now right.
    + split.
      * intros Hlen. pose proof (encode_length g r). lia.
      * intros Hvoc. exfalso. apply (Hvoc (String a "")); [now left | exact E].
Qed.

Lemma decode_encode_known titles s :
  decode (notebook_globals titles) (encode (notebook_globals titles) s)
    = keep_known (notebook_globals titles) s /\
  String.length (keep_known (notebook_globals titles) s)
    = length (encode (notebook_globals titles) s).
Proof.
  induction s as [|a r [IHd IHl]]; [split; reflexivity|].
  rewrite encode_cons. cbn [keep_known].
  destruct (PyDict.get _ (String a "")) as [i|] eqn:E.
  - rewrite decode_cons, (reverse_map_get _ _ _ E), IHd. simpl.
    now rewrite IHl.
  - now split.
Qed.

(** X5. Decoding an encoded string gives the string without the characters
    that have no index, for every string; the encoding has one token for each
    character that is kept. *)
Theorem decode_encode_keeps_known (titles : list string) (s : string) :
  decode (notebook_globals titles) (encode (notebook_globals titles) s)
    = keep_known (notebook_globals titles) s /\
  String.length (keep_known (notebook_globals titles) s)
    = length (encode (notebook_globals titles) s).
Proof. apply decode_encode_known. Qed.

Lemma char_token_decodes titles t :
  char_token (notebook_globals titles) t = true ->
  exists a,
    decode (notebook_globals titles) [t] = String a "" /\
    PyDict.get (word_index (tokenizer (notebook_globals titles))) (String a "")
      = Some t.
Proof.
  unfold char_token. rewrite andb_true_iff, Z.leb_le, Z.ltb_lt. intros Ht.
  assert (Hin : In t (PyDict.values (word_index (tokenizer (notebook_globals titles))))).
  { rewrite globals_word_index_values, range_In.
    rewrite globals_eos in Ht. lia. }
  unfold PyDict.values in Hin. apply in_map_iff in Hin.
  destruct Hin as ([c i] & Heq & Hin). simpl in Heq. subst i.
  apply PyDictFacts.In_get in Hin; [|apply word_index_NoDup].
  pose proof Hin as Hr. apply word_index_range in Hr.
  destruct Hr as [[_ ->]|(Hone & _ & _)]; [lia|].
  destruct c as [|a [|b c]]; try discriminate.
  exists a. split; [|exact Hin].
  rewrite decode_one. now rewrite (reverse_map_get _ _ _ Hin).
Qed.

Lemma other_token_decodes titles t :
  char_token (notebook_globals titles) t = false ->
  t <> eos_token (notebook_globals titles) ->
  decode (notebook_globals titles) [t] = "".
Proof.
  unfold char_token. rewrite andb_false_iff, Z.leb_gt, Z.ltb_ge. intros Ht Hne.
  rewrite decode_one.
  rewrite (proj2 (reverse_map_None titles t)); [reflexivity | lia].
Qed.

(** X6. Encoding a decoded token list gives back its character indices:
    for tokens without the end-of-sequence index, [encode(decode(x))] is [x]
    without the tokens that are no character index, so it is [x] itself when
    every token is one. *)
Theorem encode_decode_tokens (titles : list string) (x : list Z) :
  ~ In (eos_token (notebook_globals titles)) x ->
  encode (notebook_globals titles) (decode (notebook_globals titles) x)
    = filter (char_token (notebook_globals titles)) x /\
  (forallb (char_token (notebook_globals titles)) x = true ->
   encode (notebook_globals titles) (decode (notebook_globals titles) x) = x).
Proof.
  intros Hnin.
  assert (Hfilter :
            encode (notebook_globals titles) (decode (notebook_globals titles) x)
            = filter (char_token (notebook_globals titles)) x).
  { induction x as [|t x IH]; [reflexivity|].
    change (t :: x) with ([t] ++ x). rewrite decode_app, encode_app.
    rewrite IH by (intros Hin; apply Hnin; now right).
    simpl. destruct (char_token (notebook_globals titles) t) eqn:Et.
    - destruct (char_token_decodes titles t Et) as (a & -> & Hget).
      rewrite encode_cons, Hget. reflexivity.
    - rewrite other_token_decodes; [reflexivity | exact Et|].
      intros ->. apply Hnin. now left. }
  split; [exact Hfilter|].
  intros Hall. rewrite Hfilter. now apply forallb_filter_id.
Qed.

Lemma encode_decode_tokens_witness :
  ~ In (eos_token (notebook_globals ["aaabbc"])) [3; 0; 1; 7; 2] /\
  encode (notebook_globals ["aaabbc"])
         (decode (notebook_globals ["aaabbc"]) [3; 0; 1; 7; 2])
    = [3; 1; 2].
Proof.
  assert (Hnin : ~ In (eos_token (notebook_globals ["aaabbc"])) [3; 0; 1; 7; 2]).
  { vm_compute. intros H. repeat (destruct H as [H|H]; [discriminate|]). exact H. }
  split; [exact Hnin|].
  exact (proj1 (encode_decode_tokens ["aaabbc"] [3; 0; 1; 7; 2] Hnin)).
Defined.

(** ** Training batches *)

Lemma fold_left_max_lengths (r : list (list Z)) : forall a : nat,
  fold_left Z.max (map (fun x => Z.of_nat (length x)) r) (Z.of_nat a) =
  Z.of_nat (Nat.max a (fold_right Nat.max 0%nat (map (@length Z) r))).
Proof.
  induction r as [|y r IH]; intros a; simpl.
  - now rewrite Nat.max_0_r.
  - rewrite <- Nat2Z.inj_max, IH. f_equal. lia.
Qed.

Lemma np_max_lengths (z : list (list Z)) :
  z <> [] ->
  np_max (map (fun x => Z.of_nat (length x)) z) =
  inr (Z.of_nat (fold_right Nat.max 0%nat (map (@length Z) z))).
Proof.
  destruct z as [|y r]; [congruence|]. intros _. simpl.
  now rewrite fold_left_max_lengths.
Qed.

Lemma length_le_longest (z : list (list Z)) s :
  In s z -> (length s <= fold_right Nat.max 0%nat (map (@length Z) z))%nat.
Proof.
  induction z as [|y r IH]; simpl; [contradiction|].
  intros [->|Hin]; [lia|]. specialize (IH Hin). lia.
Qed.

Lemma map_exn_total {A B} (f : A -> exn + B) (h : A -> B) (l : list A) :
  (forall x, In x l -> f x = inr (h x)) -> map_exn f l = inr (map h l).
Proof.
  induction l as [|x r IH]; intros Hf; simpl; [reflexivity|].
  rewrite Hf by now left. rewrite IH; [reflexivity|].
  intros y Hy. apply Hf. now right.
Qed.

Lemma firstn_repeat_le {A} (a : A) (k m : nat) :
  (k <= m)%nat -> firstn k (repeat a m) = repeat a k.
Proof.
  revert m. induction k as [|k IH]; intros [|m] Hle; simpl; try reflexivity;
    try lia.
  f_equal. apply IH. lia.
Qed.

(** A row of [pad_sequences]: zeros, then the sequence. *)
Lemma pad_row_closed (m : nat) (s : list Z) :
  (length s <= m)%nat ->
  match s with
  | [] => inr (repeat 0 m)
  | _ => assign_last (repeat 0 m) (slice_last m s)
  end = inr (repeat 0 (m - length s) ++ s).
Proof.
  intros Hlen. destruct s as [|a r].
  - simpl. now rewrite Nat.sub_0_r, app_nil_r.
  - assert (Hslice : slice_last m (a :: r) = a :: r).
    { unfold slice_last. destruct (m =? 0)%nat; [reflexivity|].
      replace (length (a :: r) - m)%nat with 0%nat by lia. reflexivity. }
    rewrite Hslice. unfold assign_last. rewrite repeat_length.
    simpl length in *. simpl Nat.eqb.
    destruct (Nat.leb_spec (S (length r)) m); [|lia].
    now rewrite firstn_repeat_le by lia.
Qed.

Lemma pad_sequences_closed (z : list (list Z)) :
  z <> [] ->
  pad_sequences z =
  inr (map (fun s => repeat 0 (fold_right Nat.max 0%nat (map (@length Z) z)
                               - length s) ++ s) z).
Proof.
  intros Hne. unfold pad_sequences. rewrite np_max_lengths by assumption.
  rewrite Nat2Z.id. apply map_exn_total. intros s Hs.
  apply pad_row_closed. now apply length_le_longest.
Qed.

Lemma shift_targets_closed (z : list (list Z)) eos :
  shift_targets z eos = map (fun row => tl row ++ [eos]) z.
Proof.
  unfold shift_targets. induction z as [|row z IH]; simpl; [reflexivity|].
  now f_equal.
Qed.

Lemma texts_to_sequences_encode g x :
  texts_to_sequences (tokenizer g) x = map (encode g) x.
Proof. reflexivity. Qed.

Section TitleBatchFacts.

Variable F : Type.
Variables fzero fone : F.

Lemma one_hot_app (a b : list Z) depth :
  one_hot fzero fone (a ++ b) depth =
  one_hot fzero fone a depth ++ one_hot fzero fone b depth.
Proof. unfold one_hot. apply map_app. Qed.

Lemma one_hot_tl (a : list Z) depth :
  one_hot fzero fone (tl a) depth = tl (one_hot fzero fone a depth).
Proof. destruct a; reflexivity. Qed.

Lemma one_hot_length (a : list Z) depth :
  length (one_hot fzero fone a depth) = length a.
Proof. unfold one_hot. apply length_map. Qed.

Lemma map_all_const {A B} (f : A -> B) (c : B) (l : list A) :
  (forall x, In x l -> f x = c) -> map f l = repeat c (length l).
Proof.
  induction l as [|x l IH]; intros Hf; simpl; [reflexivity|].
  rewrite Hf by now left. f_equal. apply IH. intros y Hy. apply Hf. now right.
Qed.

(** The one-hot vector of index 0 has its one in the first column. *)
Lemma one_hot_zeros g k :
  0 < vocab_size g ->
  one_hot fzero fone (repeat 0 k) (vocab_size g) = repeat (pad_vector fzero fone g) k.
Proof.
  intros Hv. unfold one_hot. rewrite map_repeat. f_equal.
  unfold pad_vector. rewrite range_cons by exact Hv. simpl. f_equal.
  replace (Z.to_nat (vocab_size g) - 1)%nat
    with (length (range (0 + 1) (vocab_size g)))
    by (rewrite range_length; lia).
  apply map_all_const. intros j Hj. apply range_In in Hj.
  destruct (Z.eqb_spec j 0); [lia | reflexivity].
Qed.

Lemma map_exn_decoded (utf8 : list byte -> option string) x texts :
  Forall2 (fun t s => utf8 t = Some s) x texts ->
  map_exn (bytes_decode utf8) x = inr texts.
Proof.
  induction 1 as [|t s x texts Ht _ IH]; [reflexivity|].
  simpl. unfold bytes_decode at 1. now rewrite Ht, IH.
Qed.

Lemma map_exn_decode_inv (utf8 : list byte -> option string) x :
  match map_exn (bytes_decode utf8) x with
  | inr texts => Forall2 (fun t s => utf8 t = Some s) x texts
  | inl e => e = UnicodeDecodeError /\ Exists (fun t => utf8 t = None) x
  end.
Proof.
  induction x as [|t x IH]; simpl; [constructor|].
  unfold bytes_decode at 1. destruct (utf8 t) as [s|] eqn:Et.
  - destruct (map_exn (bytes_decode utf8) x) as [e|texts].
    + destruct IH as [He Hex]. split; [exact He|]. now apply Exists_cons_tl.
    + now constructor.
  - split; [reflexivity|]. now apply Exists_cons_hd.
Qed.

Lemma decoded_same_length (utf8 : list byte -> option string) x texts :
  Forall2 (fun t s => utf8 t = Some s) x texts -> length x = length texts.
Proof. induction 1; simpl; congruence. Qed.

Lemma title_batch_closed utf8 g x texts :
  Forall2 (fun t s => utf8 t = Some s) x texts ->
  texts <> [] ->
  title_batch fzero fone utf8 g x =
  inr (map (fun t => one_hot fzero fone
                       (repeat 0 (longest g texts - length (encode g t)) ++ encode g t)
                       (vocab_size g)) texts,
       map (fun t => one_hot fzero fone
                       (tl (repeat 0 (longest g texts - length (encode g t))
                            ++ encode g t)
                        ++ [eos_token g])
                       (vocab_size g)) texts).
Proof.
  intros Hdec Hne. unfold title_batch. rewrite (map_exn_decoded utf8 x texts Hdec).
  rewrite texts_to_sequences_encode.
  rewrite pad_sequences_closed by (destruct texts; [congruence | discriminate]).
  rewrite shift_targets_closed, !map_map. unfold longest.
  reflexivity.
Qed.

End TitleBatchFacts.

(** X7. On a batch with at least one title, all of them valid UTF-8,
    [title_batch] gives as input, for each decoded title, its one-hot encoded
    characters preceded by as many one-hot vectors of index 0 as it is
    shorter than the longest encoded title of the batch, so all input
    sequences have that length; no character has index 0, and the padding
    vector is not the zero vector: its first entry is the one. *)
Theorem title_batch_pads_left (F : Type) (fzero fone : F)
    (utf8 : list byte -> option string)
    (titles : list string) (x : list (list byte)) (texts : list string) :
  x <> [] ->
  Forall2 (fun t s => utf8 t = Some s) x texts ->
  let g := notebook_globals titles in
  exists inp tgt,
    title_batch fzero fone utf8 g x = inr (inp, tgt) /\
    inp = map (fun t => repeat (pad_vector fzero fone g)
                               (longest g texts - length (encode g t))
                        ++ one_hot fzero fone (encode g t) (vocab_size g)) texts /\
    Forall (fun seq => length seq = longest g texts) inp /\
    hd_error (pad_vector fzero fone g) = Some fone /\
    (forall t tok, In tok (encode g t) -> tok <> 0).
Proof.
  intros Hx Hdec g.
  assert (Hne : texts <> []).
  { intros ->. inversion Hdec. congruence. }
  assert (Hv : 0 < vocab_size g).
  { unfold g. rewrite globals_vocab_size, globals_eos. lia. }
  rewrite (title_batch_closed F fzero fone utf8 g x texts Hdec Hne).
  do 2 eexists. split; [reflexivity|].
  assert (Hrows : forall t,
            one_hot fzero fone
              (repeat 0 (longest g texts - length (encode g t)) ++ encode g t)
              (vocab_size g)
            = repeat (pad_vector fzero fone g) (longest g texts - length (encode g t))
              ++ one_hot fzero fone (encode g t) (vocab_size g)).
  { intros t. now rewrite one_hot_app, one_hot_zeros. }
  split; [apply map_ext; exact Hrows|]. split; [|split; [reflexivity|]].
  - apply Forall_forall. intros seq Hseq. apply in_map_iff in Hseq.
    destruct Hseq as (t & <- & Ht). rewrite one_hot_length, length_app, repeat_length.
    assert (length (encode g t) <= longest g texts)%nat.
    { unfold longest. rewrite <- (map_map (encode g) (@length Z)).
      apply length_le_longest. now apply in_map. }
    lia.
  - intros t tok Hin Hz. subst tok. apply encode_range in Hin. lia.
Qed.

Lemma title_batch_pads_left_witness :
  [list_byte_of_string "ab"; list_byte_of_string "c"] <> [] /\
  Forall2 (fun t s => decode_ascii t = Some s)
          [list_byte_of_string "ab"; list_byte_of_string "c"] ["ab"; "c"] /\
  exists inp tgt,
    title_batch 0%Q 1%Q decode_ascii (notebook_globals ["aaabbc"])
                [list_byte_of_string "ab"; list_byte_of_string "c"]
      = inr (inp, tgt) /\
    Forall (fun seq => length seq = longest (notebook_globals ["aaabbc"]) ["ab"; "c"])
           inp.
Proof.
  assert (Hne : [list_byte_of_string "ab"; list_byte_of_string "c"] <> [])
    by discriminate.
  assert (Hdec : Forall2 (fun t s => decode_ascii t = Some s)
                   [list_byte_of_string "ab"; list_byte_of_string "c"] ["ab"; "c"])
    by (repeat constructor).
  split; [exact Hne|]. split; [exact Hdec|].
  destruct (title_batch_pads_left Q 0%Q 1%Q decode_ascii ["aaabbc"] _ _ Hne Hdec)
    as (inp & tgt & Hrun & _ & Hlen & _).
  exists inp, tgt. split; [exact Hrun | exact Hlen].
Defined.

(** X8. Each target sequence of [title_batch] is the input sequence of the
    same title shifted by one position, with the one-hot vector of the
    end-of-sequence index appended; it has as many positions as the input
    sequence, except that it has one when the input sequences have none. *)
Theorem title_batch_targets_shift (F : Type) (fzero fone : F)
    (utf8 : list byte -> option string) (g : Globals)
    (x : list (list byte)) (texts : list string)
    (inp tgt : list (list (list F))) :
  Forall2 (fun t s => utf8 t = Some s) x texts ->
  title_batch fzero fone utf8 g x = inr (inp, tgt) ->
  tgt = map (fun seq => tl seq ++ one_hot fzero fone [eos_token g] (vocab_size g))
            inp /\
  length tgt = length x /\
  Forall (fun seq => length seq = Nat.max 1 (longest g texts)) tgt.
Proof.
  intros Hdec Hrun.
  assert (Hne : texts <> []).
  { intros ->. inversion Hdec; subst. discriminate Hrun. }
  rewrite (title_batch_closed F fzero fone utf8 g x texts Hdec Hne) in Hrun.
  injection Hrun as <- <-. rewrite map_map. split; [|split].
  - apply map_ext. intros t. now rewrite one_hot_app, one_hot_tl.
  - rewrite length_map. symmetry. eapply decoded_same_length. exact Hdec.
  - apply Forall_forall. intros seq Hseq. apply in_map_iff in Hseq.
    destruct Hseq as (t & <- & Ht).
    rewrite one_hot_length, length_app. simpl length.
    assert (Hle : (length (encode g t) <= longest g texts)%nat).
    { unfold longest. rewrite <- (map_map (encode g) (@length Z)).
      apply length_le_longest. now apply in_map. }
    assert (Hrow : length (repeat 0 (longest g texts - length (encode g t))
                           ++ encode g t)
                   = longest g texts)
      by (rewrite length_app, repeat_length; lia).
    set (row := repeat 0 (longest g texts - length (encode g t)) ++ encode g t) in *.
    set (m := longest g texts) in *. clearbody row m.
    destruct row; cbn [tl length] in Hrow |- *; lia.
Qed.

Lemma title_batch_targets_shift_witness :
  Forall2 (fun t s => decode_ascii t = Some s)
          [list_byte_of_string "ab"; list_byte_of_string "c"] ["ab"; "c"] /\
  title_batch 0%Q 1%Q decode_ascii g_abc
              [list_byte_of_string "ab"; list_byte_of_string "c"] =
    inr ([[point_mass 0%Q 1%Q 1; point_mass 0%Q 1%Q 2];
          [point_mass 0%Q 1%Q 0; point_mass 0%Q 1%Q 3]],
         [[point_mass 0%Q 1%Q 2; point_mass 0%Q 1%Q 4];
          [point_mass 0%Q 1%Q 3; point_mass 0%Q 1%Q 4]]) /\
  length [[point_mass 0%Q 1%Q 2; point_mass 0%Q 1%Q 4];
          [point_mass 0%Q 1%Q 3; point_mass 0%Q 1%Q 4]]
    = length [list_byte_of_string "ab"; list_byte_of_string "c"].
Proof.
  assert (Hdec : Forall2 (fun t s => decode_ascii t = Some s)
                   [list_byte_of_string "ab"; list_byte_of_string "c"] ["ab"; "c"])
    by (repeat constructor).
  assert (Hrun : title_batch 0%Q 1%Q decode_ascii g_abc
                   [list_byte_of_string "ab"; list_byte_of_string "c"] =
    inr ([[point_mass 0%Q 1%Q 1; point_mass 0%Q 1%Q 2];
          [point_mass 0%Q 1%Q 0; point_mass 0%Q 1%Q 3]],
         [[point_mass 0%Q 1%Q 2; point_mass 0%Q 1%Q 4];
          [point_mass 0%Q 1%Q 3; point_mass 0%Q 1%Q 4]])) by reflexivity.
  split; [exact Hdec|]. split; [exact Hrun|].
  exact (proj1 (proj2 (title_batch_targets_shift Q 0%Q 1%Q decode_ascii g_abc
                         _ _ _ _ Hdec Hrun))).
Defined.

(** X9. [title_batch] raises in two cases only: the [UnicodeDecodeError] of
    [decode('utf-8')] when a title of the batch is not valid UTF-8, and
    otherwise, on an empty batch, the [ValueError] of [pad_sequences], which
    finds no longest sequence. *)
Theorem title_batch_raises (F : Type) (fzero fone : F)
    (utf8 : list byte -> option string) (g : Globals)
    (x : list (list byte)) (e : exn) :
  title_batch fzero fone utf8 g x = inl e <->
  (e = UnicodeDecodeError /\ Exists (fun t => utf8 t = None) x) \/
  (e = ValueError /\ x = []).
Proof.
  pose proof (map_exn_decode_inv utf8 x) as Hinv.
  destruct (map_exn (bytes_decode utf8) x) as [e0|texts] eqn:Emap.
  - destruct Hinv as [-> Hex]. unfold title_batch. rewrite Emap. split.
    + intros [= <-]. left. now split.
    + intros [[-> _]|[_ ->]]; [reflexivity|]. inversion Hex.
  - assert (Hnone : ~ Exists (fun t => utf8 t = None) x).
    { intros Hex. apply Exists_exists in Hex. destruct Hex as (t & Hin & Ht).
      clear Emap. induction Hinv as [|t0 s0 x0 texts0 Ht0 _ IH]; [contradiction|].
      destruct Hin as [->|Hin]; [congruence | now apply IH]. }
    destruct texts as [|s texts].
    + inversion Hinv; subst. split.
      * intros Hrun. right. cbv in Hrun. split; [congruence | reflexivity].
      * intros [[_ Hex]|[-> _]]; [contradiction | reflexivity].
    + rewrite (title_batch_closed F fzero fone utf8 g x (s :: texts) Hinv)
        by discriminate.
      split; [discriminate|].
      intros [[_ Hex]|[_ ->]]; [contradiction | inversion Hinv].
Qed.

(** ** What the decoding loops append *)

Lemma argmax_from_bound {A} (ltb : A -> A -> bool) (l : list A) :
  forall best ibest i,
    (ibest < i)%nat -> (argmax_from ltb best ibest i l < i + length l)%nat.
Proof.
  induction l as [|x r IH]; intros best ibest i Hlt; simpl; [lia|].
  destruct (ltb best x).
  - specialize (IH x i (S i)). lia.
  - specialize (IH best ibest (S i)). lia.
Qed.

Lemma argmax_bound {A} (ltb : A -> A -> bool) (l : list A) i :
  argmax ltb l = Some i -> (i < length l)%nat.
Proof.
  destruct l as [|x r]; simpl; [discriminate|]. intros [= <-].
  pose proof (argmax_from_bound ltb r x 0%nat 1%nat). lia.
Qed.

Lemma last_opt_In {A} (l : list A) x : last_opt l = Some x -> In x l.
Proof.
  induction l as [|a [|b r] IH]; simpl; try discriminate.
  - intros [= <-]. now left.
  - intros H. right. now apply IH.
Qed.

Section LoopFacts.

Local Set Default Proof Using "Type".

Variables St Rng : Type.
Variable select : ref -> M St Rng Z.
Hypothesis frame : select_frame select.

Implicit Types (w : World St Rng).

(** What the shared loop appends are results of its choice, none of them
    the end-of-sequence token. *)
Lemma decoding_loop_appends (P : Z -> Prop) g n :
  (forall inp w nc w1, globals w = g -> select inp w = (inr nc, w1) -> P nc) ->
  forall inp chars w r w', globals w = g -> (chars < length (heap w))%nat ->
  decoding_loop select n inp chars w = (r, w') ->
  exists gen,
    heap_load (heap w') chars = heap_load (heap w) chars ++ gen /\
    (length gen <= n)%nat /\
    Forall (fun t => P t /\ t <> eos_token g) gen.
Proof using frame.
  intros HP. induction n as [|n IH]; intros inp chars w r w' Hgw Hc Hrun.
  - simpl in Hrun. injection Hrun as <- <-. exists []. rewrite app_nil_r.
    split; [reflexivity|]. split; [simpl; lia|constructor].
  - rewrite decoding_loop_step in Hrun. destruct (frame inp w) as [Hg Hh].
    pose proof (HP inp w) as HPw.
    destruct (select inp w) as [[e|nc] w1]; simpl in Hg, Hh.
    + injection Hrun as <- <-. exists []. rewrite app_nil_r, Hh.
      split; [reflexivity|]. split; [simpl; lia|constructor].
    + destruct (nc =? eos_token (globals w1)) eqn:Eeos.
      * injection Hrun as <- <-. exists []. rewrite app_nil_r, Hh.
        split; [reflexivity|]. split; [simpl; lia|constructor].
      * assert (Hc1 : (chars < length (heap w1))%nat) by now rewrite Hh.
        destruct (advance_world _ _ w1 inp chars nc Hc1)
          as (Ag & _ & _ & Alen & Achars & _ & _).
        apply IH in Hrun; [|congruence|lia].
        destruct Hrun as (gen & Hload & Hlen & Hall).
        exists (nc :: gen). rewrite Hload, Achars, Hh, <- app_assoc. simpl.
        split; [reflexivity|]. split; [lia|].
        constructor; [|exact Hall].
        split; [now apply (HPw nc w1)|].
        rewrite Hg, Hgw in Eeos. now apply Z.eqb_neq.
Qed.

Lemma decoding_tokens_appends (P : Z -> Prop) size start w toks w' :
  (forall inp w0 nc w1,
     globals w0 = globals w -> select inp w0 = (inr nc, w1) -> P nc) ->
  decoding_tokens select size start w = (inr toks, w') ->
  exists gen,
    toks = encode (globals w) start ++ gen /\
    (length gen <= Z.to_nat size)%nat /\
    Forall (fun t => P t /\ t <> eos_token (globals w)) gen.
Proof using frame.
  intros HP. unfold decoding_tokens.
  unfold bind at 1, read_globals at 1. unfold bind at 1, new_list at 1.
  unfold bind at 1.
  set (w1 := with_heap w (heap w ++ [encode (globals w) start])).
  destruct (decoding_loop select (Z.to_nat size) (length (heap w))
              (length (heap w)) w1) as [r1 w2] eqn:Erun.
  apply (decoding_loop_appends P (globals w) _ HP) in Erun; [|reflexivity|].
  2:{ unfold w1. simpl. rewrite length_app. simpl. lia. }
  destruct Erun as (gen & Hload & Hlen & Hall).
  replace (heap_load (heap w1) (length (heap w))) with (encode (globals w) start)
    in Hload by (unfold w1; simpl; now rewrite heap_load_app_new).
  destruct r1 as [e|[]]; unfold read_list; intros [= <- <-].
  exists gen. auto.
Qed.

(** An exception of the shared loop is an exception of its choice. *)
Lemma decoding_loop_raises (Q : exn -> Prop) n :
  (forall inp w e w1, select inp w = (inl e, w1) -> Q e) ->
  forall inp chars w e w',
  decoding_loop select n inp chars w = (inl e, w') -> Q e.
Proof.
  intros HQ. induction n as [|n IH]; intros inp chars w e w' Hrun.
  - discriminate.
  - rewrite decoding_loop_step in Hrun. pose proof (HQ inp w) as HQw.
    destruct (select inp w) as [[e1|nc] w1].
    + injection Hrun as <- <-. eapply HQw. reflexivity.
    + destruct (nc =? eos_token (globals w1)); [discriminate|].
      eapply IH. eassumption.
Qed.

Lemma decoding_tokens_raises (Q : exn -> Prop) size start w e w' :
  (forall inp w e w1, select inp w = (inl e, w1) -> Q e) ->
  decoding_tokens select size start w = (inl e, w') -> Q e.
Proof.
  intros HQ. unfold decoding_tokens.
  unfold bind at 1, read_globals at 1. unfold bind at 1, new_list at 1.
  unfold bind at 1.
  destruct (decoding_loop select _ _ _ _) as [[e1|[]] w2] eqn:Erun.
  - intros [= <- <-]. eapply decoding_loop_raises; eassumption.
  - unfold read_list. discriminate.
Qed.

End LoopFacts.

Section SelectFacts.

Local Set Default Proof Using "Type".

Variable F : Type.
Variables fzero fone : F.
Variable fltb : F -> F -> bool.
Variables St Rng : Type.
Variables tf_log tf_exp : F -> F.
Variable tf_div : F -> F -> F.
Variable astype_float64 : F -> F.
Variable np_sum : list F -> F.
Variable np_div : F -> F -> F.
Variable multinomial : Rng -> Z -> list F -> Z -> (exn + list (list Z)) * Rng.

Implicit Types (w : World St Rng) (model : Model F St).

Local Abbreviation soft_choice model t :=
  (soft_select fzero fone tf_log tf_exp tf_div astype_float64 np_sum np_div
               multinomial model t).

(** What [next_distribution] returns is the last distribution of the first
    sequence the model answered with. *)
Lemma next_distribution_answer model inp w out w1 :
  next_distribution fzero fone model inp w = (inr out, w1) ->
  exists seq batch s',
    model (mstate w)
          (expand_dims0 (one_hot fzero fone (heap_load (heap w) inp)
                                 (vocab_size (globals w))))
      = (inr (seq :: batch), s') /\
    last_opt seq = Some out /\ w1 = with_mstate w s'.
Proof.
  unfold next_distribution, bind, read_globals, read_list, call_model. simpl.
  destruct (model _ _) as [[e|[|seq batch]] s']; simpl; try discriminate.
  unfold subscript_last. destruct (last_opt seq) as [o|] eqn:El; simpl;
    [|discriminate].
  intros [= <- <-]. exists seq, batch, s'.
  split; [reflexivity|]. split; [exact El | reflexivity].
Qed.

Lemma next_distribution_shape model inp w out w1 :
  model_shaped model (globals w) ->
  next_distribution fzero fone model inp w = (inr out, w1) ->
  length out = Z.to_nat (vocab_size (globals w)).
Proof.
  intros Hshape Hnext. apply next_distribution_answer in Hnext.
  destruct Hnext as (seq & batch & s' & Hmodel & Hlast & _).
  apply Hshape in Hmodel. inversion Hmodel as [|? ? Hseq _]; subst.
  rewrite Forall_forall in Hseq. apply Hseq. now apply last_opt_In.
Qed.

(** [next_distribution] raises what the model raised, or
    [InvalidArgumentError] for a subscript out of range. *)
Lemma next_distribution_raises model inp w e w1 :
  next_distribution fzero fone model inp w = (inl e, w1) ->
  e = InvalidArgumentError \/ exists s x s', model s x = (inl e, s').
Proof.
  unfold next_distribution, bind, read_globals, read_list, call_model. simpl.
  destruct (model _ _) as [[e1|[|seq batch]] s'] eqn:Em; simpl.
  - intros [= <- <-]. right. eauto.
  - intros [= <- <-]. now left.
  - unfold subscript_last. destruct (last_opt seq); simpl; [discriminate|].
    intros [= <- <-]. now left.
Qed.

Lemma greedy_select_index model inp w nc w1 :
  greedy_select fzero fone fltb model inp w = (inr nc, w1) ->
  exists out w0 i,
    next_distribution fzero fone model inp w = (inr out, w0) /\
    nc = Z.of_nat i /\ (i < length out)%nat.
Proof.
  unfold greedy_select, bind.
  destruct (next_distribution _ _ _ _ _) as [[e|out] w0]; [discriminate|].
  unfold tf_argmax. destruct (argmax fltb out) as [i|] eqn:Ea; [|discriminate].
  intros [= <- <-]. apply argmax_bound in Ea. eauto 6.
Qed.

Lemma soft_select_index model t inp w nc w1 :
  soft_choice model t inp w = (inr nc, w1) ->
  exists out w0 draw r' i,
    next_distribution fzero fone model inp w = (inr out, w0) /\
    multinomial (rng w0) 1 (renormalize np_sum np_div
                              (rescale tf_log tf_exp tf_div astype_float64 out t)) 1
      = (inr draw, r') /\
    nc = Z.of_nat i /\ (i < length (concat draw))%nat.
Proof.
  unfold soft_select, bind.
  destruct (next_distribution _ _ _ _ _) as [[e|out] w0]; [discriminate|].
  unfold np_random_multinomial.
  destruct (multinomial _ _ _ _) as [[e|draw] r'] eqn:Em; [discriminate|].
  unfold np_argmax. destruct (argmax Z.ltb (concat draw)) as [i|] eqn:Ea;
    [|discriminate].
  intros [= <- <-]. apply argmax_bound in Ea.
  exists out, w0, draw, r', i. auto.
Qed.

Lemma greedy_select_raises model inp w e w1 :
  greedy_select fzero fone fltb model inp w = (inl e, w1) ->
  e = InvalidArgumentError \/ exists s x s', model s x = (inl e, s').
Proof.
  unfold greedy_select, bind.
  destruct (next_distribution _ _ _ _ _) as [[e0|out] w0] eqn:En.
  - intros [= <- <-]. eapply next_distribution_raises. eassumption.
  - unfold tf_argmax. destruct (argmax fltb out); [discriminate|].
    intros [= <- <-]. now left.
Qed.

Lemma soft_select_raises model t inp w e w1 :
  soft_choice model t inp w = (inl e, w1) ->
  e = InvalidArgumentError \/ e = ValueError \/
  (exists s x s', model s x = (inl e, s')) \/
  (exists r pvals r', multinomial r 1 pvals 1 = (inl e, r')).
Proof.
  unfold soft_select, bind.
  destruct (next_distribution _ _ _ _ _) as [[e0|out] w0] eqn:En.
  - intros [= <- <-]. apply next_distribution_raises in En.
    destruct En as [->|Hm]; [now left | right; right; now left].
  - unfold np_random_multinomial.
    destruct (multinomial _ _ _ _) as [[e0|draw] r'] eqn:Em.
    + intros [= <- <-]. right. right. right. eauto.
    + unfold np_argmax. destruct (argmax Z.ltb (concat draw)); [discriminate|].
      intros [= <- <-]. right. now left.
Qed.

Lemma rescale_renormalize_length out t :
  length (renormalize np_sum np_div
            (rescale tf_log tf_exp tf_div astype_float64 out t)) = length out.
Proof. unfold renormalize, rescale. now rewrite !length_map. Qed.

End SelectFacts.

Section RunFacts.

Local Set Default Proof Using "Type".

Variable F : Type.
Variables fzero fone : F.
Variable fltb : F -> F -> bool.
Variables St Rng : Type.
Variables tf_log tf_exp : F -> F.
Variable tf_div : F -> F -> F.
Variable astype_float64 : F -> F.
Variable np_sum : list F -> F.
Variable np_div : F -> F -> F.
Variable multinomial : Rng -> Z -> list F -> Z -> (exn + list (list Z)) * Rng.

Implicit Types (w : World St Rng) (model : Model F St).

Local Abbreviation soft_toks :=
  (generate_soft_tokens fzero fone tf_log tf_exp tf_div astype_float64 np_sum
                        np_div multinomial).
Local Abbreviation soft_text :=
  (generate_soft fzero fone tf_log tf_exp tf_div astype_float64 np_sum
                 np_div multinomial).

(** The text returned is the decoding of the tokens, and an exception is
    one of the token-level run. *)
Lemma generate_result model size start w :
  fst (generate fzero fone fltb model size start w) =
    match fst (generate_tokens fzero fone fltb model size start w) with
    | inr toks => inr (decode (globals w) toks)
    | inl e => inl e
    end.
Proof.
  destruct (generate_tokens fzero fone fltb model size start w) as [r w'] eqn:E.
  apply generate_run in E. destruct E as (_ & _ & ->). reflexivity.
Qed.

Lemma generate_soft_result model size start t w :
  fst (soft_text model size start t w) =
    match fst (soft_toks model size start t w) with
    | inr toks => inr (decode (globals w) toks)
    | inl e => inl e
    end.
Proof.
  destruct (soft_toks model size start t w) as [r w'] eqn:E.
  apply generate_soft_run in E. destruct E as (_ & _ & ->). reflexivity.
Qed.

Lemma generate_tokens_choices (P : Z -> Prop) model size start w toks :
  (forall inp w0 nc w1, globals w0 = globals w ->
     greedy_select fzero fone fltb model inp w0 = (inr nc, w1) -> P nc) ->
  fst (generate_tokens fzero fone fltb model size start w) = inr toks ->
  exists gen,
    toks = encode (globals w) start ++ gen /\
    (length gen <= Z.to_nat size)%nat /\
    Forall (fun t => P t /\ t <> eos_token (globals w)) gen.
Proof.
  intros HP. rewrite generate_tokens_shared.
  destruct (decoding_tokens _ _ _ _) as [r w'] eqn:E. simpl. intros ->.
  eapply decoding_tokens_appends in E; [exact E | apply greedy_select_frame |].
  exact HP.
Qed.

Lemma generate_soft_tokens_choices (P : Z -> Prop) model size start t w toks :
  (forall inp w0 nc w1, globals w0 = globals w ->
     soft_select fzero fone tf_log tf_exp tf_div astype_float64 np_sum np_div
                 multinomial model t inp w0 = (inr nc, w1) -> P nc) ->
  fst (soft_toks model size start t w) = inr toks ->
  exists gen,
    toks = encode (globals w) start ++ gen /\
    (length gen <= Z.to_nat size)%nat /\
    Forall (fun t => P t /\ t <> eos_token (globals w)) gen.
Proof.
  intros HP. rewrite generate_soft_tokens_shared.
  destruct (decoding_tokens _ _ _ _) as [r w'] eqn:E. simpl. intros ->.
  eapply decoding_tokens_appends in E; [exact E | apply soft_select_frame |].
  exact HP.
Qed.

Lemma generate_tokens_not_eos model size start w toks :
  fst (generate_tokens fzero fone fltb model size start w) = inr toks ->
  exists gen,
    toks = encode (globals w) start ++ gen /\
    (length gen <= Z.to_nat size)%nat /\
    Forall (fun t => 0 <= t /\ t <> eos_token (globals w)) gen.
Proof.
  apply generate_tokens_choices. intros inp w0 nc w1 _ Hsel.
  apply greedy_select_index in Hsel.
  destruct Hsel as (out & w2 & i & _ & -> & _). lia.
Qed.

Lemma generate_soft_tokens_not_eos model size start t w toks :
  fst (soft_toks model size start t w) = inr toks ->
  exists gen,
    toks = encode (globals w) start ++ gen /\
    (length gen <= Z.to_nat size)%nat /\
    Forall (fun t => 0 <= t /\ t <> eos_token (globals w)) gen.
Proof.
  apply generate_soft_tokens_choices. intros inp w0 nc w1 _ Hsel.
  apply soft_select_index in Hsel.
  destruct Hsel as (out & w2 & draw & r' & i & _ & _ & -> & _). lia.
Qed.

Lemma generate_tokens_indices model size start w toks :
  model_shaped model (globals w) ->
  fst (generate_tokens fzero fone fltb model size start w) = inr toks ->
  exists gen,
    toks = encode (globals w) start ++ gen /\
    (length gen <= Z.to_nat size)%nat /\
    Forall (fun t => 0 <= t < vocab_size (globals w) /\
                     t <> eos_token (globals w)) gen.
Proof.
  intros Hshape. apply generate_tokens_choices. intros inp w0 nc w1 Hg Hsel.
  apply greedy_select_index in Hsel.
  destruct Hsel as (out & w2 & i & Hnext & -> & Hi).
  apply next_distribution_shape in Hnext; [|now rewrite Hg].
  rewrite Hg in Hnext. lia.
Qed.

Lemma generate_soft_tokens_indices model size start t w toks :
  model_shaped model (globals w) -> sampler_shaped multinomial ->
  fst (soft_toks model size start t w) = inr toks ->
  exists gen,
    toks = encode (globals w) start ++ gen /\
    (length gen <= Z.to_nat size)%nat /\
    Forall (fun t => 0 <= t < vocab_size (globals w) /\
                     t <> eos_token (globals w)) gen.
Proof.
  intros Hshape Hsampler. apply generate_soft_tokens_choices.
  intros inp w0 nc w1 Hg Hsel. apply soft_select_index in Hsel.
  destruct Hsel as (out & w2 & draw & r' & i & Hnext & Hdraw & -> & Hi).
  apply next_distribution_shape in Hnext; [|now rewrite Hg].
  apply Hsampler in Hdraw. rewrite rescale_renormalize_length in Hdraw.
  rewrite Hg in Hnext. lia.
Qed.

Lemma generate_tokens_error model size start w e :
  fst (generate_tokens fzero fone fltb model size start w) = inl e ->
  e = InvalidArgumentError \/ exists s x s', model s x = (inl e, s').
Proof.
  rewrite generate_tokens_shared.
  destruct (decoding_tokens _ _ _ _) as [r w'] eqn:E. simpl. intros ->.
  eapply (decoding_tokens_raises St Rng _
            (fun e => e = InvalidArgumentError \/
                      exists s x s', model s x = (inl e, s'))) in E;
    [exact E|].
  intros inp w0 e0 w1. apply greedy_select_raises.
Qed.

Lemma generate_soft_tokens_error model size start t w e :
  fst (soft_toks model size start t w) = inl e ->
  e = InvalidArgumentError \/ e = ValueError \/
  (exists s x s', model s x = (inl e, s')) \/
  (exists r pvals r', multinomial r 1 pvals 1 = (inl e, r')).
Proof.
  rewrite generate_soft_tokens_shared.
  destruct (decoding_tokens _ _ _ _) as [r w'] eqn:E. simpl. intros ->.
  eapply (decoding_tokens_raises St Rng _
            (fun e => e = InvalidArgumentError \/ e = ValueError \/
                      (exists s x s', model s x = (inl e, s')) \/
                      (exists r pvals r', multinomial r 1 pvals 1 = (inl e, r'))))
    in E; [exact E|].
  intros inp w0 e0 w1. apply soft_select_raises.
Qed.

End RunFacts.

(** ** The tokens the decoders append *)

(** X10. Whatever the predictor and the sampler, the tokens [generate] and
    [generate_soft] append to the encoded seed are indices [argmax] gave:
    none is negative and none is the end-of-sequence token. *)
Theorem appended_tokens_never_eos (F St Rng : Type) (fzero fone : F)
    (fltb : F -> F -> bool) (tf_log tf_exp : F -> F) (tf_div : F -> F -> F)
    (astype_float64 : F -> F) (np_sum : list F -> F) (np_div : F -> F -> F)
    (multinomial : Rng -> Z -> list F -> Z -> (exn + list (list Z)) * Rng)
    (model : Model F St) (size : Z) (start : string) (temperature : F)
    (w : World St Rng) :
  let soft_tokens :=
    generate_soft_tokens fzero fone tf_log tf_exp tf_div astype_float64
                         np_sum np_div multinomial in
  (forall toks,
     fst (generate_tokens fzero fone fltb model size start w) = inr toks ->
     exists gen,
       toks = encode (globals w) start ++ gen /\
       Forall (fun t => 0 <= t /\ t <> eos_token (globals w)) gen) /\
  (forall toks,
     fst (soft_tokens model size start temperature w) = inr toks ->
     exists gen,
       toks = encode (globals w) start ++ gen /\
       Forall (fun t => 0 <= t /\ t <> eos_token (globals w)) gen).
Proof.
  intros soft_tokens. split; intros toks Hrun.
  - apply generate_tokens_not_eos in Hrun.
    destruct Hrun as (gen & Htoks & _ & Hall). now exists gen.
  - apply generate_soft_tokens_not_eos in Hrun.
    destruct Hrun as (gen & Htoks & _ & Hall). now exists gen.
Qed.

Lemma appended_tokens_never_eos_witness :
  fst (generate_tokens 0%Q 1%Q Qltb (cycle_model 0%Q 1%Q) 5 "a" world_abc)
    = inr [1; 1; 2; 3] /\
  exists gen,
    [1; 1; 2; 3] = encode (globals world_abc) "a" ++ gen /\
    Forall (fun t => 0 <= t /\ t <> eos_token (globals world_abc)) gen.
Proof.
  split; [reflexivity|].
  exact (proj1 (appended_tokens_never_eos Q nat nat 0%Q 1%Q Qltb
                  (fun q => q) (fun q => q) (fun a _ => a) (fun q => q)
                  (fun _ => 0%Q) (fun a _ => a) cycle_sampler
                  (cycle_model 0%Q 1%Q) 5 "a" 1%Q world_abc)
               [1; 1; 2; 3] eq_refl).
Defined.

Lemma cycle_model_shaped {F} (fzero fone : F) :
  model_shaped (cycle_model fzero fone) g_abc.
Proof.
  intros s x batch s' [= <- _]. repeat constructor.
Qed.

Lemma first_sampler_shaped {F} : sampler_shaped (F := F) first_sampler.
Proof.
  intros r pvals draw r' [= <- _]. simpl. rewrite app_nil_r.
  destruct pvals; simpl; [reflexivity|]. now rewrite repeat_length.
Qed.

(** X11. With a predictor whose distributions have [vocab_size] entries,
    every token [generate] appends is an index below [vocab_size] other than
    the end-of-sequence index; so is every token [generate_soft] appends when
    the sampler returns one count per probability. *)
Theorem appended_tokens_are_indices (F St Rng : Type) (fzero fone : F)
    (fltb : F -> F -> bool) (tf_log tf_exp : F -> F) (tf_div : F -> F -> F)
    (astype_float64 : F -> F) (np_sum : list F -> F) (np_div : F -> F -> F)
    (multinomial : Rng -> Z -> list F -> Z -> (exn + list (list Z)) * Rng)
    (model : Model F St) (size : Z) (start : string) (temperature : F)
    (w : World St Rng) :
  let soft_tokens :=
    generate_soft_tokens fzero fone tf_log tf_exp tf_div astype_float64
                         np_sum np_div multinomial in
  model_shaped model (globals w) ->
  (forall toks,
     fst (generate_tokens fzero fone fltb model size start w) = inr toks ->
     exists gen,
       toks = encode (globals w) start ++ gen /\
       Forall (fun t => 0 <= t < vocab_size (globals w) /\
                        t <> eos_token (globals w)) gen) /\
  (sampler_shaped multinomial ->
   forall toks,
     fst (soft_tokens model size start temperature w) = inr toks ->
     exists gen,
       toks = encode (globals w) start ++ gen /\
       Forall (fun t => 0 <= t < vocab_size (globals w) /\
                        t <> eos_token (globals w)) gen).
Proof.
  intros soft_tokens Hshape. split.
  - intros toks Hrun. apply generate_tokens_indices in Hrun; [|exact Hshape].
    destruct Hrun as (gen & Htoks & _ & Hall). now exists gen.
  - intros Hsampler toks Hrun.
    apply generate_soft_tokens_indices in Hrun; [|exact Hshape|exact Hsampler].
    destruct Hrun as (gen & Htoks & _ & Hall). now exists gen.
Qed.

Lemma appended_tokens_are_indices_witness :
  model_shaped (St := nat) (cycle_model (Lit 0) (Lit 1)) (globals world_abc) /\
  sampler_shaped (F := sym) first_sampler /\
  fst (generate_soft_tokens (Lit 0) (Lit 1) Log Exp Div Float64 sym_sum Div
         first_sampler (cycle_model (Lit 0) (Lit 1)) 3 "ab" (Lit 1) world_abc)
    = inr [1; 2; 0; 0; 0] /\
  exists gen,
    [1; 2; 0; 0; 0] = encode (globals world_abc) "ab" ++ gen /\
    Forall (fun t => 0 <= t < vocab_size (globals world_abc) /\
                     t <> eos_token (globals world_abc)) gen.
Proof.
  split; [exact (cycle_model_shaped (Lit 0) (Lit 1))|].
  split; [exact first_sampler_shaped|].
  split; [reflexivity|].
  exact (proj2 (appended_tokens_are_indices sym nat nat (Lit 0) (Lit 1)
                  (fun _ _ => false) Log Exp Div Float64 sym_sum Div
                  first_sampler (cycle_model (Lit 0) (Lit 1)) 3 "ab" (Lit 1)
                  world_abc (cycle_model_shaped (Lit 0) (Lit 1)))
               first_sampler_shaped [1; 2; 0; 0; 0] eq_refl).
Defined.

(** ** The text the decoders return *)

Lemma string_length_app (s1 s2 : string) :
  String.length (s1 ++ s2) = (String.length s1 + String.length s2)%nat.
Proof. induction s1 as [|a r IH]; simpl; [reflexivity | now rewrite IH]. Qed.

Lemma keep_known_length g s :
  (String.length (keep_known g s) <= String.length s)%nat.
Proof.
  induction s as [|a r IH]; simpl; [lia|].
  destruct (PyDict.get _ _); simpl; lia.
Qed.

(** A token other than the end-of-sequence index decodes to one character
    at most. *)
Lemma decode_length_le titles gen :
  Forall (fun t => 0 <= t /\ t <> eos_token (notebook_globals titles)) gen ->
  (String.length (decode (notebook_globals titles) gen) <= length gen)%nat.
Proof.
  induction 1 as [|t gen [_ Hne] _ IH]; [simpl; lia|].
  change (t :: gen) with ([t] ++ gen).
  rewrite decode_app, string_length_app.
  destruct (char_token (notebook_globals titles) t) eqn:Et.
  - destruct (char_token_decodes titles t Et) as (a & -> & _). simpl. lia.
  - rewrite (other_token_decodes titles t Et Hne). simpl. lia.
Qed.

Lemma decoded_run_extends_seed titles start size toks :
  (exists gen,
     toks = encode (notebook_globals titles) start ++ gen /\
     (length gen <= Z.to_nat size)%nat /\
     Forall (fun t => 0 <= t /\ t <> eos_token (notebook_globals titles)) gen) ->
  exists suffix,
    decode (notebook_globals titles) toks
      = (keep_known (notebook_globals titles) start ++ suffix)%string /\
    Z.of_nat (String.length suffix) <= Z.max 0 size.
Proof.
  intros (gen & -> & Hlen & Hall).
  exists (decode (notebook_globals titles) gen).
  rewrite decode_app, (proj1 (decode_encode_known titles start)).
  split; [reflexivity|].
  apply decode_length_le in Hall. lia.
Qed.

(** X12. A text [generate] or [generate_soft] returns is the seed without
    its characters that have no index, followed by at most [max_length]
    characters; so it is at most [max_length] characters longer than the
    seed, and starts with the seed when the seed is made of vocabulary
    characters. *)
Theorem generated_text_extends_seed (F St Rng : Type) (fzero fone : F)
    (fltb : F -> F -> bool) (tf_log tf_exp : F -> F) (tf_div : F -> F -> F)
    (astype_float64 : F -> F) (np_sum : list F -> F) (np_div : F -> F -> F)
    (multinomial : Rng -> Z -> list F -> Z -> (exn + list (list Z)) * Rng)
    (titles : list string) (model : Model F St) (size : Z) (start : string)
    (temperature : F) (w : World St Rng) (txt : string) :
  let g := notebook_globals titles in
  let soft :=
    generate_soft fzero fone tf_log tf_exp tf_div astype_float64
                  np_sum np_div multinomial in
  globals w = g ->
  fst (generate fzero fone fltb model size start w) = inr txt \/
  fst (soft model size start temperature w) = inr txt ->
  exists suffix,
    txt = (keep_known g start ++ suffix)%string /\
    Z.of_nat (String.length suffix) <= Z.max 0 size /\
    Z.of_nat (String.length txt)
      <= Z.of_nat (String.length start) + Z.max 0 size /\
    (in_vocabulary g start -> txt = (start ++ suffix)%string).
Proof.
  intros g soft Hg Hrun.
  assert (Hsuffix : exists suffix,
            txt = (keep_known g start ++ suffix)%string /\
            Z.of_nat (String.length suffix) <= Z.max 0 size).
  { destruct Hrun as [Hrun|Hrun].
    - rewrite generate_result in Hrun.
      destruct (fst (generate_tokens fzero fone fltb model size start w))
        as [e|toks] eqn:Etoks; [discriminate|].
      injection Hrun as <-. rewrite Hg. apply decoded_run_extends_seed.
      apply generate_tokens_not_eos in Etoks. now rewrite Hg in Etoks.
    - unfold soft in Hrun. rewrite generate_soft_result in Hrun.
      destruct (fst (generate_soft_tokens _ _ _ _ _ _ _ _ _ _ _ _ _ _))
        as [e|toks] eqn:Etoks; [discriminate|].
      injection Hrun as <-. rewrite Hg. apply decoded_run_extends_seed.
      apply generate_soft_tokens_not_eos in Etoks. now rewrite Hg in Etoks. }
  destruct Hsuffix as (suffix & Htxt & Hlen). exists suffix.
  split; [exact Htxt|]. split; [exact Hlen|]. split.
  - rewrite Htxt, string_length_app.
    pose proof (keep_known_length g start). lia.
  - intros Hvoc. now rewrite Htxt, keep_known_in_vocabulary.
Qed.

Lemma generated_text_extends_seed_witness :
  globals world_abc = notebook_globals ["aaabbc"] /\
  fst (generate_Q (cycle_model 0%Q 1%Q) 2 "a?b" world_abc) = inr "abab" /\
  exists suffix,
    "abab" = (keep_known (notebook_globals ["aaabbc"]) "a?b" ++ suffix)%string /\
    Z.of_nat (String.length suffix) <= Z.max 0 2 /\
    Z.of_nat (String.length "abab")
      <= Z.of_nat (String.length "a?b") + Z.max 0 2 /\
    (in_vocabulary (notebook_globals ["aaabbc"]) "a?b" ->
     "abab" = ("a?b" ++ suffix)%string).
Proof.
  split; [reflexivity|]. split; [reflexivity|].
  exact (generated_text_extends_seed Q nat nat 0%Q 1%Q Qltb
           (fun q => q) (fun q => q) (fun a _ => a) (fun q => q)
           (fun _ => 0%Q) (fun a _ => a) cycle_sampler
           ["aaabbc"] (cycle_model 0%Q 1%Q) 2 "a?b" 1%Q world_abc "abab"
           eq_refl (or_introl eq_refl)).
Defined.

(** ** Where the exceptions come from *)

(** X13. [generate] and [generate_soft] raise nothing of their own: an
    exception of [generate] is one the predictor raised, or the
    [InvalidArgumentError] of a subscript or an [argmax] on an empty answer;
    an exception of [generate_soft] is one of these, one the sampler raised,
    or the [ValueError] of [np.argmax] on an empty draw. *)
Theorem decoder_exceptions (F St Rng : Type) (fzero fone : F)
    (fltb : F -> F -> bool) (tf_log tf_exp : F -> F) (tf_div : F -> F -> F)
    (astype_float64 : F -> F) (np_sum : list F -> F) (np_div : F -> F -> F)
    (multinomial : Rng -> Z -> list F -> Z -> (exn + list (list Z)) * Rng)
    (model : Model F St) (size : Z) (start : string) (temperature : F)
    (w : World St Rng) (e : exn) :
  let soft :=
    generate_soft fzero fone tf_log tf_exp tf_div astype_float64
                  np_sum np_div multinomial in
  (fst (generate fzero fone fltb model size start w) = inl e ->
   e = InvalidArgumentError \/ exists s x s', model s x = (inl e, s')) /\
  (fst (soft model size start temperature w) = inl e ->
   e = InvalidArgumentError \/ e = ValueError \/
   (exists s x s', model s x = (inl e, s')) \/
   (exists r pvals r', multinomial r 1 pvals 1 = (inl e, r'))).
Proof.
  intros soft. split; intros Hrun.
  - rewrite generate_result in Hrun.
    destruct (fst (generate_tokens fzero fone fltb model size start w))
      as [e0|toks] eqn:Etoks; [|discriminate].
    injection Hrun as ->. eapply generate_tokens_error. exact Etoks.
  - unfold soft in Hrun. rewrite generate_soft_result in Hrun.
    destruct (fst (generate_soft_tokens _ _ _ _ _ _ _ _ _ _ _ _ _ _))
      as [e0|toks] eqn:Etoks; [|discriminate].
    injection Hrun as ->. eapply generate_soft_tokens_error. exact Etoks.
Qed.

Lemma decoder_exceptions_witness :
  fst (generate_Q (checked_model 0%Q 1%Q) 3 "?" world_abc)
    = inl (ModelError "empty sequence") /\
  (ModelError "empty sequence" = InvalidArgumentError \/
   exists s x s',
     checked_model 0%Q 1%Q s x = (inl (ModelError "empty sequence"), s')).
Proof.
  split; [reflexivity|].
  exact (proj1 (decoder_exceptions Q nat nat 0%Q 1%Q Qltb
                  (fun q => q) (fun q => q) (fun a _ => a) (fun q => q)
                  (fun _ => 0%Q) (fun a _ => a) cycle_sampler
                  (checked_model 0%Q 1%Q) 3 "?" 1%Q world_abc
                  (ModelError "empty sequence"))
               eq_refl).
Defined.

(** ** Running out of iterations *)


(** X14. When the predictor makes [max_length] tokens most probable one
    after the other, none of them the end-of-sequence token, [generate]
    returns the seed extended by all of them: it stops because the loop has
    run [max_length] times, without an end-of-sequence token. From the second
    call on, the predictor is asked about the seed followed by the first
    chosen token twice. *)
Theorem greedy_stops_at_max_length (F St Rng : Type) (fzero fone : F)
    (fltb : F -> F -> bool) (model : Model F St) (size : Z) (start : string)
    (gen : list Z) (w : World St Rng) :
  let g := globals w in
  Z.of_nat (length gen) = size ->
  chosen_along fzero fone fltb model g (encode g start) (mstate w) [] gen ->
  fst (generate_tokens fzero fone fltb model size start w)
    = inr (encode g start ++ gen) /\
  fst (generate fzero fone fltb model size start w)
    = inr (decode g (encode g start ++ gen)).
Proof.
  intros g Hsize Hsched.
  assert (Hlen : length gen = Z.to_nat size) by lia.
  destruct (greedy_tokens_along F fzero fone fltb St model g start size
              (mstate w) gen Hlen Hsched) as (s' & Htok).
  destruct (generate_tokens_greedy F fzero fone fltb St Rng model size start w
              _ _ Htok) as (w1 & -> & _).
  destruct (generate_greedy F fzero fone fltb St Rng model size start w
              _ _ Htok) as (w2 & -> & _).
  split; reflexivity.
Qed.

Lemma greedy_stops_at_max_length_witness :
  Z.of_nat (length [1; 2; 3]) = 3 /\
  chosen_along 0%Q 1%Q Qltb (cycle_model 0%Q 1%Q) (globals world_abc)
               (encode (globals world_abc) "c") (mstate world_abc)
               [] [1; 2; 3] /\
  fst (generate_Q (cycle_model 0%Q 1%Q) 3 "c" world_abc) = inr "cabc".
Proof.
  assert (Hsched : chosen_along 0%Q 1%Q Qltb (cycle_model 0%Q 1%Q)
                     (globals world_abc) (encode (globals world_abc) "c")
                     (mstate world_abc) [] [1; 2; 3]).
  { vm_compute. repeat split; discriminate. }
  split; [reflexivity|]. split; [exact Hsched|].
  exact (proj2 (greedy_stops_at_max_length Q nat nat 0%Q 1%Q Qltb
                  (cycle_model 0%Q 1%Q) 3 "c" [1; 2; 3] world_abc
                  eq_refl Hsched)).
Defined.

(** X15. With [max_length = 2] and two choices that are not the
    end-of-sequence token, the second call of the predictor is on the seed
    followed by the first chosen token twice, since [chars.append] has
    already added that token to the list [inp] names when [inp + [nc]] is
    computed; the text returned has the token once. *)
Theorem second_call_repeats_first_token (F St Rng : Type) (fzero fone : F)
    (fltb : F -> F -> bool) (model : Model F St) (start : string)
    (t1 t2 : Z) (s1 s2 : St) (w : World St Rng) :
  let g := globals w in
  let seed := encode g start in
  select_at fzero fone fltb model g (mstate w) seed = (inr t1, s1) ->
  t1 <> eos_token g ->
  select_at fzero fone fltb model g s1 (seed ++ [t1; t1]) = (inr t2, s2) ->
  t2 <> eos_token g ->
  fst (generate fzero fone fltb model 2 start w)
    = inr (decode g (seed ++ [t1; t2])) /\
  mstate (snd (generate fzero fone fltb model 2 start w)) = s2.
Proof.
  intros g seed H1 Hne1 H2 Hne2.
  assert (Htok : greedy_tokens fzero fone fltb model g 2 start (mstate w)
                 = (inr (seed ++ [t1; t2]), s2)).
  { unfold greedy_tokens. fold seed. change (Z.to_nat 2) with 2%nat.
    rewrite H1. apply Z.eqb_neq in Hne1. rewrite Hne1.
    cbn [greedy_run]. rewrite <- (app_assoc seed [t1] [t1]).
    cbn [app]. rewrite H2. apply Z.eqb_neq in Hne2. rewrite Hne2.
    rewrite <- (app_assoc seed [t1] [t2]). reflexivity. }
  destruct (generate_greedy F fzero fone fltb St Rng model 2 start w
              _ _ Htok) as (w2 & -> & _ & Hm & _).
  split; [reflexivity | exact Hm].
Qed.

Lemma second_call_repeats_first_token_witness :
  select_at 0%Q 1%Q Qltb (length_model 0%Q 1%Q) (globals world_abc)
            (mstate world_abc) (encode (globals world_abc) "")
    = (inr 1, 0%nat) /\
  1 <> eos_token (globals world_abc) /\
  select_at 0%Q 1%Q Qltb (length_model 0%Q 1%Q) (globals world_abc) 0%nat
            (encode (globals world_abc) "" ++ [1; 1])
    = (inr 3, 0%nat) /\
  3 <> eos_token (globals world_abc) /\
  fst (generate_Q (length_model 0%Q 1%Q) 2 "" world_abc) = inr "ac".
Proof.
  assert (H1 : select_at 0%Q 1%Q Qltb (length_model 0%Q 1%Q) (globals world_abc)
                 (mstate world_abc) (encode (globals world_abc) "")
               = (inr 1, 0%nat)) by reflexivity.
  assert (Hne1 : 1 <> eos_token (globals world_abc)) by discriminate.
  assert (H2 : select_at 0%Q 1%Q Qltb (length_model 0%Q 1%Q) (globals world_abc)
                 0%nat (encode (globals world_abc) "" ++ [1; 1])
               = (inr 3, 0%nat)) by reflexivity.
  assert (Hne2 : 3 <> eos_token (globals world_abc)) by discriminate.
  split; [exact H1|]. split; [exact Hne1|]. split; [exact H2|].
  split; [exact Hne2|].
  exact (proj1 (second_call_repeats_first_token Q nat nat 0%Q 1%Q Qltb
                  (length_model 0%Q 1%Q) "" 1 3 0%nat 0%nat world_abc
                  H1 Hne1 H2 Hne2)).
Defined.

(** ** One sampling step *)

Lemma argmax_from_zeros k : forall best ibest i,
  0 <= best -> argmax_from Z.ltb best ibest i (repeat 0 k) = ibest.
Proof.
  induction k as [|k IH]; intros best ibest i Hb; simpl; [reflexivity|].
  destruct (Z.ltb_spec best 0); [lia|]. now apply IH.
Qed.

Lemma argmax_from_skip_zeros j l : forall ibest i,
  argmax_from Z.ltb 0 ibest i (repeat 0 j ++ l)
    = argmax_from Z.ltb 0 ibest (i + j) l.
Proof.
  induction j as [|j IH]; intros ibest i; simpl.
  - now rewrite Nat.add_0_r.
  - rewrite IH. f_equal. lia.
Qed.

(** [np.argmax] of the counts of one trial is the outcome drawn. *)
Lemma argmax_one_trial n i :
  (i < n)%nat -> argmax Z.ltb (one_trial n i) = Some i.
Proof.
  intros Hi. unfold one_trial. destruct i as [|i]; simpl.
  - now rewrite argmax_from_zeros by lia.
  - rewrite argmax_from_skip_zeros. simpl.
    rewrite argmax_from_zeros by lia. reflexivity.
Qed.

(** X16. One iteration of [generate_soft]: the predictor is called once, on
    the one-hot encoding of the seed, one trial is drawn from the rescaled
    and renormalised last distribution of its answer, and the outcome drawn
    is appended to the seed unless it is the end-of-sequence index. *)
Theorem generate_soft_appends_outcome (F St Rng : Type) (fzero fone : F)
    (tf_log tf_exp : F -> F) (tf_div : F -> F -> F)
    (astype_float64 : F -> F) (np_sum : list F -> F) (np_div : F -> F -> F)
    (multinomial : Rng -> Z -> list F -> Z -> (exn + list (list Z)) * Rng)
    (model : Model F St) (start : string) (temperature : F)
    (w : World St Rng) (seq : list (list F)) (batch : list (list (list F)))
    (out : list F) (s1 : St) (n i : nat) (r1 : Rng) :
  let g := globals w in
  let seed := encode g start in
  let soft :=
    generate_soft fzero fone tf_log tf_exp tf_div astype_float64
                  np_sum np_div multinomial in
  model (mstate w) (expand_dims0 (one_hot fzero fone seed (vocab_size g)))
    = (inr (seq :: batch), s1) ->
  last_opt seq = Some out ->
  multinomial (rng w) 1
    (renormalize np_sum np_div
       (rescale tf_log tf_exp tf_div astype_float64 out temperature)) 1
    = (inr [one_trial n i], r1) ->
  (i < n)%nat ->
  fst (soft model 1 start temperature w)
    = inr (decode g (if Z.of_nat i =? eos_token g then seed
                     else seed ++ [Z.of_nat i])) /\
  mstate (snd (soft model 1 start temperature w)) = s1 /\
  rng (snd (soft model 1 start temperature w)) = r1.
Proof.
  intros g seed soft Hmodel Hlast Hdraw Hi.
  unfold soft, generate_soft, generate_soft_tokens.
  change (Z.to_nat 1) with 1%nat. cbn [generate_soft_loop].
  unfold next_distribution.
  unfold bind, read_globals, new_list, read_list,
    call_model, np_random_multinomial, list_append, ret.
  cbn [fst snd globals heap mstate rng with_heap with_mstate with_rng].
  rewrite heap_load_app_new. fold g. fold seed. rewrite Hmodel.
  cbn [subscript_first ret fst snd]. unfold subscript_last. rewrite Hlast.
  unfold ret. cbn [fst snd globals heap mstate rng with_heap with_mstate with_rng].
  rewrite Hdraw.
  cbn [fst snd globals heap mstate rng with_heap with_mstate with_rng].
  unfold np_argmax. cbn [concat]. rewrite app_nil_r, argmax_one_trial by exact Hi.
  unfold ret. cbn [fst snd globals heap mstate rng with_heap with_mstate with_rng].
  fold g. destruct (Z.of_nat i =? eos_token g).
  - cbn [fst snd globals heap mstate rng with_heap with_mstate with_rng].
    rewrite heap_load_app_new. auto.
  - cbn [fst snd globals heap mstate rng with_heap with_mstate with_rng].
    rewrite heap_load_app_old by (rewrite heap_update_length, length_app; simpl; lia).
    rewrite heap_load_update_same by (rewrite length_app; simpl; lia).
    rewrite heap_load_app_new. auto.
Qed.

Lemma generate_soft_appends_outcome_witness :
  (1 < 5)%nat /\
  fst (generate_soft_sym (cycle_model (Lit 0) (Lit 1)) 1 "a" (Lit 1) world_abc)
    = inr "aa" /\
  mstate (snd (generate_soft_sym (cycle_model (Lit 0) (Lit 1)) 1 "a" (Lit 1)
                 world_abc)) = 1%nat /\
  rng (snd (generate_soft_sym (cycle_model (Lit 0) (Lit 1)) 1 "a" (Lit 1)
              world_abc)) = 1%nat.
Proof.
  assert (Hi : (1 < 5)%nat) by lia.
  split; [exact Hi|].
  exact (generate_soft_appends_outcome sym nat nat (Lit 0) (Lit 1)
           Log Exp Div Float64 sym_sum Div cycle_sampler
           (cycle_model (Lit 0) (Lit 1)) "a" (Lit 1) world_abc
           [point_mass (Lit 0) (Lit 1) 1] [] (point_mass (Lit 0) (Lit 1) 1)
           1%nat 5%nat 1%nat 1%nat eq_refl eq_refl eq_refl Hi).
Defined.

(** ** Inputs [generate_soft] does not check *)

Section SoftFirstStep.

Local Set Default Proof Using "Type".

Variable F : Type.
Variables fzero fone : F.
Variables St Rng : Type.
Variables tf_log tf_exp : F -> F.
Variable tf_div : F -> F -> F.
Variable astype_float64 : F -> F.
Variable np_sum : list F -> F.
Variable np_div : F -> F -> F.
Variable multinomial : Rng -> Z -> list F -> Z -> (exn + list (list Z)) * Rng.
Variable model : Model F St.
Variable start : string.
Variable temperature : F.
Variable w : World St Rng.

Local Abbreviation g := (globals w).
Local Abbreviation seed := (encode (globals w) start).
Local Abbreviation soft_run :=
  (generate_soft fzero fone tf_log tf_exp tf_div astype_float64 np_sum np_div
                 multinomial).
Local Abbreviation pvals_of out :=
  (renormalize np_sum np_div
     (rescale tf_log tf_exp tf_div astype_float64 out temperature)).
Local Abbreviation after s1 r1 :=
  (with_rng (with_mstate (with_heap w (heap w ++ [seed])) s1) r1).

Variable seq : list (list F).
Variable batch : list (list (list F)).
Variable out : list F.
Variable s1 : St.
Hypothesis answer :
  model (mstate w) (expand_dims0 (one_hot fzero fone seed (vocab_size g)))
    = (inr (seq :: batch), s1).
Hypothesis last_is : last_opt seq = Some out.

(** The first iteration: the sampler is given the last distribution,
    rescaled by the temperature and renormalised, and what it does decides
    how the iteration ends. *)
Lemma generate_soft_first_draw size r r1 :
  0 < size ->
  multinomial (rng w) 1 (pvals_of out) 1 = (r, r1) ->
  match r with
  | inl e => soft_run model size start temperature w = (inl e, after s1 r1)
  | inr draw =>
      match argmax Z.ltb (concat draw) with
      | None =>
          soft_run model size start temperature w
            = (inl ValueError, after s1 r1)
      | Some i =>
          Z.of_nat i = eos_token g ->
          soft_run model size start temperature w
            = (inr (decode g seed), after s1 r1)
      end
  end.
Proof using answer last_is.
  intros Hsize Hdraw. unfold generate_soft, generate_soft_tokens.
  destruct (Z.to_nat size) as [|n] eqn:En; [lia|]. cbn [generate_soft_loop].
  unfold next_distribution.
  unfold bind, read_globals, new_list, read_list,
    call_model, np_random_multinomial, list_append, ret.
  cbn [fst snd globals heap mstate rng with_heap with_mstate with_rng].
  rewrite heap_load_app_new, answer.
  cbn [subscript_first ret fst snd]. unfold subscript_last. rewrite last_is.
  unfold ret. cbn [fst snd globals heap mstate rng with_heap with_mstate with_rng].
  rewrite Hdraw. destruct r as [e|draw]; [reflexivity|].
  cbn [fst snd globals heap mstate rng with_heap with_mstate with_rng].
  unfold np_argmax. destruct (argmax Z.ltb (concat draw)) as [i|];
    [|reflexivity].
  intros Heos. unfold ret.
  cbn [fst snd globals heap mstate rng with_heap with_mstate with_rng].
  apply Z.eqb_eq in Heos. rewrite Heos.
  cbn [fst snd globals heap mstate rng with_heap with_mstate with_rng].
  now rewrite heap_load_app_new.
Qed.


End SoftFirstStep.

(** C6, as the code has it. [generate_soft] does not validate its
    temperature and has no error of its own for it. Whatever the temperature
    (zero and negative ones included): with [max_length <= 0] it returns the
    decoding of the encoded seed, which is the seed without the characters
    that have no index, and calls neither the predictor nor the sampler;
    with [max_length > 0] it calls the predictor on the seed and gives the
    sampler the last distribution rescaled by that temperature and
    renormalised: if the sampler raises on it, [generate_soft] raises the
    same exception, and if the outcome drawn is the end-of-sequence index it
    returns the decoded seed. An exception of [generate_soft] is always one
    the predictor or the sampler raised, or the error of a subscript or an
    [argmax] on an empty answer. *)
Theorem generate_soft_any_temperature (F St Rng : Type) (fzero fone : F)
    (tf_log tf_exp : F -> F) (tf_div : F -> F -> F)
    (astype_float64 : F -> F) (np_sum : list F -> F) (np_div : F -> F -> F)
    (multinomial : Rng -> Z -> list F -> Z -> (exn + list (list Z)) * Rng)
    (model : Model F St) (size : Z) (start : string) (temperature : F)
    (w : World St Rng) :
  let g := globals w in
  let seed := encode g start in
  let soft :=
    generate_soft fzero fone tf_log tf_exp tf_div astype_float64
                  np_sum np_div multinomial in
  let after s1 r1 :=
    with_rng (with_mstate (with_heap w (heap w ++ [seed])) s1) r1 in
  (size <= 0 ->
   soft model size start temperature w =
     (inr (decode g seed), with_heap w (heap w ++ [seed]))) /\
  (forall titles, g = notebook_globals titles ->
   decode g seed = keep_known g start) /\
  (0 < size ->
   forall seq batch out s1,
     model (mstate w) (expand_dims0 (one_hot fzero fone seed (vocab_size g)))
       = (inr (seq :: batch), s1) ->
     last_opt seq = Some out ->
     let pvals :=
       renormalize np_sum np_div
         (rescale tf_log tf_exp tf_div astype_float64 out temperature) in
     (forall e r1,
        multinomial (rng w) 1 pvals 1 = (inl e, r1) ->
        soft model size start temperature w = (inl e, after s1 r1)) /\
     (forall draw i r1,
        multinomial (rng w) 1 pvals 1 = (inr draw, r1) ->
        argmax Z.ltb (concat draw) = Some i ->
        Z.of_nat i = eos_token g ->
        soft model size start temperature w
          = (inr (decode g seed), after s1 r1))) /\
  (forall e,
     fst (soft model size start temperature w) = inl e ->
     e = InvalidArgumentError \/ e = ValueError \/
     (exists s x s', model s x = (inl e, s')) \/
     (exists r pvals r', multinomial r 1 pvals 1 = (inl e, r'))).
Proof.
  intros g seed soft after. split; [|split; [|split]].
  - intros Hsize. now apply generate_soft_no_iteration.
  - intros titles Hg. unfold seed. rewrite Hg.
    apply (proj1 (decode_encode_known titles start)).
  - intros Hsize seq batch out s1 Hanswer Hlast pvals. split.
    + intros e r1 Hdraw.
      exact (generate_soft_first_draw F fzero fone St Rng tf_log tf_exp tf_div
               astype_float64 np_sum np_div multinomial model start
               temperature w seq batch out s1 Hanswer Hlast size (inl e) r1
               Hsize Hdraw).
    + intros draw i r1 Hdraw Hi Heos.
      pose proof (generate_soft_first_draw F fzero fone St Rng tf_log tf_exp
                    tf_div astype_float64 np_sum np_div multinomial model
                    start temperature w seq batch out s1 Hanswer Hlast size
                    (inr draw) r1 Hsize Hdraw) as Hrun.
      cbn beta iota in Hrun. rewrite Hi in Hrun. exact (Hrun Heos).
  - intros e Hrun. unfold soft in Hrun. rewrite generate_soft_result in Hrun.
    destruct (fst (generate_soft_tokens _ _ _ _ _ _ _ _ _ _ _ _ _ _))
      as [e0|toks] eqn:Etoks; [|discriminate].
    injection Hrun as ->. eapply generate_soft_tokens_error. exact Etoks.
Qed.

Lemma generate_soft_any_temperature_witness :
  0 < 3 /\
  cycle_model (Lit 0) (Lit 1) (mstate world_abc)
    (expand_dims0 (one_hot (Lit 0) (Lit 1) (encode (globals world_abc) "a")
                           (vocab_size (globals world_abc))))
    = (inr [[point_mass (Lit 0) (Lit 1) 1]], 1%nat) /\
  generate_soft (Lit 0) (Lit 1) Log Exp Div Float64 sym_sum Div rejecting_sampler
                (cycle_model (Lit 0) (Lit 1)) 3 "a" (Lit 0) world_abc
    = (inl ValueError,
       with_rng (with_mstate (with_heap world_abc [[1]]) 1%nat) 1%nat).
Proof.
  assert (Hsize : 0 < 3) by lia.
  split; [exact Hsize|]. split; [reflexivity|].
  exact (proj1 (proj1 (proj2 (proj2
           (generate_soft_any_temperature sym nat nat (Lit 0) (Lit 1)
              Log Exp Div Float64 sym_sum Div rejecting_sampler
              (cycle_model (Lit 0) (Lit 1)) 3 "a" (Lit 0) world_abc)))
           Hsize [point_mass (Lit 0) (Lit 1) 1] []
           (point_mass (Lit 0) (Lit 1) 1) 1%nat eq_refl eq_refl)
         ValueError 1%nat eq_refl).
Defined.



